(** * Canyonite GHL → Shopify media sync: a shallow embedding of [sync.js]

    The development follows the latest revision of the script (the one with
    [resolveEnv], the [attachedTotal]/[skippedTotal] counters and the
    600 ms retry base).  The revision before it has the same pipeline with a
    500 ms base, [MAX_RETRIES] fixed at 3 and no counters; the first revision
    has neither the retry nor the diff against the existing media.

    Conventions of the embedding:
    - a JavaScript string is a Rocq [string], read as a sequence of code
      units in the Latin-1 range (U+0000 to U+00FF);
    - a JavaScript number that the script uses as a counter, an index, a
      delay or an HTTP status is a [Z];
    - [undefined] is [None]; a property read of [null]/[undefined] raises
      [TypeError];
    - the network, the clock and the console are an explicit world: a script
      of server answers that is consumed request by request, and a trace of
      the requests, delays and console lines the program produced. *)

From Stdlib Require Import ZArith Ascii String List Lia Bool.
From stdpp Require Import base gmap strings list.
Import ListNotations.

Open Scope string_scope.
Open Scope list_scope.
Open Scope Z_scope.

(** ** JavaScript primitives used by the script *)

Module Js.

(** [Array.prototype.slice] / [String.prototype.slice]: a negative index
    counts from the end, both indices are clamped to [0, len]. *)
Definition relIndex (len i : Z) : Z :=
  if i <? 0 then Z.max (len + i) 0 else Z.min i len.

Definition slice {A} (l : list A) (start stop : Z) : list A :=
  let len := Z.of_nat (length l) in
  let k := relIndex len start in
  let final := relIndex len stop in
  firstn (Z.to_nat (final - k)) (skipn (Z.to_nat k) l).

Definition chars (s : string) : list ascii := list_ascii_of_string s.
Definition str (l : list ascii) : string := string_of_list_ascii l.

Definition strlen (s : string) : Z := Z.of_nat (String.length s).

(** [s.slice(start, stop)] and [s.slice(start)]. *)
Definition sliceStr (s : string) (start stop : Z) : string :=
  str (slice (chars s) start stop).
Definition sliceFrom (s : string) (start : Z) : string :=
  sliceStr s start (strlen s).

Definition isEmpty (s : string) : bool :=
  match s with EmptyString => true | String _ _ => false end.

Definition code (c : ascii) : N := N_of_ascii c.

Definition between (lo hi n : N) : bool := ((lo <=? n) && (n <=? hi))%N.

(** ECMAScript WhiteSpace and LineTerminator code points below U+0100:
    TAB, LF, VT, FF, CR, SPACE and NO-BREAK SPACE. *)
Definition isWhiteSpace (c : ascii) : bool :=
  between 9 13 (code c) || (code c =? 32)%N || (code c =? 160)%N.

Fixpoint trimStartL (l : list ascii) : list ascii :=
  match l with
  | [] => []
  | c :: r => if isWhiteSpace c then trimStartL r else l
  end.

Definition trimEndL (l : list ascii) : list ascii :=
  rev (trimStartL (rev l)).

(** [String.prototype.trim]. *)
Definition trim (s : string) : string :=
  str (trimEndL (trimStartL (chars s))).

(** Upper-case letters of Latin-1: A-Z, and U+00C0..U+00DE without the
    multiplication sign U+00D7; each maps to the code point 32 above. *)
Definition lowerChar (c : ascii) : ascii :=
  let n := code c in
  if between 65 90 n || between 192 214 n || between 216 222 n
  then ascii_of_N (n + 32) else c.

(** [String.prototype.toLowerCase]. *)
Definition toLowerCase (s : string) : string :=
  str (map lowerChar (chars s)).

(** [s.startsWith(p)]. *)
Definition startsWith (s p : string) : bool := String.prefix p s.

(** [s.split('/').pop()]: what follows the last slash. *)
Fixpoint lastSegmentL (acc l : list ascii) : list ascii :=
  match l with
  | [] => acc
  | c :: r => if Ascii.eqb c "/" then lastSegmentL [] r
              else lastSegmentL (acc ++ [c]) r
  end.
Definition lastSegment (s : string) : string := str (lastSegmentL [] (chars s)).

(** A value that may be [undefined] (or [null]); [a || b] on such
    strings. *)
Definition truthyStr (o : option string) : bool :=
  match o with Some s => negb (isEmpty s) | None => false end.

Definition orElse (a b : option string) : option string :=
  if truthyStr a then a else b.

Definition orStr (a : option string) (b : string) : string :=
  match a with
  | Some s => if isEmpty s then b else s
  | None => b
  end.

End Js.

(** ** Env helpers *)

(** [mask]: what the boot banner prints instead of a secret. *)
Definition mask (s : string) : string :=
  if Js.isEmpty s then "(empty)"
  else if Js.strlen s <=? 6 then "***"
  else (Js.sliceStr s 0 3 ++ "***" ++ Js.sliceFrom s (-3))%string.

(** ** Media classification *)

Inductive MediaContentType := IMAGE | VIDEO | EXTERNAL_VIDEO.

Definition IMAGE_EXT : gset string :=
  list_to_set [".jpg"; ".jpeg"; ".png"; ".webp"; ".gif"].
Definition VIDEO_EXT : gset string :=
  list_to_set [".mp4"; ".mov"; ".webm"; ".m4v"].

(** [set.has(x)]. *)
Definition has (s : gset string) (x : string) : bool := bool_decide (x ∈ s).

Definition isExtChar (c : ascii) : bool :=
  Js.between 97 122 (Js.code c) || Js.between 48 57 (Js.code c).

(** The leftmost match of [/\.[a-z0-9]+$/]: the first position that holds a
    dot followed, up to the end of the string, by one or more characters of
    [a-z0-9]. *)
Fixpoint matchExt (l : list ascii) : option (list ascii) :=
  match l with
  | [] => None
  | c :: r =>
      if Ascii.eqb c "." && negb (Nat.eqb (length r) 0) && forallb isExtChar r
      then Some l else matchExt r
  end.

Definition extOf (n : string) : string :=
  match matchExt (Js.chars (Js.toLowerCase n)) with
  | Some m => Js.str m
  | None => ""
  end.

(** A file object: an element of the Asset Source's answer, and also what
    [fetchGhlFiles] returns (then only [url], [name] and [mime] are set). *)
Record FileObj := {
  f_url  : option string;
  f_link : option string;
  f_path : option string;
  f_name : option string;
  f_mime : option string;
  f_type : option string
}.

(** What the script takes from the JavaScript host. *)
Record Host := {
  (** [new URL(u).pathname], or [None] when the constructor throws. *)
  urlPathname : string -> option string;
  (** [decodeURIComponent], or [None] when it throws. *)
  decodeURIComponent : string -> option string
}.

Section Classify.

Variable host : Host.

Definition filenameFromUrl (url : option string) : string :=
  match url with
  | Some u =>
      match urlPathname host u with
      | Some p =>
          match decodeURIComponent host (Js.lastSegment p) with
          | Some d => d
          | None => Js.lastSegment (Js.orStr url "")
          end
      | None => Js.lastSegment (Js.orStr url "")
      end
  | None => Js.lastSegment (Js.orStr url "")
  end.

Definition guessMediaType (f : FileObj) : MediaContentType :=
  let mime := Js.toLowerCase (Js.orStr (Js.orElse (f_mime f) (f_type f)) "") in
  let name := Js.orStr (f_name f) (filenameFromUrl (f_url f)) in
  let ext := extOf name in
  if Js.startsWith mime "image/" || has IMAGE_EXT ext then IMAGE
  else if Js.startsWith mime "video/" || has VIDEO_EXT ext then VIDEO
  else EXTERNAL_VIDEO.

End Classify.

(** ** JSON values as the script reads them *)

#[local] Set Warnings "-register-all".

Inductive JSON :=
| JNull
| JBool (b : bool)
| JNum (n : Z)
| JStr (s : string)
| JArr (items : list JSON)
| JObj (fields : list (string * JSON)).

(** A JavaScript value obtained from parsed JSON: [None] is [undefined]. *)
Definition Value := option JSON.

Inductive Error :=
| GraphQLHttpError (status : Z) (body : string)  (* `GraphQL HTTP ${status}: ${body}` *)
| GraphQLErrors (errors : Value)                 (* `GraphQL errors: ${...}` *)
| MediaUserErrors (errs : Value)                 (* `mediaUserErrors: ${...}` *)
| GhlFetchHttpError (status : Z) (body : string) (* `GHL fetch HTTP ${status}: ${body}` *)
| GhlShapeError                                  (* 'GHL endpoint must return an array ...' *)
| TypeError                                      (* read of null/undefined, call of a non-function *)
| SyntaxError                                    (* res.json() on a body that is not JSON *)
| FetchError.                                    (* fetch() rejected: no HTTP answer *)

Module Json.

Definition truthy (v : Value) : bool :=
  match v with
  | None | Some JNull => false
  | Some (JBool b) => b
  | Some (JNum n) => negb (n =? 0)
  | Some (JStr s) => negb (Js.isEmpty s)
  | Some (JArr _) | Some (JObj _) => true
  end.

(** The value of a key; as with [JSON.parse], the last binding wins. *)
Fixpoint lookupField (k : string) (fs : list (string * JSON)) : Value :=
  match fs with
  | [] => None
  | (k', v) :: r =>
      match lookupField k r with
      | Some x => Some x
      | None => if String.eqb k k' then Some v else None
      end
  end.

(** [v.k]: raises on [null] and [undefined]; the keys the script reads are
    not properties of booleans, numbers, strings or arrays. *)
Definition getProp (v : Value) (k : string) : Error + Value :=
  match v with
  | None | Some JNull => inl TypeError
  | Some (JObj fs) => inr (lookupField k fs)
  | Some _ => inr None
  end.

(** [v?.k]. *)
Definition optProp (v : Value) (k : string) : Value :=
  match v with
  | Some (JObj fs) => lookupField k fs
  | _ => None
  end.

(** [v?.[0]]. *)
Definition optIndex0 (v : Value) : Value :=
  match v with
  | Some (JArr l) => head l
  | Some (JObj fs) => lookupField "0" fs
  | Some (JStr (String c _)) => Some (JStr (String c EmptyString))
  | _ => None
  end.

(** [v.length] of a truthy value. *)
Definition lengthOf (v : JSON) : Value :=
  match v with
  | JArr l => Some (JNum (Z.of_nat (length l)))
  | JStr s => Some (JNum (Js.strlen s))
  | JObj fs => lookupField "length" fs
  | _ => None
  end.

End Json.

(** ** The world: two servers, a clock, a console *)

Record Response := {
  status : Z;
  text : string;           (* what [res.text()] yields *)
  json : option JSON       (* what [res.json()] yields; [None]: it rejects *)
}.

(** [res.ok]. *)
Definition ok (r : Response) : bool := (200 <=? status r) && (status r <=? 299).

Inductive FetchResult :=
| Rejected
| Answered (r : Response).

(** The body of the Asset Source's answer, by the shapes [fetchGhlFiles]
    tells apart.  An element is [None] when it is [null] (or another falsy
    value) and a file object otherwise. *)
Inductive GhlBody :=
| GhlArray (items : list (option FileObj))   (* [ ... ] *)
| GhlFiles (items : list (option FileObj))   (* { files: [ ... ] } *)
| GhlOther                                   (* neither, and not null *)
| GhlNull.                                   (* null: reading [.files] raises *)

Record GhlResponse := {
  g_status : Z;
  g_text : string;
  g_json : option GhlBody
}.

Definition g_ok (r : GhlResponse) : bool :=
  (200 <=? g_status r) && (g_status r <=? 299).

Record World := {
  ghlAnswer : option GhlResponse;        (* [None]: the fetch rejects *)
  shopifyAnswer : nat -> FetchResult     (* the answer to the n-th POST *)
}.

Record MediaInput := {
  alt : string;
  mediaContentType : MediaContentType;
  originalSource : option string
}.

Inductive Query :=
| ProductByHandle (handle : string)
| ProductsBySku (q : string)
| ProductMedia (id : Value)
| ProductCreateMedia (productId : Value) (media : list MediaInput).

Inductive Line :=
| WarnHttpRetry (status attempt wait : Z)
| WarnErrorsRetry (attempt wait : Z)
| InfoNoFiles
| InfoNoMatch
| WarnNoProduct (code handle : string)
| NothingNew (label : string)
| DryRunWouldAttach (n : Z) (label : string)
| Attached (n total : Z) (label : string)
| Rule
| Summary (attached skipped : Z)
| DoneLine
| SyncFailed (e : Error).

Inductive Event :=
| GhlGet
| GqlPost (q : Query) (attempt : Z)
| Sleep (ms : Z)
| Console (l : Line).

Record State := {
  sent : nat;              (* POSTs issued to the Catalog Service so far *)
  trace : list Event       (* everything observable, oldest first *)
}.

Definition initial : State := {| sent := 0; trace := [] |}.

(** ** Computations: state, exceptions, and fuel for the one unbounded loop *)

Inductive Outcome (A : Type) :=
| Return (a : A)
| Throw (e : Error)
| OutOfFuel.
Arguments Return {A} a.
Arguments Throw {A} e.
Arguments OutOfFuel {A}.

Definition M (A : Type) : Type := State -> Outcome A * State.

Definition ret {A} (a : A) : M A := fun s => (Return a, s).
Definition throw {A} (e : Error) : M A := fun s => (Throw e, s).
Definition outOfFuel {A} : M A := fun s => (OutOfFuel, s).

Definition bind {A B} (m : M A) (k : A -> M B) : M B :=
  fun s =>
    match m s with
    | (Return a, s') => k a s'
    | (Throw e, s') => (Throw e, s')
    | (OutOfFuel, s') => (OutOfFuel, s')
    end.

Notation "x <- m ;; k" := (bind m (fun x => k))
  (at level 100, m at next level, right associativity).
Notation "m ;; k" := (bind m (fun _ => k))
  (at level 100, right associativity).

Definition emit (e : Event) : M unit :=
  fun s => (Return tt, {| sent := sent s; trace := trace s ++ [e] |}).

Definition console (l : Line) : M unit := emit (Console l).
Definition sleep (ms : Z) : M unit := emit (Sleep ms).

Definition lift {A} (r : Error + A) : M A :=
  match r with inl e => throw e | inr a => ret a end.

Fixpoint mapM {A B} (f : A -> M B) (l : list A) : M (list B) :=
  match l with
  | [] => ret []
  | x :: r => y <- f x ;; ys <- mapM f r ;; ret (y :: ys)
  end.


(** ** Configuration *)

Record Config := {
  MAX_RETRIES : Z;
  MEDIA_BATCH_SIZE : Z;
  DRY_RUN : bool;
  (** [extractCode], as fixed by PRODUCT_CODE_REGEX: the first match in
      upper case, or [None] for [null]. *)
  extractCode : string -> option string;
  (** [deriveHandleFromCode], as fixed by PRODUCT_HANDLE_TEMPLATE. *)
  deriveHandleFromCode : string -> string
}.

(** The delay before the first retry, in milliseconds. *)
Definition BASE_DELAY : Z := 600.

Definition RETRYABLE : list Z := [429; 500; 502; 503; 504].

(** [arr.includes(x)] on numbers. *)
Definition includes (l : list Z) (x : Z) : bool := existsb (Z.eqb x) l.

Section Sync.

Variable host : Host.
Variable cfg : Config.
Variable world : World.

(** ** Shopify GraphQL *)

(** One [fetch(API, ...)]: the request is observable, the answer is the
    next one of the script. *)
Definition post (q : Query) (attempt : Z) : M Response :=
  fun s =>
    let s' := {| sent := S (sent s); trace := trace s ++ [GqlPost q attempt] |} in
    match shopifyAnswer world (sent s) with
    | Rejected => (Throw FetchError, s')
    | Answered r => (Return r, s')
    end.

(** What [gql] does with the answer to attempt [attempt]; [retry] is the
    recursive call [gql(query, variables, attempt + 1)]. *)
Definition onResponse (retry : M Value) (attempt : Z) (res : Response) : M Value :=
  if negb (ok res) then
    let retryable := includes RETRYABLE (status res) in
    if retryable && (attempt <? MAX_RETRIES cfg) then
      let wait := BASE_DELAY * 2 ^ (attempt - 1) in
      console (WarnHttpRetry (status res) attempt wait) ;;
      sleep wait ;;
      retry
    else throw (GraphQLHttpError (status res) (text res))
  else
    match json res with
    | None => throw SyntaxError
    | Some j =>
        errors <- lift (Json.getProp (Some j) "errors") ;;
        if Json.truthy errors then
          if attempt <? MAX_RETRIES cfg then
            let wait := BASE_DELAY * 2 ^ (attempt - 1) in
            console (WarnErrorsRetry attempt wait) ;;
            sleep wait ;;
            retry
          else throw (GraphQLErrors errors)
        else lift (Json.getProp (Some j) "data")
    end.

(** [gql(query, variables, attempt)].  The recursion of the script is on
    [attempt], which grows up to [MAX_RETRIES]; [fuel] counts the calls
    that are left. *)
Fixpoint gqlFrom (fuel : nat) (q : Query) (attempt : Z) : M Value :=
  match fuel with
  | O => outOfFuel
  | S fuel' =>
      res <- post q attempt ;;
      onResponse (gqlFrom fuel' q (attempt + 1)) attempt res
  end.

(** [gql(query, variables)], that is, [attempt = 1]. *)
Definition gql (q : Query) : M Value :=
  gqlFrom (S (Z.to_nat (MAX_RETRIES cfg - 1))) q 1.

(** Step 2 of [findProductIdByHandleOrSku]: the lookup by SKU. *)
Definition findBySku (code : string) : M Value :=
  if negb (Js.isEmpty code) then
    d <- gql (ProductsBySku ("sku:" ++ code)%string) ;;
    products <- lift (Json.getProp d "products") ;;
    let node := Json.optProp (Json.optIndex0 (Json.optProp products "edges")) "node" in
    if Json.truthy (Json.optProp node "id") then ret (Json.optProp node "id")
    else ret (Some JNull)
  else ret (Some JNull).

Definition findProductIdByHandleOrSku (handle code : string) : M Value :=
  if negb (Js.isEmpty handle) then
    d <- gql (ProductByHandle handle) ;;
    product <- lift (Json.getProp d "product") ;;
    if Json.truthy (Json.optProp product "id") then ret (Json.optProp product "id")
    else findBySku code
  else findBySku code.

(** [(e.node?.alt || '').trim()] for one edge. *)
Definition altOfEdge (e : JSON) : Error + string :=
  match Json.getProp (Some e) "node" with
  | inl err => inl err
  | inr node =>
      let a := Json.optProp node "alt" in
      if Json.truthy a then
        match a with
        | Some (JStr s) => inr (Js.trim s)
        | _ => inl TypeError
        end
      else inr (Js.trim "")
  end.

(** [edges.map(...)] where [edges] is [... || []]. *)
Definition altsOfEdges (edges : Value) : M (list string) :=
  if Json.truthy edges then
    match edges with
    | Some (JArr l) => mapM (fun e => lift (altOfEdge e)) l
    | _ => throw TypeError
    end
  else ret [].

Definition getExistingMediaAlts (productId : Value) : M (gset string) :=
  d <- gql (ProductMedia productId) ;;
  product <- lift (Json.getProp d "product") ;;
  let edges := Json.optProp (Json.optProp product "media") "edges" in
  alts <- altsOfEdges edges ;;
  ret (list_to_set (List.filter (fun s => negb (Js.isEmpty s)) alts)).

Definition attachMediaBatch (productId : Value) (medias : list MediaInput) : M unit :=
  if Nat.eqb (length medias) 0 then ret tt
  else
    d <- gql (ProductCreateMedia productId medias) ;;
    pcm <- lift (Json.getProp d "productCreateMedia") ;;
    let errs := Json.optProp pcm "mediaUserErrors" in
    let len := if Json.truthy errs
               then match errs with Some v => Json.lengthOf v | None => None end
               else Some (JNum 0) in
    if Json.truthy len then throw (MediaUserErrors errs) else ret tt.

(** ** GHL fetcher *)

(** [f && (f.url || f.link || f.path)]. *)
Definition hasLocation (e : option FileObj) : bool :=
  match e with
  | Some f => Js.truthyStr (Js.orElse (Js.orElse (f_url f) (f_link f)) (f_path f))
  | None => false
  end.

(** The [map] callback: [{ url, name, mime }]. *)
Definition normalize (f : FileObj) : FileObj :=
  let url := Js.orElse (Js.orElse (f_url f) (f_link f)) (f_path f) in
  let name := Js.orStr (f_name f) (filenameFromUrl host url) in
  let mime := Js.orStr (Js.orElse (f_mime f) (f_type f)) "" in
  {| f_url := url; f_link := None; f_path := None;
     f_name := Some name; f_mime := Some mime; f_type := None |}.

(** [list.filter(...).map(...)]. *)
Fixpoint keepLocated (l : list (option FileObj)) : list FileObj :=
  match l with
  | [] => []
  | Some f :: r => if hasLocation (Some f) then normalize f :: keepLocated r
                   else keepLocated r
  | None :: r => keepLocated r
  end.

Definition fetchGhlFiles : M (list FileObj) :=
  emit GhlGet ;;
  match ghlAnswer world with
  | None => throw FetchError
  | Some res =>
      if negb (g_ok res) then throw (GhlFetchHttpError (g_status res) (g_text res))
      else
        match g_json res with
        | None => throw SyntaxError
        | Some GhlNull => throw TypeError
        | Some GhlOther => throw GhlShapeError
        | Some (GhlArray l) => ret (keepLocated l)
        | Some (GhlFiles l) => ret (keepLocated l)
        end
  end.

(** ** Main *)

(** [mediaByCode]: a [Map] keeps its keys in insertion order. *)
Definition Groups := list (string * list MediaInput).

(** [if (!mediaByCode.has(code)) mediaByCode.set(code, []);
     mediaByCode.get(code).push(mediaInput)]. *)
Fixpoint pushMedia (code : string) (m : MediaInput) (g : Groups) : Groups :=
  match g with
  | [] => [(code, [m])]
  | (c, ms) :: r =>
      if String.eqb c code then (c, (ms ++ [m])%list) :: r
      else (c, ms) :: pushMedia code m r
  end.

(** The body of the grouping loop for one file. *)
Definition groupFile (g : Groups) (f : FileObj) : Groups :=
  match extractCode cfg (Js.orStr (Js.orElse (f_name f) (f_url f)) "") with
  | None => g
  | Some code =>
      if Js.isEmpty code then g
      else
        let alt := Js.trim (Js.orStr (f_name f) (filenameFromUrl host (f_url f))) in
        let mediaContentType := guessMediaType host f in
        pushMedia code
          {| alt := alt; mediaContentType := mediaContentType;
             originalSource := f_url f |} g
  end.

Definition groupFiles (files : list FileObj) : Groups :=
  fold_left groupFile files [].

(** [allMedias.filter((m) => !existingAlts.has((m.alt || '').trim()))]. *)
Definition toAttachOf (existingAlts : gset string) (allMedias : list MediaInput)
  : list MediaInput :=
  List.filter (fun m => negb (has existingAlts (Js.trim (Js.orStr (Some (alt m)) ""))))
              allMedias.

(** [handle || code]. *)
Definition label (handle code : string) : string :=
  Js.orStr (Some handle) code.

(** The batch loop [for (let i = ...; i < toAttach.length; i += MEDIA_BATCH_SIZE)],
    entered at index [i] with [attachedTotal = attached]. *)
Fixpoint attachLoop (fuel : nat) (productId : Value) (lbl : string)
         (toAttach : list MediaInput) (i attached : Z) : M Z :=
  match fuel with
  | O => outOfFuel
  | S fuel' =>
      if i <? Z.of_nat (length toAttach) then
        let chunk := Js.slice toAttach i (i + MEDIA_BATCH_SIZE cfg) in
        attachMediaBatch productId chunk ;;
        let attached' := attached + Z.of_nat (length chunk) in
        console (Attached (Z.of_nat (length chunk)) (Z.of_nat (length toAttach)) lbl) ;;
        attachLoop fuel' productId lbl toAttach (i + MEDIA_BATCH_SIZE cfg) attached'
      else ret attached
  end.

(** The body of the loop over the groups; the pair is
    [(attachedTotal, skippedTotal)]. *)
Definition processGroup (fuel : nat) (totals : Z * Z) (g : string * list MediaInput)
  : M (Z * Z) :=
  let '(attachedTotal, skippedTotal) := totals in
  let '(code, allMedias) := g in
  let handle := deriveHandleFromCode cfg code in
  productId <- findProductIdByHandleOrSku handle code ;;
  if negb (Json.truthy productId) then
    console (WarnNoProduct code handle) ;;
    ret (attachedTotal, skippedTotal)
  else
    existingAlts <- getExistingMediaAlts productId ;;
    let toAttach := toAttachOf existingAlts allMedias in
    let skippedTotal' :=
      skippedTotal + (Z.of_nat (length allMedias) - Z.of_nat (length toAttach)) in
    if Nat.eqb (length toAttach) 0 then
      console (NothingNew (label handle code)) ;;
      ret (attachedTotal, skippedTotal')
    else if DRY_RUN cfg then
      console (DryRunWouldAttach (Z.of_nat (length toAttach)) (label handle code)) ;;
      ret (attachedTotal, skippedTotal')
    else
      attachedTotal' <-
        attachLoop fuel productId (label handle code) toAttach 0 attachedTotal ;;
      ret (attachedTotal', skippedTotal').

Fixpoint forGroups (fuel : nat) (totals : Z * Z) (gs : Groups) : M (Z * Z) :=
  match gs with
  | [] => ret totals
  | g :: r => totals' <- processGroup fuel totals g ;; forGroups fuel totals' r
  end.

Definition main (fuel : nat) : M unit :=
  files <- fetchGhlFiles ;;
  if Nat.eqb (length files) 0 then console InfoNoFiles
  else
    let mediaByCode := groupFiles files in
    if Nat.eqb (length mediaByCode) 0 then console InfoNoMatch
    else
      totals <- forGroups fuel (0, 0) mediaByCode ;;
      console Rule ;;
      console (Summary (fst totals) (snd totals)) ;;
      console DoneLine.

(** The whole script: [(async () => { ... })().catch(...)].  The result is
    the exit status, [None] when the budget of loop iterations ran out. *)
Definition run (fuel : nat) : option Z * State :=
  match main fuel initial with
  | (Return _, s) => (Some 0, s)
  | (Throw e, s) =>
      (Some 1, {| sent := sent s; trace := trace s ++ [Console (SyncFailed e)] |})
  | (OutOfFuel, s) => (None, s)
  end.

End Sync.

(** ** GHL fetcher, on the parsed body as it comes *)

(** [fetchGhlFiles] once more, now on the value that [res.json()] yields
    with nothing assumed about it: the body is any parsed value, an
    element of the list is any parsed value, and so is every field of an
    element.  On elements that are [null] or objects whose fields are
    strings it is the listing above ([fetchGhlFiles_typed]). *)
Module Raw.

(** What the read of a property yields: [undefined], a parsed value, or
    the built-in method [String.prototype.link]. *)
Inductive Read :=
| Undefined
| Parsed (j : JSON)
| StringLink.

(** The properties that the two callbacks read. *)
Inductive Key := K_url | K_link | K_path | K_name | K_mime | K_type.

Definition keyName (k : Key) : string :=
  match k with
  | K_url => "url"
  | K_link => "link"
  | K_path => "path"
  | K_name => "name"
  | K_mime => "mime"
  | K_type => "type"
  end.

(** [f.k] for an element [f] other than [null], the only elements the
    callbacks read from.  An object has the properties it was parsed with;
    of the six keys, booleans, numbers and arrays have none, and strings
    have [link], a method. *)
Definition read (f : JSON) (k : Key) : Read :=
  match f with
  | JObj fs =>
      match Json.lookupField (keyName k) fs with
      | Some v => Parsed v
      | None => Undefined
      end
  | JStr _ => match k with K_link => StringLink | _ => Undefined end
  | _ => Undefined
  end.

Definition truthy (r : Read) : bool :=
  match r with
  | Undefined => false
  | Parsed j => Json.truthy (Some j)
  | StringLink => true
  end.

(** [a || b]. *)
Definition orElse (a b : Read) : Read := if truthy a then a else b.

(** [f.url || f.link || f.path]. *)
Definition locationOf (f : JSON) : Read :=
  orElse (orElse (read f K_url) (read f K_link)) (read f K_path).

(** The [filter] callback: [f && (f.url || f.link || f.path)]. *)
Definition hasLocation (f : JSON) : bool :=
  Json.truthy (Some f) && truthy (locationOf f).

(** What [fetchGhlFiles] returns for one element: [{ url, name, mime }]. *)
Record File := {
  r_url : Read;
  r_name : Read;
  r_mime : Read
}.

(** [Array.isArray(json) ? json : Array.isArray(json.files) ? json.files
    : null]; reading [.files] of [null] raises. *)
Definition listOf (body : JSON) : Error + option (list JSON) :=
  match body with
  | JArr l => inr (Some l)
  | JNull => inl TypeError
  | JObj fs =>
      match Json.lookupField "files" fs with
      | Some (JArr l) => inr (Some l)
      | _ => inr None
      end
  | _ => inr None
  end.

Section Listing.

Variable host : Host.

(** [new URL(v).pathname] for a value [v] that is not a string, which the
    constructor converts to a string first; [None] when it throws. *)
Variable urlPathnameOf : Read -> option string.

(** [filenameFromUrl(url)].  In the [catch] branch, [(url || '')] is [url]
    itself when [url] is truthy, and only a string has [split]. *)
Definition filenameFromUrl (url : Read) : Error + string :=
  match url with
  | Parsed (JStr u) => inr (filenameFromUrl host (Some u))
  | Undefined => inr (filenameFromUrl host None)
  | _ =>
      let caught : Error + string :=
        if truthy url then inl TypeError else inr (Js.lastSegment "") in
      match urlPathnameOf url with
      | Some p =>
          match decodeURIComponent host (Js.lastSegment p) with
          | Some d => inr d
          | None => caught
          end
      | None => caught
      end
  end.

(** The [map] callback. *)
Definition normalize (f : JSON) : Error + File :=
  let url := locationOf f in
  let mime := orElse (orElse (read f K_mime) (read f K_type)) (Parsed (JStr "")) in
  if truthy (read f K_name) then
    inr {| r_url := url; r_name := read f K_name; r_mime := mime |}
  else
    match filenameFromUrl url with
    | inl e => inl e
    | inr n => inr {| r_url := url; r_name := Parsed (JStr n); r_mime := mime |}
    end.

(** [.map(...)]: the first element that raises ends it. *)
Fixpoint mapNormalize (l : list JSON) : Error + list File :=
  match l with
  | [] => inr []
  | f :: r =>
      match normalize f with
      | inl e => inl e
      | inr x =>
          match mapNormalize r with
          | inl e => inl e
          | inr xs => inr (x :: xs)
          end
      end
  end.

(** [list.filter(...).map(...)]. *)
Definition keepLocated (l : list JSON) : Error + list File :=
  mapNormalize (List.filter hasLocation l).

(** [answer] is what the single [fetch] yields; [None]: it rejects. *)
Definition fetchGhlFiles (answer : option Response) : M (list File) :=
  emit GhlGet ;;
  match answer with
  | None => throw FetchError
  | Some res =>
      if negb (ok res) then throw (GhlFetchHttpError (status res) (text res))
      else
        match json res with
        | None => throw SyntaxError
        | Some body =>
            match listOf body with
            | inl e => throw e
            | inr None => throw GhlShapeError
            | inr (Some l) => lift (keepLocated l)
            end
        end
  end.

End Listing.

(** *** Reference definitions for the statements *)


(** An element that has a truthy [name], or whose location is a string. *)
Definition nameable (f : JSON) : Prop :=
  truthy (read f K_name) = true \/ exists u, locationOf f = Parsed (JStr u).


(** *** The typed elements among the parsed values *)

Definition readOpt (o : option string) : Read :=
  match o with
  | Some s => Parsed (JStr s)
  | None => Undefined
  end.

Definition field (k : Key) (o : option string) : list (string * JSON) :=
  match o with
  | Some s => [(keyName k, JStr s)]
  | None => []
  end.

Definition elementOf (e : option FileObj) : JSON :=
  match e with
  | None => JNull
  | Some f =>
      JObj (field K_url (f_url f) ++ field K_link (f_link f) ++ field K_path (f_path f) ++
            field K_name (f_name f) ++ field K_mime (f_mime f) ++ field K_type (f_type f))
  end.

Definition fileOf (f : FileObj) : File :=
  {| r_url := readOpt (f_url f); r_name := readOpt (f_name f); r_mime := readOpt (f_mime f) |}.

(** A body of each shape; an empty object stands for the bodies that are
    neither a list nor [null]. *)
Definition bodyOf (b : GhlBody) : JSON :=
  match b with
  | GhlArray l => JArr (map elementOf l)
  | GhlFiles l => JObj [("files", JArr (map elementOf l))]
  | GhlOther => JObj []
  | GhlNull => JNull
  end.

Definition answerOf (r : GhlResponse) : Response :=
  {| status := g_status r; text := g_text r; json := option_map bodyOf (g_json r) |}.

Definition filesOf (out : Outcome (list FileObj)) : Outcome (list File) :=
  match out with
  | Return files => Return (map fileOf files)
  | Throw e => Throw e
  | OutOfFuel => OutOfFuel
  end.

(** *** Sample answers *)

(** A 200 answer of the Asset Source with the given body. *)
Definition answer (body : JSON) : Response :=
  {| status := 200; text := ""; json := Some body |}.




End Raw.

(** ** The default configuration *)

Definition isDigit (c : ascii) : bool := Js.between 48 57 (Js.code c).

Fixpoint leadingDigits (l : list ascii) : list ascii :=
  match l with
  | c :: r => if isDigit c then c :: leadingDigits r else []
  | [] => []
  end.

(** [extractCode] for the default pattern [/^CS\d+/i]: the match is the
    letters C and S in either case and every digit that follows; in upper
    case that is "CS" and the digits. *)
Definition extractCodeDefault (s : string) : option string :=
  match Js.chars s with
  | c1 :: c2 :: r =>
      if Ascii.eqb (Js.lowerChar c1) "c" && Ascii.eqb (Js.lowerChar c2) "s" then
        match leadingDigits r with
        | [] => None
        | ds => Some (Js.str ("C"%char :: "S"%char :: ds))
        end
      else None
  | _ => None
  end.

(** Defaults: 3 attempts, batches of 8, no dry run, codes [CS<digits>], and
    the handle template [${codeLower}], under which the handle of such a
    code is the code in lower case. *)
Definition defaultConfig : Config := {|
  MAX_RETRIES := 3;
  MEDIA_BATCH_SIZE := 8;
  DRY_RUN := false;
  extractCode := extractCodeDefault;
  deriveHandleFromCode := Js.toLowerCase
|}.

Definition withBatchSize (b : Z) (c : Config) : Config := {|
  MAX_RETRIES := MAX_RETRIES c;
  MEDIA_BATCH_SIZE := b;
  DRY_RUN := DRY_RUN c;
  extractCode := extractCode c;
  deriveHandleFromCode := deriveHandleFromCode c
|}.

Definition withDryRun (c : Config) : Config := {|
  MAX_RETRIES := MAX_RETRIES c;
  MEDIA_BATCH_SIZE := MEDIA_BATCH_SIZE c;
  DRY_RUN := true;
  extractCode := extractCode c;
  deriveHandleFromCode := deriveHandleFromCode c
|}.

(** ** What a trace shows *)

(** The calls of [gql]: each call issues exactly one POST with
    [attempt = 1]; its retries carry a higher attempt number. *)
Definition callOf (e : Event) : list Query :=
  match e with
  | GqlPost q a => if a =? 1 then [q] else []
  | _ => []
  end.

Definition calls (t : list Event) : list Query := flat_map callOf t.

(** The batches of the attach calls, in the order of the calls. *)
Definition batchOf (q : Query) : list (list MediaInput) :=
  match q with
  | ProductCreateMedia _ media => [media]
  | _ => []
  end.

Definition attachCalls (t : list Event) : list (list MediaInput) :=
  flat_map batchOf (calls t).

(** Every batch that went over the wire in a create-media mutation, retries
    included. *)
Definition sentOf (e : Event) : list (list MediaInput) :=
  match e with
  | GqlPost q _ => batchOf q
  | _ => []
  end.

Definition sentBatches (t : list Event) : list (list MediaInput) :=
  flat_map sentOf t.

Definition delayOf (e : Event) : list Z :=
  match e with Sleep ms => [ms] | _ => [] end.

(** The delays, in order. *)
Definition delays (t : list Event) : list Z := flat_map delayOf t.

Definition postOf (e : Event) : list (Query * Z) :=
  match e with GqlPost q a => [(q, a)] | _ => [] end.

(** The POSTs to the Catalog Service, each with its attempt number. *)
Definition posts (t : list Event) : list (Query * Z) := flat_map postOf t.

(** The GETs to the Asset Source. *)
Definition ghlGets (t : list Event) : nat :=
  length (List.filter (fun e => match e with GhlGet => true | _ => false end) t).

(** The [attached] figure of every summary line. *)
Definition summaryOf (e : Event) : list (Z * Z) :=
  match e with Console (Summary a k) => [(a, k)] | _ => [] end.

Definition summaries (t : list Event) : list (Z * Z) := flat_map summaryOf t.

(** ** Reference functions for the statements *)

(** Cutting a list into consecutive pieces of [b] elements; [n] bounds the
    number of pieces. *)
Fixpoint chunksFrom {A} (n b : nat) (l : list A) : list (list A) :=
  match n with
  | O => []
  | S n' =>
      match l with
      | [] => []
      | _ :: _ => firstn b l :: chunksFrom n' b (skipn b l)
      end
  end.

Definition chunks {A} (b : nat) (l : list A) : list (list A) :=
  chunksFrom (length l) b l.

(** Ceiling of the quotient of two positive integers. *)
Definition ceilDiv (m b : Z) : Z := (m + b - 1) / b.

(** The elements of an Asset Source answer that name a location. *)
Definition located (l : list (option FileObj)) : list FileObj :=
  flat_map (fun e => match e with
                     | Some f => if Js.truthyStr (Js.orElse (Js.orElse (f_url f) (f_link f)) (f_path f))
                                 then [f] else []
                     | None => []
                     end) l.

(** The first and the last [n] characters of a string. *)
Definition firstChars (n : nat) (s : string) : string := substring 0 n s.
Definition lastChars (n : nat) (s : string) : string :=
  substring (String.length s - n) n s.

(** The declared type and the name that [guessMediaType] reads off a file
    object. *)
Definition declaredMime (f : FileObj) : string :=
  Js.toLowerCase (Js.orStr (Js.orElse (f_mime f) (f_type f)) "").
Definition nameOf (host : Host) (f : FileObj) : string :=
  Js.orStr (f_name f) (filenameFromUrl host (f_url f)).

(** The attempt numbers [a, a+1, ..., a+n-1]. *)
Definition attemptsFrom (a : Z) (n : nat) : list Z :=
  map (fun k => a + Z.of_nat k) (seq 0 n).

(** The delay the script waits before retry [n] (that is, after attempt [n]
    failed): [BASE_DELAY * 2^(n-1)]. *)
Definition backoff (n : Z) : Z := BASE_DELAY * 2 ^ (n - 1).

(** A failure that [gql] retries: a status outside 200..299 that is one of
    429, 500, 502, 503, 504. *)
Definition transientFailure (r : Response) : bool :=
  negb (ok r) && includes RETRYABLE (status r).

(** A 2xx answer whose body parses, carries no [errors] and has [data = d]. *)
Definition succeedsWith (r : Response) (d : Value) : Prop :=
  ok r = true /\
  exists j e, json r = Some j /\
              Json.getProp (Some j) "errors" = inr e /\ Json.truthy e = false /\
              Json.getProp (Some j) "data" = inr d.

(** The number of attempts [gql] makes when every attempt fails with a
    retryable status: [MAX_RETRIES], and one when that is below 1. *)
Definition attemptsAllowed (cfg : Config) : nat := S (Z.to_nat (MAX_RETRIES cfg - 1)).

(** A computation extends the trace with events that satisfy [P] and, when
    it returns, returns a value that satisfies [Q]. *)
Definition emits {A} (m : M A) (P : Event -> Prop) (Q : A -> Prop) : Prop :=
  forall s out s',
    m s = (out, s') ->
    exists evs, trace s' = (trace s ++ evs)%list /\ Forall P evs /\
                forall a, out = Return a -> Q a.

(** What a retry adds around the POSTs: a warning and a delay. *)
Definition isRetryNoise (e : Event) : bool :=
  match e with
  | Sleep _ => true
  | Console (WarnHttpRetry _ _ _) => true
  | Console (WarnErrorsRetry _ _) => true
  | _ => false
  end.

(** A computation that never runs out of fuel: it returns or raises. *)
Definition total {A} (m : M A) : Prop := forall s, fst (m s) <> OutOfFuel.

(** An event that is no create-media mutation and no summary of a non-zero
    attached total. *)
Definition attachesNothing (e : Event) : Prop :=
  sentOf e = [] /\ forall a k, In (a, k) (summaryOf e) -> a = 0.

(** A Catalog Operation call raises while the group [g] is processed from
    state [s]: the product lookup, the listing of the existing media, or an
    attach call of the batch loop. *)
Definition catalogCallFails (cfg : Config) (world : World) (fuel : nat)
           (attachedTotal : Z) (g : string * list MediaInput)
           (s : State) (e : Error) (s' : State) : Prop :=
  let code := fst g in
  let handle := deriveHandleFromCode cfg code in
  findProductIdByHandleOrSku cfg world handle code s = (Throw e, s') \/
  (exists productId s1,
     findProductIdByHandleOrSku cfg world handle code s = (Return productId, s1) /\
     Json.truthy productId = true /\
     getExistingMediaAlts cfg world productId s1 = (Throw e, s')) \/
  (exists productId s1 S s2,
     findProductIdByHandleOrSku cfg world handle code s = (Return productId, s1) /\
     Json.truthy productId = true /\
     getExistingMediaAlts cfg world productId s1 = (Return S, s2) /\
     toAttachOf S (snd g) <> [] /\
     DRY_RUN cfg = false /\
     attachLoop cfg world fuel productId (label handle code) (toAttachOf S (snd g))
                0 attachedTotal s2 = (Throw e, s')).

(** The events whose create-media batches hold nothing but media of
    [allMedias] whose trimmed alt is not in [S]. *)
Definition sendsOnlyNew (S : gset string) (allMedias : list MediaInput) (e : Event) : Prop :=
  List.Forall (List.Forall (fun m => In m allMedias /\ Js.trim (alt m) ∉ S)) (sentOf e).

(** ** Sample inputs *)

(** A file declared as a video whose name ends in [.jpg]. *)
Definition videoNamedJpg : FileObj := {|
  f_url := Some "https://cdn.example/CS7_clip.jpg";
  f_link := None; f_path := None;
  f_name := Some "CS7_clip.jpg";
  f_mime := Some "video/mp4";
  f_type := None
|}.

(** A file declared as an image whose name ends in [.mp4]. *)
Definition imageNamedMp4 : FileObj := {|
  f_url := Some "https://cdn.example/CS7_poster.mp4";
  f_link := None; f_path := None;
  f_name := Some "CS7_poster.mp4";
  f_mime := Some "image/png";
  f_type := None
|}.

(** A host without URL support: the fallback branch of [filenameFromUrl]. *)
Definition plainHost : Host := {|
  urlPathname := fun _ => None;
  decodeURIComponent := fun s => Some s
|}.

(** A 200 answer of the Catalog Service with the given [data]. *)
Definition answerData (d : JSON) : FetchResult :=
  Answered {| status := 200; text := ""; json := Some (JObj [("data", d)]) |}.

(** An answer with a failure status. *)
Definition answerStatus (st : Z) : FetchResult :=
  Answered {| status := st; text := "unavailable"; json := None |}.

Definition productFound (id : string) : FetchResult :=
  answerData (JObj [("product", JObj [("id", JStr id)])]).

Definition edgeWithAlt (a : JSON) : JSON := JObj [("node", JObj [("alt", a)])].

Definition mediaListed (alts : list JSON) : FetchResult :=
  answerData (JObj [("product", JObj [("media", JObj [("edges", JArr (map edgeWithAlt alts))])])]).

Definition mediaCreated : FetchResult :=
  answerData (JObj [("productCreateMedia", JObj [("mediaUserErrors", JArr [])])]).

(** The Catalog Service answering from a list, and rejecting afterwards. *)
Definition scripted (l : list FetchResult) (n : nat) : FetchResult :=
  nth n l Rejected.

Definition ghlOk (b : GhlBody) : option GhlResponse :=
  Some {| g_status := 200; g_text := ""; g_json := Some b |}.

Definition fileAt (name : string) : FileObj := {|
  f_url := Some ("https://cdn.example/" ++ name)%string;
  f_link := None; f_path := None;
  f_name := Some name; f_mime := None; f_type := None
|}.

(** An element with a name and no [url], [link] or [path]. *)
Definition fileNowhere (name : string) : FileObj := {|
  f_url := None; f_link := None; f_path := None;
  f_name := Some name; f_mime := None; f_type := None
|}.

(** The Asset Source answers 503. *)
Definition ghlDown : World := {|
  ghlAnswer := Some {| g_status := 503; g_text := "unavailable"; g_json := None |};
  shopifyAnswer := scripted []
|}.

(** The Asset Source lists one element without a location and one with. *)
Definition oneUnlocated : World := {|
  ghlAnswer := ghlOk (GhlArray [Some (fileNowhere "CS1_front.jpg");
                                Some (fileAt "CS1_back.jpg")]);
  shopifyAnswer := scripted [productFound "gid://shopify/Product/1";
                             mediaListed []; mediaCreated]
|}.

(** The Catalog Service answers 503 twice and then finds the product. *)
Definition twice503 : World := {|
  ghlAnswer := ghlOk (GhlArray []);
  shopifyAnswer := scripted [answerStatus 503; answerStatus 503;
                             productFound "gid://shopify/Product/1"]
|}.

(** The Catalog Service answers 503 to everything. *)
Definition always503 : World := {|
  ghlAnswer := ghlOk (GhlArray []);
  shopifyAnswer := fun _ => answerStatus 503
|}.

(** The group [CS1] with three media: one whose alt is already on the
    product, one new, and one whose alt is empty. *)
Definition mediaNamed (a : string) : MediaInput := {|
  alt := a; mediaContentType := IMAGE;
  originalSource := Some ("https://cdn.example/" ++ a)%string
|}.

Definition groupCS1 : string * list MediaInput :=
  ("CS1", [mediaNamed "CS1_back.jpg"; mediaNamed "CS1_front.jpg"; mediaNamed ""]).

Definition product1 : Value := Some (JStr "gid://shopify/Product/1").

(** The product is found by its handle; its media carry the alts
    [" CS1_back.jpg "], [null] and ["   "]; the mutations succeed. *)
Definition catalogWithBack : World := {|
  ghlAnswer := ghlOk (GhlArray []);
  shopifyAnswer := scripted [productFound "gid://shopify/Product/1";
                             mediaListed [JStr " CS1_back.jpg "; JNull; JStr "   "];
                             mediaCreated; mediaCreated]
|}.

(** The state after the product lookup, and after the media listing. *)
Definition afterLookup : State := {|
  sent := 1; trace := [GqlPost (ProductByHandle "cs1") 1]
|}.
Definition afterListing : State := {|
  sent := 2;
  trace := [GqlPost (ProductByHandle "cs1") 1; GqlPost (ProductMedia product1) 1]
|}.

(** The group [CS2] with five new media. *)
Definition groupCS2 : string * list MediaInput :=
  ("CS2", [mediaNamed "CS2_a.jpg"; mediaNamed "CS2_b.jpg"; mediaNamed "CS2_c.jpg";
           mediaNamed "CS2_d.jpg"; mediaNamed "CS2_e.jpg"]).

(** The product has no media yet; every mutation succeeds. *)
Definition emptyCatalog : World := {|
  ghlAnswer := ghlOk (GhlArray []);
  shopifyAnswer := fun n =>
    match n with
    | O => productFound "gid://shopify/Product/1"
    | S O => mediaListed []
    | _ => mediaCreated
    end
|}.

Definition afterLookup2 : State := {|
  sent := 1; trace := [GqlPost (ProductByHandle "cs2") 1]
|}.
Definition afterListing2 : State := {|
  sent := 2;
  trace := [GqlPost (ProductByHandle "cs2") 1; GqlPost (ProductMedia product1) 1]
|}.

(** The Asset Source lists two files of [CS1]; the product is found and
    already carries the second one. *)
Definition twoFilesOneKnown : World := {|
  ghlAnswer := ghlOk (GhlArray [Some (fileAt "CS1_front.jpg"); Some (fileAt "CS1_back.jpg")]);
  shopifyAnswer := scripted [productFound "gid://shopify/Product/1";
                             mediaListed [JStr "CS1_back.jpg"]]
|}.

(** Three groups; the lookup of the second product is answered 401. *)
Definition secondLookupDenied : World := {|
  ghlAnswer := ghlOk (GhlArray [Some (fileAt "CS1_front.jpg"); Some (fileAt "CS2_a.jpg");
                                Some (fileAt "CS3_a.jpg")]);
  shopifyAnswer := scripted [productFound "gid://shopify/Product/1"; mediaListed [];
                             mediaCreated;
                             answerStatus 401;
                             productFound "gid://shopify/Product/3"; mediaListed [];
                             mediaCreated]
|}.

Definition groupOf (code name : string) : string * list MediaInput :=
  (code, [mediaNamed name]).

(** ** Further reference definitions *)

(** A file object with its name and its declared types in lower case. *)
Definition lowerNames (f : FileObj) : FileObj := {|
  f_url := f_url f; f_link := f_link f; f_path := f_path f;
  f_name := option_map Js.toLowerCase (f_name f);
  f_mime := option_map Js.toLowerCase (f_mime f);
  f_type := option_map Js.toLowerCase (f_type f)
|}.

(** A file of the given name, declared type and URL. *)
Definition fileDeclared (name mime url : string) : FileObj := {|
  f_url := Some url; f_link := None; f_path := None;
  f_name := Some name; f_mime := Some mime; f_type := None
|}.

(** ** Env helpers: [resolveEnv] and the settings it resolves *)

(** What [resolveEnv] returns: [{ value, source }]. *)
Record Resolved := { value : string; source : string }.

(** [keys.join(sep)]. *)
Fixpoint join (sep : string) (l : list string) : string :=
  match l with
  | [] => ""
  | [k] => k
  | k :: r => (k ++ sep ++ join sep r)%string
  end.

(** The loop of [resolveEnv] over [process.env]: the first key whose value
    is set, not empty and not blank. *)
Fixpoint resolveFirst (env : gmap string string) (keys : list string) : option Resolved :=
  match keys with
  | [] => None
  | k :: r =>
      match env !! k with
      | Some v =>
          if negb (Js.isEmpty v) && negb (Js.isEmpty (Js.trim v))
          then Some {| value := Js.trim v; source := k |}
          else resolveFirst env r
      | None => resolveFirst env r
      end
  end.

(** [resolveEnv(keys, { required, name })]; [inl] is the message of the
    [Error] it throws. *)
Definition resolveEnv (env : gmap string string) (keys : list string)
           (required : bool) (name : string) : string + Resolved :=
  match resolveFirst env keys with
  | Some r => inr r
  | None =>
      if required
      then inl ("Missing required env " ++ name ++ ": set " ++ join " or " keys)%string
      else inr {| value := ""; source := "" |}
  end.

(** The four settings resolved at start-up, in the order of the script. *)
Record Settings := {
  SHOP : Resolved;
  TOKEN : Resolved;
  GHL_FILES_ENDPOINT : Resolved;
  GHL_API_KEY : Resolved
}.

Definition SHOP_KEYS : list string := ["SHOPIFY_STORE_DOMAIN"; "SHOPIFY_SHOP_DOMAIN"].
Definition TOKEN_KEYS : list string := ["SHOPIFY_ADMIN_TOKEN"; "SHOPIFY_ADMIN_API_TOKEN"].

Definition resolveSettings (env : gmap string string) : string + Settings :=
  match resolveEnv env SHOP_KEYS true "Shopify domain" with
  | inl msg => inl msg
  | inr shop =>
      match resolveEnv env TOKEN_KEYS true "Shopify admin token" with
      | inl msg => inl msg
      | inr token =>
          match resolveEnv env ["GHL_FILES_ENDPOINT"] true "GHL files endpoint" with
          | inl msg => inl msg
          | inr endpoint =>
              match resolveEnv env ["GHL_API_KEY"] false "value" with
              | inl msg => inl msg
              | inr key =>
                  inr {| SHOP := shop; TOKEN := token;
                         GHL_FILES_ENDPOINT := endpoint; GHL_API_KEY := key |}
              end
          end
      end
  end.

(** A key that is unset, empty or blank in the environment. *)
Definition blank (env : gmap string string) (k : string) : Prop :=
  forall v, env !! k = Some v -> Js.trim v = "".

(** One of the keys has a value that is not blank. *)
Definition provided (env : gmap string string) (keys : list string) : Prop :=
  exists k v, In k keys /\ env !! k = Some v /\ Js.trim v <> "".

(** An environment with both names of the domain, a padded token under its
    second name, and the endpoint. *)
Definition sampleEnv : gmap string string :=
  list_to_map [("SHOPIFY_STORE_DOMAIN", "   ");
               ("SHOPIFY_SHOP_DOMAIN", " canyonite.myshopify.com ");
               ("SHOPIFY_ADMIN_API_TOKEN", "shpat_12345");
               ("GHL_FILES_ENDPOINT", "https://ghl.example/files")].

(** A 2xx answer whose body parses and carries a truthy [errors]. *)
Definition reportsErrors (r : Response) (e : Value) : Prop :=
  ok r = true /\
  exists j, json r = Some j /\
            Json.getProp (Some j) "errors" = inr e /\ Json.truthy e = true.

(** The error [gql] raises when the answer [r] was its last attempt and [r]
    is a failure it would have retried. *)
Definition lastError (r : Response) (err : Error) : Prop :=
  (transientFailure r = true /\ err = GraphQLHttpError (status r) (text r)) \/
  (exists e, reportsErrors r e /\ err = GraphQLErrors e).

(** A failure [gql] retries: a transient HTTP status or an [errors] payload. *)
Definition retriedFailure (r : Response) : Prop := exists err, lastError r err.

(** A 200 answer with a GraphQL [errors] array. *)
Definition answerErrors (message : string) : FetchResult :=
  Answered {| status := 200; text := "";
              json := Some (JObj [("errors", JArr [JObj [("message", JStr message)]])]) |}.

(** Throttled by an [errors] payload, then a 502, then throttled again. *)
Definition throttled : World := {|
  ghlAnswer := ghlOk (GhlArray []);
  shopifyAnswer := scripted [answerErrors "Throttled"; answerStatus 502;
                             answerErrors "Throttled"]
|}.

(** The Catalog Service denies access. *)
Definition denied : World := {|
  ghlAnswer := ghlOk (GhlArray []);
  shopifyAnswer := fun _ => answerStatus 401
|}.

(** The create-media mutation is answered with one user error. *)
Definition mediaRejected : FetchResult :=
  answerData (JObj [("productCreateMedia",
                     JObj [("media", JArr []);
                           ("mediaUserErrors",
                            JArr [JObj [("code", JStr "INVALID");
                                        ("message", JStr "Invalid image URL")]])])]).

(** The product is found and has no media; the mutation is rejected with a
    user error, and would succeed if it were sent again. *)
Definition rejectingCatalog : World := {|
  ghlAnswer := ghlOk (GhlArray []);
  shopifyAnswer := scripted [productFound "gid://shopify/Product/1"; mediaListed [];
                             mediaRejected; mediaCreated]
|}.

(** The query the SKU lookup sends for a code. *)
Definition skuQuery (code : string) : Query := ProductsBySku ("sku:" ++ code)%string.

(** The handle lookup finds nothing; the SKU lookup finds the product. *)
Definition foundBySku : World := {|
  ghlAnswer := ghlOk (GhlArray []);
  shopifyAnswer := scripted
    [answerData (JObj [("product", JNull)]);
     answerData (JObj [("products",
                        JObj [("edges",
                               JArr [JObj [("node",
                                            JObj [("id", JStr "gid://shopify/Product/9");
                                                  ("title", JStr "Canyon")])]])])])]
|}.

(** The code and the media input that the grouping loop derives from one
    file, when the file carries a code. *)
Definition mediaOfFile (host : Host) (cfg : Config) (f : FileObj)
  : option (string * MediaInput) :=
  match extractCode cfg (Js.orStr (Js.orElse (f_name f) (f_url f)) "") with
  | None => None
  | Some code =>
      if Js.isEmpty code then None
      else Some (code,
                 {| alt := Js.trim (Js.orStr (f_name f) (filenameFromUrl host (f_url f)));
                    mediaContentType := guessMediaType host f;
                    originalSource := f_url f |})
  end.

(** The coded files, in source order. *)
Fixpoint coded (host : Host) (cfg : Config) (files : list FileObj)
  : list (string * MediaInput) :=
  match files with
  | [] => []
  | f :: r =>
      match mediaOfFile host cfg f with
      | Some p => p :: coded host cfg r
      | None => coded host cfg r
      end
  end.

(** The media that carry the code [c], in source order. *)
Definition mediaFor (c : string) (cm : list (string * MediaInput)) : list MediaInput :=
  map snd (List.filter (fun p => String.eqb (fst p) c) cm).

(** [mediaByCode.get(code)], and the empty list when the key is absent. *)
Fixpoint groupOfCode (c : string) (g : list (string * list MediaInput)) : list MediaInput :=
  match g with
  | [] => []
  | (c', ms) :: r => if String.eqb c' c then ms else groupOfCode c r
  end.

(** The number of media in all groups. *)
Definition mediaCount (g : list (string * list MediaInput)) : Z :=
  Z.of_nat (length (concat (map snd g))).

(** A well-formed normalised file: a non-empty [url], a [name], a [mime],
    and nothing else. *)
Definition normalised (f : FileObj) : Prop :=
  (exists u, f_url f = Some u /\ u <> "") /\
  (exists n, f_name f = Some n) /\
  (exists m, f_mime f = Some m) /\
  f_link f = None /\ f_path f = None /\ f_type f = None.

(** Files of three codes, interleaved, with one file that has no code. *)
Definition interleaved : list FileObj :=
  [fileAt "CS2_a.jpg"; fileAt "CS1_a.jpg"; fileAt "widget.png";
   fileAt "cs2_b.mp4"; fileAt "CS10_a.jpg"; fileAt "CS1_b.jpg"].

(** The Asset Source lists only files without a code. *)
Definition noCodes : World := {|
  ghlAnswer := ghlOk (GhlFiles [Some (fileAt "widget.png"); Some (fileAt "banner.jpg")]);
  shopifyAnswer := scripted []
|}.

(** Neither lookup finds a product for the first group; the second group's
    product is found and already has the file. *)
Definition firstProductMissing : World := {|
  ghlAnswer := ghlOk (GhlArray [Some (fileAt "CS1_a.jpg"); Some (fileAt "CS2_a.jpg")]);
  shopifyAnswer := scripted
    [answerData (JObj [("product", JNull)]);
     answerData (JObj [("products", JObj [("edges", JArr [])])]);
     productFound "gid://shopify/Product/2";
     mediaListed [JStr "CS2_a.jpg"]]
|}.

(** The state of the grouping loop after the coded files [cm]. *)
Definition groupsOf (cm : list (string * MediaInput)) (g : Groups) : Prop :=
  List.NoDup (map fst g) /\
  (forall c, groupOfCode c g = mediaFor c cm) /\
  (forall c, In c (map fst g) <-> mediaFor c cm <> []) /\
  mediaCount g = Z.of_nat (length cm).

(** The product of [CS1] is found and already carries both files. *)
Definition bothKnown : World := {|
  ghlAnswer := ghlOk (GhlArray [Some (fileAt "CS1_front.jpg"); Some (fileAt "CS1_back.jpg")]);
  shopifyAnswer := scripted [productFound "gid://shopify/Product/1";
                             mediaListed [JStr "CS1_back.jpg"; JStr "CS1_front.jpg "]]
|}.

Definition groupBoth : string * list MediaInput :=
  ("CS1", [mediaNamed "CS1_front.jpg"; mediaNamed "CS1_back.jpg"]).

(** ** The handle template *)

Module Template.

(** [GetSubstitution] for a string pattern, which has no captures: in the
    replacement text [$$] is a dollar sign, [$&] the matched text, [$`]
    what precedes the match and [$'] what follows it; any other character,
    a [$] before anything else included, stands for itself. *)
Fixpoint getSubstitution (matched pre post tpl : list ascii) : list ascii :=
  match tpl with
  | [] => []
  | c :: r =>
      if Ascii.eqb c "$" then
        match r with
        | d :: r' =>
            if Ascii.eqb d "$" then "$"%char :: getSubstitution matched pre post r'
            else if Ascii.eqb d "&" then matched ++ getSubstitution matched pre post r'
            else if Ascii.eqb d "`" then pre ++ getSubstitution matched pre post r'
            else if Ascii.eqb d "'" then post ++ getSubstitution matched pre post r'
            else c :: getSubstitution matched pre post r
        | [] => [c]
        end
      else c :: getSubstitution matched pre post r
  end.

Fixpoint startsWithL (p l : list ascii) : bool :=
  match p, l with
  | [], _ => true
  | a :: p', b :: l' => Ascii.eqb a b && startsWithL p' l'
  | _ :: _, [] => false
  end.

(** The scan of [replaceAll]: [pre] is the text already passed and [skip]
    counts the characters of the last match still to pass.  The matches
    are the occurrences found from left to right, each search starting
    where the previous match ended (one character further for the empty
    pattern, which also matches at the end). *)
Fixpoint replaceAllFrom (search repl : list ascii) (skip : nat) (pre l : list ascii)
  : list ascii :=
  match l with
  | [] =>
      match search, skip with
      | [], O => getSubstitution [] pre [] repl
      | _, _ => []
      end
  | c :: r =>
      match skip with
      | S k => replaceAllFrom search repl k (pre ++ [c]) r
      | O =>
          if startsWithL search l then
            getSubstitution search pre (skipn (length search) l) repl ++
            match search with
            | [] => c :: replaceAllFrom search repl O (pre ++ [c]) r
            | _ :: _ => replaceAllFrom search repl (length search - 1) (pre ++ [c]) r
            end
          else c :: replaceAllFrom search repl O (pre ++ [c]) r
      end
  end.

(** [s.replaceAll(search, repl)] for two strings. *)
Definition replaceAll (s search repl : string) : string :=
  Js.str (replaceAllFrom (Js.chars search) (Js.chars repl) 0 [] (Js.chars s)).

(** [process.env.PRODUCT_HANDLE_TEMPLATE || '${codeLower}']. *)
Definition HANDLE_TEMPLATE (env : gmap string string) : string :=
  Js.orStr (env !! "PRODUCT_HANDLE_TEMPLATE") "${codeLower}".

(** [code.replace(/\D+/g, '')]: the decimal digits of the code. *)
Definition codeNum (code : string) : string :=
  Js.str (List.filter isDigit (Js.chars code)).

(** [deriveHandleFromCode] for a given template.  [toUpperCase] is a
    parameter: the upper case of a Latin-1 string need not be one. *)
Definition deriveHandleFromCode (toUpperCase : string -> string) (template code : string)
  : string :=
  let codeLower := Js.toLowerCase code in
  let codeUpper := toUpperCase code in
  replaceAll
    (replaceAll (replaceAll template "${codeLower}" codeLower) "${codeUpper}" codeUpper)
    "${codeNum}" (codeNum code).

End Template.

(** A string without a dollar sign. *)
Definition dollarFree (s : string) : bool :=
  forallb (fun c => negb (Ascii.eqb c "$")) (Js.chars s).

(** The same for a list of characters, as a proposition. *)
Definition plainL (l : list ascii) : Prop := List.Forall (fun c => c <> "$"%char) l.

(** What follows the digits of a code does not start with a digit. *)
Definition digitAhead (l : list ascii) : bool :=
  match l with c :: _ => isDigit c | [] => false end.

(** [toUpperCase] on the strings of the examples, which are in upper case
    already. *)
Definition sameCase (s : string) : string := s.

(** * Properties *)

(** ** Strings and slices *)

Lemma chars_length (s : string) : length (Js.chars s) = String.length s.
Proof.
  unfold Js.chars. induction s as [|c s IH]; simpl; [reflexivity|].
  now rewrite IH.
Qed.

Lemma substring_firstn_skipn (s : string) :
  forall n m, substring n m s = Js.str (firstn m (skipn n (Js.chars s))).
Proof.
  unfold Js.str, Js.chars.
  induction s as [|c s IH]; intros n m.
  - destruct n, m; reflexivity.
  - destruct n as [|n].
    + destruct m as [|m]; simpl; [reflexivity|].
      rewrite IH. reflexivity.
    + simpl. apply IH.
Qed.

Lemma slice_head {A} (l : list A) (n : Z) :
  0 <= n <= Z.of_nat (length l) -> Js.slice l 0 n = firstn (Z.to_nat n) l.
Proof.
  intros Hn. unfold Js.slice, Js.relIndex.
  destruct (Z.ltb_spec 0 0) as [?|_]; [lia|].
  destruct (Z.ltb_spec n 0) as [?|_]; [lia|].
  rewrite Z.min_l by lia. rewrite Z.min_l by lia.
  simpl. now rewrite Z.sub_0_r.
Qed.

Lemma slice_tail {A} (l : list A) (n : Z) :
  0 < n <= Z.of_nat (length l) ->
  Js.slice l (- n) (Z.of_nat (length l)) = firstn (Z.to_nat n) (skipn (length l - Z.to_nat n) l).
Proof.
  intros Hn. unfold Js.slice, Js.relIndex.
  destruct (Z.ltb_spec (- n) 0) as [_|?]; [|lia].
  destruct (Z.ltb_spec (Z.of_nat (length l)) 0) as [?|_]; [lia|].
  rewrite Z.max_l by lia. rewrite Z.min_l by lia.
  f_equal; [f_equal; lia|]. f_equal. lia.
Qed.

Lemma orStr_some (a : string) : Js.orStr (Some a) "" = a.
Proof. destruct a; reflexivity. Qed.

(** ** The masking function *)

(** C9, as amended: a secret longer than 6 characters is shown as its first
    3 characters, the separator [***] and its last 3 characters; a non-empty
    secret of at most 6 characters is shown as [***]; the empty secret is
    shown as [(empty)]. *)
Theorem mask_cases (s : string) :
  (6 < Js.strlen s ->
   mask s = (firstChars 3 s ++ "***" ++ lastChars 3 s)%string) /\
  (s <> "" -> Js.strlen s <= 6 -> mask s = "***") /\
  (s = "" -> mask s = "(empty)").
Proof.
  unfold mask, Js.strlen. repeat split.
  - intros Hlen. destruct s as [|c s]; [simpl in Hlen; lia|].
    cbn [Js.isEmpty].
    destruct (Z.leb_spec (Z.of_nat (String.length (String c s))) 6) as [?|_]; [lia|].
    unfold Js.sliceFrom, Js.sliceStr, Js.strlen, firstChars, lastChars.
    rewrite !substring_firstn_skipn.
    rewrite <- (chars_length (String c s)) in *.
    rewrite slice_head by lia. rewrite (slice_tail _ 3) by lia.
    reflexivity.
  - intros Hne Hlen. destruct s as [|c s]; [congruence|].
    cbn [Js.isEmpty].
    destruct (Z.leb_spec (Z.of_nat (String.length (String c s))) 6) as [_|?]; [reflexivity|lia].
  - intros ->. reflexivity.
Qed.

Lemma mask_cases_witness :
  mask "shpat_12345" = "shp***345" /\ mask "secret" = "***" /\ mask "" = "(empty)".
Proof.
  destruct (mask_cases "shpat_12345") as [H1 _].
  destruct (mask_cases "secret") as [_ [H2 _]].
  destruct (mask_cases "") as [_ [_ H3]].
  split; [|split].
  - apply H1. vm_compute. reflexivity.
  - apply H2; [discriminate | vm_compute; discriminate].
  - apply H3. reflexivity.
Defined.

(** C9 as stated fails: the secrets of length at most 6 do not all get the
    same placeholder, the empty one gets its own. *)
Lemma mask_two_placeholders :
  Js.strlen "" <= 6 /\ Js.strlen "abc" <= 6 /\
  mask "" = "(empty)" /\ mask "abc" = "***" /\ mask "" <> mask "abc".
Proof. repeat split; try (vm_compute; discriminate). Qed.

(** ** Media classification *)

Section ClassifyFacts.

Variable host : Host.

Lemma image_video_exclusive (m : string) :
  Js.startsWith m "image/" = true -> Js.startsWith m "video/" = false.
Proof.
  unfold Js.startsWith. intros H.
  destruct m as [|c m]; [discriminate|].
  destruct c as [[] [] [] [] [] [] [] []]; try discriminate H; reflexivity.
Qed.

(** C2, as amended: [guessMediaType] is total with values in the three
    media kinds; a declared type that starts with [image/] (in any case)
    gives IMAGE whatever the filename; a declared type that starts with
    [video/] gives VIDEO unless the filename carries an image extension,
    and then it gives IMAGE. *)
Theorem guessMediaType_mime_prefix (f : FileObj) :
  (guessMediaType host f = IMAGE \/ guessMediaType host f = VIDEO \/
   guessMediaType host f = EXTERNAL_VIDEO) /\
  (Js.startsWith (declaredMime f) "image/" = true ->
   guessMediaType host f = IMAGE) /\
  (Js.startsWith (declaredMime f) "video/" = true ->
   guessMediaType host f =
     if has IMAGE_EXT (extOf (nameOf host f)) then IMAGE else VIDEO).
Proof.
  unfold guessMediaType, declaredMime, nameOf.
  set (mime := Js.toLowerCase _). set (ext := extOf _).
  split; [|split].
  - destruct (guessMediaType host f) eqn:E; auto.
  - intros ->. reflexivity.
  - intros Hv.
    destruct (Js.startsWith mime "image/") eqn:Hi.
    + apply image_video_exclusive in Hi. congruence.
    + rewrite Hv. simpl. destruct (has IMAGE_EXT ext); reflexivity.
Qed.

End ClassifyFacts.

Lemma guessMediaType_mime_prefix_witness :
  guessMediaType plainHost imageNamedMp4 = IMAGE /\
  guessMediaType plainHost videoNamedJpg = IMAGE.
Proof.
  split.
  - apply (guessMediaType_mime_prefix plainHost imageNamedMp4). reflexivity.
  - apply (proj2 (proj2 (guessMediaType_mime_prefix plainHost videoNamedJpg))).
    reflexivity.
Defined.

(** C2 as stated fails: a [video/] type does not win over a [.jpg] name. *)
Lemma video_mime_loses_to_image_ext :
  Js.startsWith (declaredMime videoNamedJpg) "video/" = true /\
  has IMAGE_EXT (extOf (nameOf plainHost videoNamedJpg)) = true /\
  guessMediaType plainHost videoNamedJpg = IMAGE /\
  guessMediaType plainHost videoNamedJpg <> VIDEO.
Proof. repeat split; try reflexivity; discriminate. Qed.

(** ** Running computations *)

Lemma bind_return {A B} (m : M A) (k : A -> M B) s a s1 :
  m s = (Return a, s1) -> bind m k s = k a s1.
Proof. unfold bind. now intros ->. Qed.

Lemma bind_throw {A B} (m : M A) (k : A -> M B) s e s1 :
  m s = (Throw e, s1) -> bind m k s = (Throw e, s1).
Proof. unfold bind. now intros ->. Qed.

Lemma bind_outOfFuel {A B} (m : M A) (k : A -> M B) s s1 :
  m s = (OutOfFuel, s1) -> bind m k s = (OutOfFuel, s1).
Proof. unfold bind. now intros ->. Qed.

(** How a sequence can end: its first part returned and its second part
    decided, or its first part did not return. *)
Lemma bind_inv {A B} (m : M A) (k : A -> M B) s out s' :
  bind m k s = (out, s') ->
  (exists a s1, m s = (Return a, s1) /\ k a s1 = (out, s')) \/
  (exists e, m s = (Throw e, s') /\ out = Throw e) \/
  (m s = (OutOfFuel, s') /\ out = OutOfFuel).
Proof.
  unfold bind. destruct (m s) as [[a|e|] s1]; intros H.
  - left. eauto.
  - right. left. inversion H; subst. eauto.
  - right. right. inversion H; subst. eauto.
Qed.

Lemma bind_assoc {A B C} (m : M A) (k : A -> M B) (h : B -> M C) s :
  bind (bind m k) h s = bind m (fun a => bind (k a) h) s.
Proof. unfold bind. destruct (m s) as [[a|e|] s1]; reflexivity. Qed.

Lemma bind_ext {A B} (m : M A) (k k' : A -> M B) s :
  (forall a s1, k a s1 = k' a s1) -> bind m k s = bind m k' s.
Proof.
  intros Hk. unfold bind. destruct (m s) as [[a|e|] s1]; [apply Hk|reflexivity|reflexivity].
Qed.

(** ** The Asset Source listing *)

Lemma keepLocated_located host (l : list (option FileObj)) :
  keepLocated host l = map (normalize host) (located l).
Proof.
  induction l as [|[f|] l IH]; simpl; [reflexivity| |exact IH].
  destruct (Js.truthyStr _); simpl; now rewrite IH.
Qed.

(** *** The listing on the parsed body *)

Section RawListing.

Variable host : Host.
Variable urlPathnameOf : Raw.Read -> option string.

Lemma raw_filenameFromUrl_error url e :
  Raw.filenameFromUrl host urlPathnameOf url = inl e ->
  e = TypeError /\ Raw.truthy url = true /\ forall u, url <> Raw.Parsed (JStr u).
Proof.
  unfold Raw.filenameFromUrl.
  destruct url as [|j|]; [discriminate| |].
  - destruct j; try discriminate;
      (destruct (urlPathnameOf _) as [p|];
       [destruct (decodeURIComponent host _); [discriminate|]|]);
      match goal with
      | |- context [if ?b then _ else _] => destruct b eqn:Et
      end; try discriminate;
      (intros H; inversion H; split; [reflexivity|]; split; [reflexivity|]; discriminate).
  - destruct (urlPathnameOf _) as [p|];
      [destruct (decodeURIComponent host _); [discriminate|]|];
      cbn; (intros H; inversion H; split; [reflexivity|]; split; [reflexivity|]; discriminate).
Qed.


Lemma raw_normalize_error f e :
  Raw.normalize host urlPathnameOf f = inl e -> e = TypeError /\ ~ Raw.nameable f.
Proof.
  unfold Raw.normalize, Raw.nameable.
  destruct (Raw.truthy (Raw.read f Raw.K_name)) eqn:En; [discriminate|].
  destruct (Raw.filenameFromUrl _ _ _) as [e'|n] eqn:Ef; [|discriminate].
  intros H. inversion H; subst e'.
  destruct (raw_filenameFromUrl_error _ _ Ef) as (-> & _ & Hu).
  split; [reflexivity|]. intros [Hn | [u Hl]]; [discriminate|]. exact (Hu u Hl).
Qed.

Lemma raw_normalize_nameable f :
  Raw.nameable f -> exists x, Raw.normalize host urlPathnameOf f = inr x.
Proof.
  intros Hf. destruct (Raw.normalize host urlPathnameOf f) as [e|x] eqn:E; [|eauto].
  now destruct (raw_normalize_error _ _ E).
Qed.








End RawListing.



(** The typed listing is this one on typed elements. *)
Lemma raw_read_elementOf (f : FileObj) :
  Raw.read (Raw.elementOf (Some f)) Raw.K_url = Raw.readOpt (f_url f) /\
  Raw.read (Raw.elementOf (Some f)) Raw.K_link = Raw.readOpt (f_link f) /\
  Raw.read (Raw.elementOf (Some f)) Raw.K_path = Raw.readOpt (f_path f) /\
  Raw.read (Raw.elementOf (Some f)) Raw.K_name = Raw.readOpt (f_name f) /\
  Raw.read (Raw.elementOf (Some f)) Raw.K_mime = Raw.readOpt (f_mime f) /\
  Raw.read (Raw.elementOf (Some f)) Raw.K_type = Raw.readOpt (f_type f).
Proof.
  destruct f as [[u|] [l|] [p|] [n|] [m|] [t|]]; cbn; repeat split; reflexivity.
Qed.

Lemma raw_truthy_readOpt (o : option string) :
  Raw.truthy (Raw.readOpt o) = Js.truthyStr o.
Proof. destruct o; reflexivity. Qed.

Lemma raw_orElse_readOpt (a b : option string) :
  Raw.orElse (Raw.readOpt a) (Raw.readOpt b) = Raw.readOpt (Js.orElse a b).
Proof.
  unfold Raw.orElse, Js.orElse. rewrite raw_truthy_readOpt. now destruct (Js.truthyStr a).
Qed.

Lemma raw_orStr_readOpt (a : option string) (b : string) :
  Raw.orElse (Raw.readOpt a) (Raw.Parsed (JStr b)) = Raw.Parsed (JStr (Js.orStr a b)).
Proof. destruct a as [[|c a]|]; reflexivity. Qed.

Lemma raw_locationOf_elementOf (f : FileObj) :
  Raw.locationOf (Raw.elementOf (Some f)) =
  Raw.readOpt (Js.orElse (Js.orElse (f_url f) (f_link f)) (f_path f)).
Proof.
  unfold Raw.locationOf.
  destruct (raw_read_elementOf f) as (-> & -> & -> & _).
  now rewrite !raw_orElse_readOpt.
Qed.

Lemma raw_hasLocation_elementOf (e : option FileObj) :
  Raw.hasLocation (Raw.elementOf e) = hasLocation e.
Proof.
  destruct e as [f|]; [|reflexivity]. unfold Raw.hasLocation, hasLocation.
  rewrite raw_locationOf_elementOf, raw_truthy_readOpt. reflexivity.
Qed.

Lemma raw_normalize_elementOf host urlPathnameOf (f : FileObj) :
  Raw.normalize host urlPathnameOf (Raw.elementOf (Some f)) =
  inr (Raw.fileOf (normalize host f)).
Proof.
  unfold Raw.normalize, normalize, Raw.fileOf. cbn [f_url f_name f_mime].
  rewrite raw_locationOf_elementOf.
  destruct (raw_read_elementOf f) as (_ & _ & _ & -> & -> & ->).
  rewrite raw_orElse_readOpt, raw_orStr_readOpt, raw_truthy_readOpt.
  set (url := Js.orElse (Js.orElse (f_url f) (f_link f)) (f_path f)).
  assert (Hf : Raw.filenameFromUrl host urlPathnameOf (Raw.readOpt url)
               = inr (filenameFromUrl host url)) by now destruct url.
  rewrite Hf. destruct (f_name f) as [[|c n]|]; reflexivity.
Qed.

Lemma raw_keepLocated_typed host urlPathnameOf (l : list (option FileObj)) :
  Raw.keepLocated host urlPathnameOf (map Raw.elementOf l) =
  inr (map Raw.fileOf (keepLocated host l)).
Proof.
  unfold Raw.keepLocated. induction l as [|e l IH]; [reflexivity|].
  cbn [map List.filter]. rewrite raw_hasLocation_elementOf.
  destruct e as [f|]; cbn [keepLocated]; [|exact IH].
  destruct (hasLocation (Some f)); [|exact IH].
  cbn [Raw.mapNormalize map]. now rewrite raw_normalize_elementOf, IH.
Qed.

Lemma fetchGhlFiles_typed host urlPathnameOf world s :
  Raw.fetchGhlFiles host urlPathnameOf (option_map Raw.answerOf (ghlAnswer world)) s =
  (Raw.filesOf (fst (fetchGhlFiles host world s)), snd (fetchGhlFiles host world s)).
Proof.
  unfold Raw.fetchGhlFiles, fetchGhlFiles, bind, emit, throw, ret, lift.
  destruct (ghlAnswer world) as [res|]; [|reflexivity]. cbn [option_map].
  change (ok (Raw.answerOf res)) with (g_ok res).
  destruct (g_ok res); [|reflexivity]. cbn [negb Raw.answerOf json].
  destruct (g_json res) as [[l|l| |]|]; try reflexivity; cbn [option_map Raw.bodyOf Raw.listOf];
    try (change (Json.lookupField "files" [("files", JArr (map Raw.elementOf l))])
           with (Some (JArr (map Raw.elementOf l))));
    cbv beta iota; now rewrite raw_keepLocated_typed.
Qed.


(** C4, as amended: the listing request to the Asset Source is issued once;
    when it is answered with a status outside 200..299, transient or not,
    the run fails at once with status 1: no retry, no delay, no request to
    the Catalog Service. *)
Theorem ghl_failure_is_not_retried host cfg world fuel (res : GhlResponse) :
  ghlAnswer world = Some res ->
  g_ok res = false ->
  run host cfg world fuel =
    (Some 1,
     {| sent := 0;
        trace := [GhlGet;
                  Console (SyncFailed (GhlFetchHttpError (g_status res) (g_text res)))] |}).
Proof.
  intros Hres Hok. unfold run, main, fetchGhlFiles, bind, emit, initial.
  rewrite Hres, Hok. reflexivity.
Qed.

Lemma ghl_failure_is_not_retried_witness :
  run plainHost defaultConfig ghlDown 1 =
    (Some 1,
     {| sent := 0;
        trace := [GhlGet; Console (SyncFailed (GhlFetchHttpError 503 "unavailable"))] |}).
Proof.
  apply (ghl_failure_is_not_retried plainHost defaultConfig ghlDown 1
           {| g_status := 503; g_text := "unavailable"; g_json := None |});
    reflexivity.
Defined.

(** C4 as stated fails: with 3 attempts configured, a 503 from the Asset
    Source ends the run after a single GET and without any delay. *)
Lemma ghl_503_single_request :
  includes RETRYABLE 503 = true /\
  MAX_RETRIES defaultConfig = 3 /\
  fst (run plainHost defaultConfig ghlDown 1) = Some 1 /\
  ghlGets (trace (snd (run plainHost defaultConfig ghlDown 1))) = 1%nat /\
  delays (trace (snd (run plainHost defaultConfig ghlDown 1))) = [].
Proof. repeat split; vm_compute; reflexivity. Qed.

(** ** The RPC client *)

Section GqlFacts.

Variable cfg : Config.
Variable world : World.

Lemma state_eta (s : State) : {| sent := sent s; trace := trace s |} = s.
Proof. now destruct s. Qed.

(** One failed attempt that is retried. *)
Lemma gqlFrom_retry fuel q a s r :
  shopifyAnswer world (sent s) = Answered r ->
  transientFailure r = true ->
  a < MAX_RETRIES cfg ->
  gqlFrom cfg world (S fuel) q a s =
  gqlFrom cfg world fuel q (a + 1)
    {| sent := S (sent s);
       trace := trace s ++ [GqlPost q a; Console (WarnHttpRetry (status r) a (backoff a));
                            Sleep (backoff a)] |}.
Proof.
  intros Hans Hfail Hlt. unfold transientFailure in Hfail.
  apply andb_true_iff in Hfail as [Hok Hre].
  cbn [gqlFrom]. unfold bind at 1. unfold post, onResponse. rewrite Hans, Hok, Hre.
  destruct (Z.ltb_spec a (MAX_RETRIES cfg)) as [_|?]; [|lia].
  cbn [andb]. unfold bind, console, sleep, emit. cbn [sent trace].
  rewrite <- !app_assoc. reflexivity.
Qed.

(** The last attempt fails: no more retry, the error surfaces. *)
Lemma gqlFrom_exhausted fuel q a s r :
  shopifyAnswer world (sent s) = Answered r ->
  ok r = false ->
  MAX_RETRIES cfg <= a ->
  gqlFrom cfg world (S fuel) q a s =
  (Throw (GraphQLHttpError (status r) (text r)),
   {| sent := S (sent s); trace := trace s ++ [GqlPost q a] |}).
Proof.
  intros Hans Hok Hge.
  cbn [gqlFrom]. unfold bind at 1. unfold post, onResponse. rewrite Hans, Hok.
  destruct (Z.ltb_spec a (MAX_RETRIES cfg)) as [?|_]; [lia|].
  rewrite andb_false_r. reflexivity.
Qed.

(** An attempt succeeds. *)
Lemma gqlFrom_success fuel q a s r d :
  shopifyAnswer world (sent s) = Answered r ->
  succeedsWith r d ->
  gqlFrom cfg world (S fuel) q a s =
  (Return d, {| sent := S (sent s); trace := trace s ++ [GqlPost q a] |}).
Proof.
  intros Hans [Hok (j & e & Hj & He & Hfalsy & Hd)].
  cbn [gqlFrom]. unfold bind at 1. unfold post, onResponse. rewrite Hans, Hok, Hj.
  cbn [negb]. unfold bind. rewrite He. cbn [lift ret]. rewrite Hfalsy, Hd.
  reflexivity.
Qed.

Lemma attemptsFrom_S (a : Z) (n : nat) :
  attemptsFrom a (S n) = a :: attemptsFrom (a + 1) n.
Proof.
  unfold attemptsFrom. cbn [seq map]. rewrite Z.add_0_r. f_equal.
  rewrite <- seq_shift, map_map. apply map_ext. intros k. lia.
Qed.

(** Every attempt from [a] on fails with a retryable status: [gql] makes the
    [n + 1] attempts that are left, waits between them, and raises. *)
Lemma gqlFrom_all_fail q :
  forall n a fuel s,
    n = Z.to_nat (MAX_RETRIES cfg - a) ->
    (n < fuel)%nat ->
    (forall k, (k <= n)%nat ->
       exists r, shopifyAnswer world (sent s + k) = Answered r /\
                 transientFailure r = true) ->
    exists r evs,
      shopifyAnswer world (sent s + n) = Answered r /\
      gqlFrom cfg world fuel q a s =
        (Throw (GraphQLHttpError (status r) (text r)),
         {| sent := sent s + S n; trace := trace s ++ evs |}) /\
      posts evs = map (pair q) (attemptsFrom a (S n)) /\
      delays evs = map backoff (attemptsFrom a n).
Proof.
  induction n as [|n IH]; intros a fuel s Hn Hfuel Hall.
  - destruct fuel as [|fuel]; [lia|].
    destruct (Hall 0%nat) as (r & Hans & Hfail); [lia|].
    rewrite Nat.add_0_r in Hans.
    exists r, [GqlPost q a]. rewrite Nat.add_0_r. split; [exact Hans|].
    split; [|split].
    + rewrite (gqlFrom_exhausted fuel q a s r Hans); [| |lia].
      * f_equal. f_equal. lia.
      * unfold transientFailure in Hfail. apply andb_true_iff in Hfail as [H _].
        now apply negb_true_iff in H.
    + unfold attemptsFrom. simpl. now rewrite Z.add_0_r.
    + reflexivity.
  - destruct fuel as [|fuel]; [lia|].
    destruct (Hall 0%nat) as (r & Hans & Hfail); [lia|].
    rewrite Nat.add_0_r in Hans.
    rewrite (gqlFrom_retry fuel q a s r Hans Hfail) by lia.
    set (s1 := {| sent := S (sent s); trace := _ |}).
    destruct (IH (a + 1) fuel s1) as (r' & evs & Hans' & Hrun & Hposts & Hdelays).
    + lia.
    + lia.
    + intros k Hk. destruct (Hall (S k)) as (rk & Hk1 & Hk2); [lia|].
      exists rk. split; [|exact Hk2]. subst s1. cbn [sent].
      now replace (S (sent s) + k)%nat with (sent s + S k)%nat by lia.
    + exists r', ([GqlPost q a; Console (WarnHttpRetry (status r) a (backoff a));
                   Sleep (backoff a)] ++ evs).
      subst s1. cbn [sent trace] in *.
      split; [now replace (sent s + S n)%nat with (S (sent s) + n)%nat by lia|].
      split; [|split].
      * rewrite Hrun. f_equal. f_equal; [lia|]. now rewrite <- app_assoc.
      * cbn [app]. unfold posts in *. cbn [flat_map postOf app].
        rewrite Hposts. now rewrite (attemptsFrom_S a (S n)).
      * cbn [app]. unfold delays in *. cbn [flat_map delayOf app].
        rewrite Hdelays. now rewrite (attemptsFrom_S a n).
Qed.

(** C3: a call whose first two attempts are answered 503 and whose third
    attempt succeeds returns the data of the third answer after exactly two
    delayed retries, the delays being [BASE_DELAY] and [2 * BASE_DELAY];
    a call that is answered with a retryable failure on every one of the
    configured attempts makes exactly that many requests, waits
    [BASE_DELAY * 2^(n-1)] before retry [n], and then raises the HTTP error
    of the last answer. *)
Theorem gql_retry_backoff (q : Query) (s : State) :
  (forall r1 r2 r3 d,
     3 <= MAX_RETRIES cfg ->
     shopifyAnswer world (sent s) = Answered r1 -> status r1 = 503 ->
     shopifyAnswer world (sent s + 1) = Answered r2 -> status r2 = 503 ->
     shopifyAnswer world (sent s + 2) = Answered r3 -> succeedsWith r3 d ->
     gql cfg world q s =
       (Return d,
        {| sent := sent s + 3;
           trace := trace s ++
             [GqlPost q 1; Console (WarnHttpRetry 503 1 BASE_DELAY); Sleep BASE_DELAY;
              GqlPost q 2; Console (WarnHttpRetry 503 2 (BASE_DELAY * 2));
              Sleep (BASE_DELAY * 2);
              GqlPost q 3] |})) /\
  ((forall k, (k < attemptsAllowed cfg)%nat ->
      exists r, shopifyAnswer world (sent s + k) = Answered r /\
                transientFailure r = true) ->
   exists r evs,
     shopifyAnswer world (sent s + (attemptsAllowed cfg - 1)) = Answered r /\
     gql cfg world q s =
       (Throw (GraphQLHttpError (status r) (text r)),
        {| sent := sent s + attemptsAllowed cfg; trace := trace s ++ evs |}) /\
     posts evs = map (pair q) (attemptsFrom 1 (attemptsAllowed cfg)) /\
     delays evs = map backoff (attemptsFrom 1 (attemptsAllowed cfg - 1))).
Proof.
  split.
  - intros r1 r2 r3 d Hmax H1 St1 H2 St2 H3 Hok.
    unfold gql.
    assert (Hfuel : exists f, S (Z.to_nat (MAX_RETRIES cfg - 1)) = S (S (S f))).
    { exists (Z.to_nat (MAX_RETRIES cfg - 3)). lia. }
    destruct Hfuel as [f ->].
    assert (T1 : transientFailure r1 = true).
    { unfold transientFailure, ok. rewrite St1. reflexivity. }
    assert (T2 : transientFailure r2 = true).
    { unfold transientFailure, ok. rewrite St2. reflexivity. }
    rewrite (gqlFrom_retry _ q 1 s r1 H1 T1) by lia.
    set (s1 := {| sent := S (sent s); trace := _ |}).
    assert (H2' : shopifyAnswer world (sent s1) = Answered r2).
    { subst s1. cbn [sent]. now replace (S (sent s)) with (sent s + 1)%nat by lia. }
    rewrite (gqlFrom_retry _ q (1 + 1) s1 r2 H2' T2) by lia.
    set (s2 := {| sent := S (sent s1); trace := _ |}).
    assert (H3' : shopifyAnswer world (sent s2) = Answered r3).
    { subst s2 s1. cbn [sent]. now replace (S (S (sent s))) with (sent s + 2)%nat by lia. }
    rewrite (gqlFrom_success _ q (1 + 1 + 1) s2 r3 d H3' Hok).
    subst s2 s1. cbn [sent trace]. rewrite St1, St2.
    f_equal. f_equal; [lia|]. rewrite <- !app_assoc. reflexivity.
  - intros Hall. unfold gql, attemptsAllowed in *.
    set (n := Z.to_nat (MAX_RETRIES cfg - 1)) in *.
    replace (S n - 1)%nat with n by lia.
    apply (gqlFrom_all_fail q n 1 (S n) s); [reflexivity | lia |].
    intros k Hk. apply Hall. lia.
Qed.
End GqlFacts.

Lemma gql_retry_backoff_witness :
  gql defaultConfig twice503 (ProductByHandle "cs1") initial =
    (Return (Some (JObj [("product", JObj [("id", JStr "gid://shopify/Product/1")])])),
     {| sent := 3;
        trace := [GqlPost (ProductByHandle "cs1") 1;
                  Console (WarnHttpRetry 503 1 600); Sleep 600;
                  GqlPost (ProductByHandle "cs1") 2;
                  Console (WarnHttpRetry 503 2 1200); Sleep 1200;
                  GqlPost (ProductByHandle "cs1") 3] |}) /\
  exists r evs,
    gql defaultConfig always503 (ProductByHandle "cs1") initial =
      (Throw (GraphQLHttpError (status r) (text r)),
       {| sent := 3; trace := evs |}) /\
    posts evs = [(ProductByHandle "cs1", 1); (ProductByHandle "cs1", 2);
                 (ProductByHandle "cs1", 3)] /\
    delays evs = [600; 1200].
Proof.
  destruct (gql_retry_backoff defaultConfig twice503 (ProductByHandle "cs1") initial)
    as [Ha _].
  destruct (gql_retry_backoff defaultConfig always503 (ProductByHandle "cs1") initial)
    as [_ Hb].
  split.
  - apply (Ha {| status := 503; text := "unavailable"; json := None |}
              {| status := 503; text := "unavailable"; json := None |}
              {| status := 200; text := "";
                 json := Some (JObj [("data", JObj [("product", JObj [("id", JStr "gid://shopify/Product/1")])])]) |}
              (Some (JObj [("product", JObj [("id", JStr "gid://shopify/Product/1")])])));
      try reflexivity.
    split; [reflexivity|]. eexists _, _. repeat split; reflexivity.
  - destruct Hb as (r & evs & _ & Hrun & Hposts & Hdelays).
    + intros k _. exists {| status := 503; text := "unavailable"; json := None |}.
      split; reflexivity.
    + exists r, evs. split; [exact Hrun|]. split; [exact Hposts | exact Hdelays].
Defined.

(** ** What a computation can add to the trace *)

Lemma emits_ret {A} (a : A) (P : Event -> Prop) (Q : A -> Prop) :
  Q a -> emits (ret a) P Q.
Proof.
  intros Ha s out s' H. inversion H; subst. exists [].
  rewrite app_nil_r. repeat split; [constructor|].
  intros a' E. now inversion E; subst.
Qed.

Lemma emits_throw {A} e (P : Event -> Prop) (Q : A -> Prop) : emits (throw e) P Q.
Proof.
  intros s out s' H. inversion H; subst. exists [].
  rewrite app_nil_r. repeat split; [constructor|]. discriminate.
Qed.

Lemma emits_outOfFuel {A} (P : Event -> Prop) (Q : A -> Prop) : emits outOfFuel P Q.
Proof.
  intros s out s' H. inversion H; subst. exists [].
  rewrite app_nil_r. repeat split; [constructor|]. discriminate.
Qed.

Lemma emits_emit e (P : Event -> Prop) (Q : unit -> Prop) :
  P e -> Q tt -> emits (emit e) P Q.
Proof.
  intros He Hq s out s' H. inversion H; subst. exists [e]. cbn [trace].
  repeat split; [now constructor|]. now intros [] _.
Qed.

Lemma emits_bind {A B} (m : M A) (k : A -> M B) P (Q : A -> Prop) (R : B -> Prop) :
  emits m P Q -> (forall a, Q a -> emits (k a) P R) -> emits (bind m k) P R.
Proof.
  intros Hm Hk s out s' H.
  destruct (bind_inv _ _ _ _ _ H) as [(a & s1 & H1 & H2) | [(e & H1 & ->) | (H1 & ->)]].
  - destruct (Hm _ _ _ H1) as (evs1 & T1 & F1 & Q1).
    destruct (Hk a (Q1 a eq_refl) _ _ _ H2) as (evs2 & T2 & F2 & Q2).
    exists (evs1 ++ evs2). rewrite T2, T1, app_assoc.
    repeat split; [now apply Forall_app|exact Q2].
  - destruct (Hm _ _ _ H1) as (evs1 & T1 & F1 & _).
    exists evs1. repeat split; [exact T1|exact F1|discriminate].
  - destruct (Hm _ _ _ H1) as (evs1 & T1 & F1 & _).
    exists evs1. repeat split; [exact T1|exact F1|discriminate].
Qed.

Lemma emits_weaken {A} (m : M A) (P P' : Event -> Prop) (Q Q' : A -> Prop) :
  emits m P Q -> (forall e, P e -> P' e) -> (forall a, Q a -> Q' a) -> emits m P' Q'.
Proof.
  intros Hm HP HQ s out s' H. destruct (Hm _ _ _ H) as (evs & T & F & Qa).
  exists evs. repeat split; [exact T| |auto].
  eapply Forall_impl; [exact F|exact HP].
Qed.

Lemma emits_lift {A} (r : Error + A) P (Q : A -> Prop) :
  (forall a, r = inr a -> Q a) -> emits (lift r) P Q.
Proof.
  intros H. destruct r as [e|a]; [apply emits_throw|apply emits_ret; auto].
Qed.

Lemma emits_then {A B} (m : M A) (k : A -> M B) P (R : B -> Prop) :
  emits m P (fun _ => True) -> (forall a, emits (k a) P R) -> emits (bind m k) P R.
Proof. intros Hm Hk. eapply emits_bind; [exact Hm|]. intros a _. apply Hk. Qed.

Lemma emits_event e (P : Event -> Prop) : P e -> emits (emit e) P (fun _ => True).
Proof. intros He. now apply emits_emit. Qed.

Lemma emits_lift_any {A} (r : Error + A) P : emits (lift r) P (fun _ => True).
Proof. apply emits_lift. auto. Qed.

Lemma emits_mapM {A B} (f : A -> M B) P (l : list A) :
  (forall x, emits (f x) P (fun _ => True)) -> emits (mapM f l) P (fun _ => True).
Proof.
  intros Hf. induction l as [|x l IH]; cbn [mapM]; [now apply emits_ret|].
  apply emits_then; [apply Hf|]. intros y.
  apply emits_then; [apply IH|]. intros ys. now apply emits_ret.
Qed.

Section Emits.

Variable cfg : Config.
Variable world : World.
Variable P : Event -> Prop.
Hypothesis noise : forall e, isRetryNoise e = true -> P e.

Lemma post_emits q a : P (GqlPost q a) -> emits (post world q a) P (fun _ => True).
Proof.
  intros Hp s out s' H. unfold post in H. exists [GqlPost q a].
  destruct (shopifyAnswer world (sent s)); inversion H; subst; cbn [trace];
    (split; [reflexivity|]; split; [now constructor|auto]).
Qed.

(** The handling of an answer adds the noise of a retry and what the retry
    adds. *)
Lemma onResponse_emits retry a res :
  emits retry P (fun _ => True) ->
  emits (onResponse cfg retry a res) P (fun _ => True).
Proof.
  intros Hnext. unfold onResponse.
  destruct (negb (ok res)).
  - destruct (includes RETRYABLE (status res) && (a <? MAX_RETRIES cfg)).
    + apply emits_then; [now apply emits_event, noise|]. intros _.
      apply emits_then; [now apply emits_event, noise|]. intros _.
      exact Hnext.
    + apply emits_throw.
  - destruct (json res) as [j|]; [|apply emits_throw].
    apply emits_then; [apply emits_lift_any|]. intros errors.
    destruct (Json.truthy errors).
    + destruct (a <? MAX_RETRIES cfg); [|apply emits_throw].
      apply emits_then; [now apply emits_event, noise|]. intros _.
      apply emits_then; [now apply emits_event, noise|]. intros _.
      exact Hnext.
    + apply emits_lift_any.
Qed.

(** [gql] adds POSTs of its own query, with attempt numbers from the one it
    was entered with, and the noise of retries. *)
Lemma gqlFrom_emits q :
  forall fuel a,
    (forall a', a <= a' -> P (GqlPost q a')) ->
    emits (gqlFrom cfg world fuel q a) P (fun _ => True).
Proof.
  induction fuel as [|fuel IH]; intros a Hq; cbn [gqlFrom]; [apply emits_outOfFuel|].
  apply emits_then; [apply post_emits, Hq; lia|]. intros res.
  apply onResponse_emits, IH. intros a' Ha'. apply Hq. lia.
Qed.

Lemma gql_emits q :
  (forall a, P (GqlPost q a)) -> emits (gql cfg world q) P (fun _ => True).
Proof. intros Hq. apply gqlFrom_emits. auto. Qed.

(** The two read operations post queries only. *)
Hypothesis reads : forall q a, batchOf q = [] -> P (GqlPost q a).

Lemma findBySku_emits code :
  emits (findBySku cfg world code) P (fun _ => True).
Proof.
  unfold findBySku. destruct (negb (Js.isEmpty code)); [|now apply emits_ret].
  apply emits_then; [apply gql_emits; intros; now apply reads|]. intros d.
  apply emits_then; [apply emits_lift_any|]. intros products.
  destruct (Json.truthy _); now apply emits_ret.
Qed.

Lemma findProductIdByHandleOrSku_emits handle code :
  emits (findProductIdByHandleOrSku cfg world handle code) P (fun _ => True).
Proof.
  unfold findProductIdByHandleOrSku.
  destruct (negb (Js.isEmpty handle)); [|apply findBySku_emits].
  apply emits_then; [apply gql_emits; intros; now apply reads|]. intros d.
  apply emits_then; [apply emits_lift_any|]. intros product.
  destruct (Json.truthy _); [now apply emits_ret|apply findBySku_emits].
Qed.

(** The set of existing alts never holds the empty string. *)
Lemma getExistingMediaAlts_emits productId :
  emits (getExistingMediaAlts cfg world productId) P (fun S => "" ∉ S).
Proof.
  unfold getExistingMediaAlts.
  apply emits_then; [apply gql_emits; intros; now apply reads|]. intros d.
  apply emits_then; [apply emits_lift_any|]. intros product.
  apply emits_then.
  - unfold altsOfEdges. destruct (Json.truthy _); [|now apply emits_ret].
    destruct (Json.optProp _ "edges") as [[]|]; try apply emits_throw.
    apply emits_mapM. intros e. apply emits_lift_any.
  - intros alts. apply emits_ret.
    rewrite elem_of_list_to_set, list_elem_of_In, filter_In.
    intros [_ H]. discriminate H.
Qed.

Lemma attachMediaBatch_emits productId medias :
  (forall a, P (GqlPost (ProductCreateMedia productId medias) a)) ->
  emits (attachMediaBatch cfg world productId medias) P (fun _ => True).
Proof.
  intros Hm. unfold attachMediaBatch.
  destruct (Nat.eqb _ _); [now apply emits_ret|].
  apply emits_then; [apply gql_emits; exact Hm|]. intros d.
  apply emits_then; [apply emits_lift_any|]. intros pcm.
  match goal with |- context [Json.truthy ?x] => destruct (Json.truthy x) end;
    [apply emits_throw|now apply emits_ret].
Qed.

Lemma firstn_incl {A} (n : nat) : forall l : list A, incl (firstn n l) l.
Proof.
  induction n as [|n IH]; intros l y Hy.
  - destruct l; destruct Hy.
  - destruct l as [|x l]; [destruct Hy|].
    destruct Hy as [->|Hy]; [now left|right; now apply IH].
Qed.

Lemma skipn_incl {A} (n : nat) : forall l : list A, incl (skipn n l) l.
Proof.
  induction n as [|n IH]; intros l y Hy; [exact Hy|].
  destruct l as [|x l]; [destruct Hy|].
  right. now apply IH.
Qed.

Lemma slice_incl {A} (l : list A) (i j : Z) : incl (Js.slice l i j) l.
Proof.
  unfold Js.slice. intros x Hx.
  apply firstn_incl in Hx. now apply skipn_incl in Hx.
Qed.

(** The batch loop posts create-media mutations for the product it was
    given, each with a batch drawn from [toAttach]. *)
Lemma attachLoop_emits productId lbl toAttach :
  (forall chunk a, incl chunk toAttach ->
     P (GqlPost (ProductCreateMedia productId chunk) a)) ->
  (forall n t, P (Console (Attached n t lbl))) ->
  forall fuel i attached,
    emits (attachLoop cfg world fuel productId lbl toAttach i attached) P (fun _ => True).
Proof.
  intros Hm Hl. induction fuel as [|fuel IH]; intros i attached; cbn [attachLoop];
    [apply emits_outOfFuel|].
  destruct (i <? _); [|now apply emits_ret].
  apply emits_then.
  { apply attachMediaBatch_emits. intros a. apply Hm, slice_incl. }
  intros _.
  apply emits_then; [apply emits_event, Hl|]. intros _.
  apply IH.
Qed.

End Emits.

(** ** The diff against the existing media *)

Lemma has_false (S : gset string) (x : string) : has S x = false <-> x ∉ S.
Proof. unfold has. apply bool_decide_eq_false. Qed.

Lemma has_true (S : gset string) (x : string) : has S x = true <-> x ∈ S.
Proof. unfold has. apply bool_decide_eq_true. Qed.

Lemma toAttachOf_filter (S : gset string) (l : list MediaInput) :
  toAttachOf S l = List.filter (fun m => negb (has S (Js.trim (alt m)))) l.
Proof.
  unfold toAttachOf. apply List.filter_ext. intros m. now rewrite orStr_some.
Qed.

Lemma in_toAttachOf (S : gset string) (l : list MediaInput) (m : MediaInput) :
  In m (toAttachOf S l) <-> In m l /\ Js.trim (alt m) ∉ S.
Proof.
  rewrite toAttachOf_filter, List.filter_In, negb_true_iff, has_false. reflexivity.
Qed.

Lemma skipped_count (S : gset string) (l : list MediaInput) :
  Z.of_nat (length l) - Z.of_nat (length (toAttachOf S l)) =
  Z.of_nat (length (List.filter (fun m => has S (Js.trim (alt m))) l)).
Proof.
  rewrite toAttachOf_filter.
  pose proof (List.filter_length (fun m => has S (Js.trim (alt m))) l). lia.
Qed.

(** C10: the set that [getExistingMediaAlts] returns never holds the empty
    string, so a media whose alt trims to the empty string is always in the
    subset to attach. *)
Theorem empty_alt_is_never_a_duplicate cfg world productId s (S : gset string) s'
        (allMedias : list MediaInput) (m : MediaInput) :
  getExistingMediaAlts cfg world productId s = (Return S, s') ->
  In m allMedias ->
  Js.trim (alt m) = "" ->
  ("" ∉ S) /\ In m (toAttachOf S allMedias).
Proof.
  intros Hrun Hin Hempty.
  assert (Hno : "" ∉ S).
  { destruct (getExistingMediaAlts_emits cfg world (fun _ => True)
                (fun _ _ => I) (fun _ _ _ => I) productId _ _ _ Hrun)
      as (_ & _ & _ & HS).
    now apply HS. }
  split; [exact Hno|].
  apply in_toAttachOf. split; [exact Hin|]. now rewrite Hempty.
Qed.

Lemma empty_alt_is_never_a_duplicate_witness :
  ("" ∉ (list_to_set ["CS1_back.jpg"] : gset string)) /\
  In (mediaNamed "")
     (toAttachOf (list_to_set ["CS1_back.jpg"]) (snd groupCS1)).
Proof.
  apply (empty_alt_is_never_a_duplicate defaultConfig catalogWithBack product1
           afterLookup (list_to_set ["CS1_back.jpg"]) afterListing
           (snd groupCS1) (mediaNamed "")).
  - vm_compute. reflexivity.
  - simpl. auto.
  - reflexivity.
Defined.

(** ** Attach-idempotence *)

Section Idempotence.

Variable cfg : Config.
Variable world : World.

Lemma sendsOnlyNew_noise S l e : isRetryNoise e = true -> sendsOnlyNew S l e.
Proof. destruct e as [| | |[]]; try discriminate; intros _; constructor. Qed.

Lemma sendsOnlyNew_read S l q a : batchOf q = [] -> sendsOnlyNew S l (GqlPost q a).
Proof. unfold sendsOnlyNew. cbn [sentOf]. intros ->. constructor. Qed.

Lemma sendsOnlyNew_console S l line : sendsOnlyNew S l (Console line).
Proof. constructor. Qed.

(** C1: in the processing of a group whose product was resolved, every
    batch sent to the Catalog Service holds only media of the group whose
    trimmed alt is not in the set of existing alts fetched for that product;
    the media whose trimmed alt is in that set are in no batch, and they are
    what the group adds to the skipped total. *)
Theorem attach_idempotence fuel totals code allMedias s productId s1
        (S : gset string) s2 out s' :
  findProductIdByHandleOrSku cfg world (deriveHandleFromCode cfg code) code s
    = (Return productId, s1) ->
  Json.truthy productId = true ->
  getExistingMediaAlts cfg world productId s1 = (Return S, s2) ->
  processGroup cfg world fuel totals (code, allMedias) s = (out, s') ->
  exists evs,
    trace s' = trace s ++ evs /\
    (forall batch m, In batch (sentBatches evs) -> In m batch ->
       In m allMedias /\ Js.trim (alt m) ∉ S) /\
    (forall m, In m allMedias -> Js.trim (alt m) ∈ S ->
       forall batch, In batch (sentBatches evs) -> ~ In m batch) /\
    (forall totals', out = Return totals' ->
       snd totals' = snd totals +
         Z.of_nat (length (List.filter (fun m => has S (Js.trim (alt m))) allMedias))).
Proof.
  intros Hfind Htruthy Halts Hrun.
  set (P := sendsOnlyNew S allMedias).
  assert (Pnoise : forall e, isRetryNoise e = true -> P e)
    by apply sendsOnlyNew_noise.
  assert (Preads : forall q a, batchOf q = [] -> P (GqlPost q a))
    by apply sendsOnlyNew_read.
  destruct (findProductIdByHandleOrSku_emits cfg world P Pnoise Preads _ _ _ _ _ Hfind)
    as (evs1 & T1 & F1 & _).
  destruct (getExistingMediaAlts_emits cfg world P Pnoise Preads _ _ _ _ Halts)
    as (evs2 & T2 & F2 & _).
  unfold processGroup in Hrun. destruct totals as [attached skipped].
  rewrite (bind_return _ _ _ _ _ Hfind) in Hrun.
  rewrite Htruthy in Hrun. cbn [negb] in Hrun.
  rewrite (bind_return _ _ _ _ _ Halts) in Hrun.
  rewrite skipped_count in Hrun.
  set (k := Z.of_nat (length (List.filter _ allMedias))) in *.
  assert (E3 : exists evs3, trace s' = trace s2 ++ evs3 /\ Forall P evs3 /\
                 forall t, out = Return t -> snd t = skipped + k).
  { revert Hrun.
    match goal with |- ?m s2 = _ -> _ =>
      assert (Hm : emits m P (fun t => snd t = skipped + k)) end.
    { destruct (Nat.eqb _ 0).
      - apply emits_then; [apply emits_event, sendsOnlyNew_console|].
        intros _. now apply emits_ret.
      - destruct (DRY_RUN cfg).
        + apply emits_then; [apply emits_event, sendsOnlyNew_console|].
          intros _. now apply emits_ret.
        + apply emits_then; [|intros a; now apply emits_ret].
          apply attachLoop_emits; [exact Pnoise| |intros; apply sendsOnlyNew_console].
          intros chunk a Hincl. unfold P, sendsOnlyNew. cbn [sentOf batchOf].
          repeat constructor. apply List.Forall_forall. intros m Hm.
          now apply in_toAttachOf, Hincl. }
    intros Hrun. exact (Hm _ _ _ Hrun). }
  destruct E3 as (evs3 & T3 & F3 & Hk).
  assert (Hall : Forall P (evs1 ++ evs2 ++ evs3)) by (repeat apply Forall_app_2; assumption).
  assert (Hnew : forall batch m, In batch (sentBatches (evs1 ++ evs2 ++ evs3)) ->
                   In m batch -> In m allMedias /\ Js.trim (alt m) ∉ S).
  { intros batch m Hb Hm. unfold sentBatches in Hb.
    apply List.in_flat_map in Hb as (e & He & Hbe).
    rewrite List.Forall_forall in Hall. specialize (Hall e He).
    unfold P, sendsOnlyNew in Hall.
    rewrite List.Forall_forall in Hall. specialize (Hall batch Hbe).
    rewrite List.Forall_forall in Hall. now apply Hall. }
  exists (evs1 ++ evs2 ++ evs3). split; [|split; [|split]].
  - rewrite T3, T2, T1, <- !app_assoc. reflexivity.
  - exact Hnew.
  - intros m _ Hdup batch Hb Hm. destruct (Hnew batch m Hb Hm) as [_ Hnot].
    now apply Hnot.
  - exact Hk.
Qed.

End Idempotence.

Lemma attach_idempotence_witness :
  exists evs,
    trace (snd (processGroup defaultConfig catalogWithBack 2 (0, 0) groupCS1 initial))
      = evs /\
    (forall batch m, In batch (sentBatches evs) -> In m batch ->
       In m (snd groupCS1) /\ Js.trim (alt m) ∉ (list_to_set ["CS1_back.jpg"] : gset string)) /\
    fst (processGroup defaultConfig catalogWithBack 2 (0, 0) groupCS1 initial)
      = Return (2, 1).
Proof.
  destruct (attach_idempotence defaultConfig catalogWithBack 2 (0, 0) "CS1"
              (snd groupCS1) initial product1 afterLookup
              (list_to_set ["CS1_back.jpg"]) afterListing
              (fst (processGroup defaultConfig catalogWithBack 2 (0, 0) groupCS1 initial))
              (snd (processGroup defaultConfig catalogWithBack 2 (0, 0) groupCS1 initial)))
    as (evs & T & Hnew & _ & _).
  - vm_compute. reflexivity.
  - reflexivity.
  - vm_compute. reflexivity.
  - apply surjective_pairing.
  - exists evs. split; [exact T|]. split; [exact Hnew|]. vm_compute. reflexivity.
Defined.

(** ** Termination *)

Lemma total_ret {A} (a : A) : total (ret a).
Proof. intros s. discriminate. Qed.

Lemma total_throw {A} e : total (@throw A e).
Proof. intros s. discriminate. Qed.

Lemma total_emit e : total (emit e).
Proof. intros s. discriminate. Qed.

Lemma total_lift {A} (r : Error + A) : total (lift r).
Proof. destruct r; [apply total_throw|apply total_ret]. Qed.

Lemma total_bind {A B} (m : M A) (k : A -> M B) :
  total m -> (forall a, total (k a)) -> total (bind m k).
Proof.
  intros Hm Hk s. unfold bind. specialize (Hm s).
  destruct (m s) as [[a|e|] s1]; cbn [fst] in *; [apply Hk|discriminate|congruence].
Qed.

Lemma total_mapM {A B} (f : A -> M B) (l : list A) :
  (forall x, total (f x)) -> total (mapM f l).
Proof.
  intros Hf. induction l as [|x l IH]; cbn [mapM]; [apply total_ret|].
  apply total_bind; [apply Hf|]. intros y.
  apply total_bind; [apply IH|]. intros ys. apply total_ret.
Qed.

Section Termination.

Variable cfg : Config.
Variable world : World.

Lemma post_total q a : total (post world q a).
Proof. intros s. unfold post. destruct (shopifyAnswer world (sent s)); discriminate. Qed.

Lemma onResponse_total retry a res :
  (a < MAX_RETRIES cfg -> total retry) -> total (onResponse cfg retry a res).
Proof.
  intros Hretry. unfold onResponse.
  assert (Hagain : forall l w, (a <? MAX_RETRIES cfg) = true ->
            total (bind (console l) (fun _ => bind (sleep w) (fun _ => retry)))).
  { intros l w Hlt. apply Z.ltb_lt in Hlt.
    apply total_bind; [apply total_emit|]. intros _.
    apply total_bind; [apply total_emit|]. intros _. now apply Hretry. }
  destruct (negb (ok res)).
  - destruct (includes RETRYABLE (status res)); cbn [andb]; [|apply total_throw].
    destruct (a <? MAX_RETRIES cfg) eqn:Hlt; [now apply Hagain|apply total_throw].
  - destruct (json res) as [j|]; [|apply total_throw].
    apply total_bind; [apply total_lift|]. intros errors.
    destruct (Json.truthy errors); [|apply total_lift].
    destruct (a <? MAX_RETRIES cfg) eqn:Hlt; [now apply Hagain|apply total_throw].
Qed.

(** The recursion of [gql] ends: the attempt number grows and stays below
    [MAX_RETRIES]. *)
Lemma gqlFrom_total q :
  forall fuel a, (Z.to_nat (MAX_RETRIES cfg - a) < fuel)%nat ->
                 total (gqlFrom cfg world fuel q a).
Proof.
  induction fuel as [|fuel IH]; intros a Hfuel; [lia|]. cbn [gqlFrom].
  apply total_bind; [apply post_total|]. intros res.
  apply onResponse_total. intros Hlt. apply IH. lia.
Qed.

Lemma gql_total q : total (gql cfg world q).
Proof. apply gqlFrom_total. lia. Qed.

Lemma findBySku_total code : total (findBySku cfg world code).
Proof.
  unfold findBySku. destruct (negb _); [|apply total_ret].
  apply total_bind; [apply gql_total|]. intros d.
  apply total_bind; [apply total_lift|]. intros products.
  destruct (Json.truthy _); apply total_ret.
Qed.

Lemma findProductIdByHandleOrSku_total handle code :
  total (findProductIdByHandleOrSku cfg world handle code).
Proof.
  unfold findProductIdByHandleOrSku. destruct (negb _); [|apply findBySku_total].
  apply total_bind; [apply gql_total|]. intros d.
  apply total_bind; [apply total_lift|]. intros product.
  destruct (Json.truthy _); [apply total_ret|apply findBySku_total].
Qed.

Lemma getExistingMediaAlts_total productId :
  total (getExistingMediaAlts cfg world productId).
Proof.
  unfold getExistingMediaAlts.
  apply total_bind; [apply gql_total|]. intros d.
  apply total_bind; [apply total_lift|]. intros product.
  apply total_bind; [|intros; apply total_ret].
  unfold altsOfEdges. destruct (Json.truthy _); [|apply total_ret].
  destruct (Json.optProp _ "edges") as [[]|]; try apply total_throw.
  apply total_mapM. intros e. apply total_lift.
Qed.

Lemma attachMediaBatch_total productId medias :
  total (attachMediaBatch cfg world productId medias).
Proof.
  unfold attachMediaBatch. destruct (Nat.eqb _ _); [apply total_ret|].
  apply total_bind; [apply gql_total|]. intros d.
  apply total_bind; [apply total_lift|]. intros pcm.
  match goal with |- context [Json.truthy ?x] => destruct (Json.truthy x) end;
    [apply total_throw|apply total_ret].
Qed.

(** With a positive batch size the batch loop ends: the index grows past the
    length of [toAttach]. *)
Lemma attachLoop_total productId lbl toAttach :
  1 <= MEDIA_BATCH_SIZE cfg ->
  forall fuel i attached,
    0 <= i ->
    (length toAttach - Z.to_nat i < fuel)%nat ->
    total (attachLoop cfg world fuel productId lbl toAttach i attached).
Proof.
  intros Hb. induction fuel as [|fuel IH]; intros i attached Hi Hfuel; [lia|].
  cbn [attachLoop].
  destruct (Z.ltb_spec i (Z.of_nat (length toAttach))) as [Hlt|_]; [|apply total_ret].
  apply total_bind; [apply attachMediaBatch_total|]. intros _.
  apply total_bind; [apply total_emit|]. intros _.
  apply IH; lia.
Qed.

End Termination.

(** ** Cutting a list into batches *)

Lemma ceilDiv_zero (b : Z) : 0 < b -> ceilDiv 0 b = 0.
Proof. intros Hb. unfold ceilDiv. apply Z.div_small. lia. Qed.

Lemma ceilDiv_small (m b : Z) : 0 < m <= b -> ceilDiv m b = 1.
Proof.
  intros Hm. unfold ceilDiv. symmetry.
  apply (Z.div_unique _ _ 1 (m - 1)); lia.
Qed.

Lemma ceilDiv_step (m b : Z) : 0 < b -> ceilDiv (m + b) b = ceilDiv m b + 1.
Proof.
  intros Hb. unfold ceilDiv.
  replace (m + b + b - 1) with (m + b - 1 + 1 * b) by lia.
  now rewrite Z.div_add by lia.
Qed.

Section Chunks.

Context {A : Type}.
Variable b : nat.
Hypothesis b_pos : (1 <= b)%nat.

(** More fuel than elements changes nothing. *)
Lemma chunksFrom_fuel :
  forall n m (l : list A),
    (length l <= n)%nat -> (length l <= m)%nat -> chunksFrom n b l = chunksFrom m b l.
Proof.
  induction n as [|n IH]; intros m l Hn Hm.
  - destruct l; [now destruct m|simpl in Hn; lia].
  - destruct l as [|x l]; [now destruct m|].
    destruct m as [|m]; [simpl in Hm; lia|].
    cbn [chunksFrom]. apply (f_equal (cons _)).
    assert (Hlen : (length (skipn b (x :: l)) <= length l)%nat).
    { rewrite length_skipn. simpl. lia. }
    simpl in Hn, Hm. apply IH; lia.
Qed.

Lemma chunksFrom_enough (n : nat) (l : list A) :
  (length l <= n)%nat -> chunksFrom n b l = chunks b l.
Proof. intros Hn. unfold chunks. now apply chunksFrom_fuel. Qed.

Lemma chunks_nil : chunks b (@nil A) = [].
Proof. reflexivity. Qed.

Lemma chunks_cons (x : A) (l : list A) :
  chunks b (x :: l) = firstn b (x :: l) :: chunks b (skipn b (x :: l)).
Proof.
  unfold chunks at 1. cbn [chunksFrom length]. apply (f_equal (cons _)).
  apply chunksFrom_enough. rewrite length_skipn. simpl. lia.
Qed.

(** The pieces, put back together, are the list; each has at most [b]
    elements, all but the last exactly [b]; there are [ceil(M/b)] of them. *)
Lemma chunks_spec :
  forall n (l : list A),
    (length l <= n)%nat ->
    concat (chunks b l) = l /\
    List.Forall (fun c => (length c <= b)%nat) (chunks b l) /\
    List.Forall (fun c => length c = b) (removelast (chunks b l)) /\
    Z.of_nat (length (chunks b l)) = ceilDiv (Z.of_nat (length l)) (Z.of_nat b).
Proof.
  induction n as [|n IH]; intros l Hn.
  - destruct l; [|simpl in Hn; lia]. rewrite chunks_nil. cbn [concat length removelast].
    repeat split; try constructor.
    symmetry. apply ceilDiv_zero. lia.
  - destruct l as [|x l].
    { rewrite chunks_nil. cbn [concat length removelast].
      repeat split; try constructor.
      symmetry. apply ceilDiv_zero. lia. }
    rewrite chunks_cons.
    set (rest := skipn b (x :: l)).
    assert (Hrest : (length rest <= n)%nat).
    { subst rest. rewrite length_skipn. simpl in *. lia. }
    destruct (IH rest Hrest) as (Hcat & Hle & Heq & Hcount).
    split; [|split; [|split]].
    + cbn [concat]. rewrite Hcat. apply firstn_skipn.
    + constructor; [|exact Hle]. rewrite length_firstn. lia.
    + destruct (chunks b rest) as [|c cs] eqn:Hcs.
      * constructor.
      * cbn [removelast]. constructor; [|exact Heq].
        rewrite length_firstn.
        assert (rest <> []) by (intros E; rewrite E, chunks_nil in Hcs; discriminate).
        assert (length rest <> 0%nat) by (destruct rest; simpl; congruence).
        subst rest. rewrite length_skipn in *. lia.
    + cbn [length]. rewrite Nat2Z.inj_succ, Hcount. subst rest.
      rewrite length_skipn. cbn [length].
      destruct (Nat.le_gt_cases (S (length l)) b) as [Hsmall|Hbig].
      * replace (S (length l) - b)%nat with 0%nat by lia.
        rewrite ceilDiv_zero, ceilDiv_small; lia.
      * replace (Z.of_nat (S (length l)))
          with (Z.of_nat (S (length l) - b) + Z.of_nat b) by lia.
        rewrite ceilDiv_step; lia.
Qed.

End Chunks.

(** ** The calls a computation makes *)

Lemma calls_app (t1 t2 : list Event) : calls (t1 ++ t2) = calls t1 ++ calls t2.
Proof. apply flat_map_app. Qed.

Lemma attachCalls_app (t1 t2 : list Event) :
  attachCalls (t1 ++ t2) = attachCalls t1 ++ attachCalls t2.
Proof. unfold attachCalls. now rewrite calls_app, flat_map_app. Qed.

Lemma calls_none (t : list Event) : Forall (fun e => callOf e = []) t -> calls t = [].
Proof.
  induction 1 as [|e t He _ IH]; [reflexivity|].
  unfold calls in *. cbn [flat_map]. now rewrite He, IH.
Qed.

Lemma attachCalls_none (t : list Event) :
  Forall (fun e => flat_map batchOf (callOf e) = []) t -> attachCalls t = [].
Proof.
  induction 1 as [|e t He _ IH]; [reflexivity|].
  change (e :: t) with ([e] ++ t). rewrite attachCalls_app, IH, app_nil_r.
  unfold attachCalls, calls. cbn [flat_map]. now rewrite app_nil_r.
Qed.

(** A computation that emits only events of an empty kind emits nothing. *)
Lemma emits_nothing {A} (m : M A) (Q : A -> Prop) s out s' :
  emits m (fun _ => False) Q -> m s = (out, s') -> trace s' = trace s.
Proof.
  intros Hm H. destruct (Hm _ _ _ H) as (evs & T & F & _).
  destruct F as [|e evs []]. now rewrite app_nil_r in T.
Qed.

Section Calls.

Variable cfg : Config.
Variable world : World.

(** One call of [gql] shows in the trace as one first attempt. *)
Lemma gql_calls q s out s' :
  gql cfg world q s = (out, s') ->
  exists evs, trace s' = trace s ++ evs /\ calls evs = [q].
Proof.
  unfold gql. cbn [gqlFrom]. intros H.
  set (later := fun e => callOf e = []).
  assert (Hlater : forall fuel res,
            emits (onResponse cfg (gqlFrom cfg world fuel q (1 + 1)) 1 res)
                  later (fun _ => True)).
  { intros fuel res. apply onResponse_emits.
    - intros [| | |[]]; try discriminate; reflexivity.
    - apply gqlFrom_emits.
      + intros [| | |[]]; try discriminate; reflexivity.
      + intros a' Ha'. unfold later. cbn [callOf].
        destruct (Z.eqb_spec a' 1); [lia|reflexivity]. }
  assert (Hpost : forall r s1, post world q 1 s = (r, s1) ->
            trace s1 = trace s ++ [GqlPost q 1]).
  { unfold post. intros r s1 Hp.
    destruct (shopifyAnswer world (sent s)); inversion Hp; reflexivity. }
  destruct (bind_inv _ _ _ _ _ H) as [(res & s1 & H1 & H2) | [(e & H1 & ->) | (H1 & ->)]].
  - destruct (Hlater _ res _ _ _ H2) as (evs & T & F & _).
    exists (GqlPost q 1 :: evs). split.
    + rewrite T, (Hpost _ _ H1), <- app_assoc. reflexivity.
    + change (GqlPost q 1 :: evs) with ([GqlPost q 1] ++ evs).
      rewrite calls_app, (calls_none evs F). reflexivity.
  - exists [GqlPost q 1]. split; [exact (Hpost _ _ H1)|reflexivity].
  - exists [GqlPost q 1]. split; [exact (Hpost _ _ H1)|reflexivity].
Qed.

(** One call of [attachMediaBatch] with a non-empty batch is one attach
    call. *)
Lemma attachMediaBatch_calls productId medias s out s' :
  medias <> [] ->
  attachMediaBatch cfg world productId medias s = (out, s') ->
  exists evs, trace s' = trace s ++ evs /\ attachCalls evs = [medias].
Proof.
  intros Hne. unfold attachMediaBatch.
  destruct medias as [|m medias]; [congruence|]. cbn [length Nat.eqb].
  set (batch := m :: medias). intros H.
  destruct (bind_inv _ _ _ _ _ H) as [(d & s1 & H1 & H2) | [(e & H1 & ->) | (H1 & ->)]].
  - destruct (gql_calls _ _ _ _ H1) as (evs & T & C).
    exists evs. unfold attachCalls. rewrite C. split; [|reflexivity].
    rewrite <- T. revert H2. apply emits_nothing with (Q := fun _ => True).
    apply emits_then; [apply emits_lift_any|]. intros pcm.
    match goal with |- context [Json.truthy ?x] => destruct (Json.truthy x) end;
      [apply emits_throw|now apply emits_ret].
  - destruct (gql_calls _ _ _ _ H1) as (evs & T & C).
    exists evs. unfold attachCalls. rewrite C. split; [exact T|reflexivity].
  - destruct (gql_calls _ _ _ _ H1) as (evs & T & C).
    exists evs. unfold attachCalls. rewrite C. split; [exact T|reflexivity].
Qed.

Hypothesis batch_pos : 1 <= MEDIA_BATCH_SIZE cfg.

(** Inside the list, [slice(i, i + B)] is the next [B] elements. *)
Lemma slice_chunk {A} (l : list A) (i : Z) :
  0 <= i < Z.of_nat (length l) ->
  Js.slice l i (i + MEDIA_BATCH_SIZE cfg) =
  firstn (Z.to_nat (MEDIA_BATCH_SIZE cfg)) (skipn (Z.to_nat i) l).
Proof.
  intros Hi. unfold Js.slice, Js.relIndex.
  destruct (Z.ltb_spec i 0) as [?|_]; [lia|].
  destruct (Z.ltb_spec (i + MEDIA_BATCH_SIZE cfg) 0) as [?|_]; [lia|].
  rewrite (Z.min_l i) by lia.
  set (rest := skipn (Z.to_nat i) l).
  assert (Hrest : length rest = (length l - Z.to_nat i)%nat)
    by (subst rest; apply length_skipn).
  destruct (Z.le_ge_cases (i + MEDIA_BATCH_SIZE cfg) (Z.of_nat (length l))) as [Hin|Hout].
  - rewrite Z.min_l by lia. f_equal. lia.
  - rewrite Z.min_r by lia.
    rewrite !firstn_all2; [reflexivity|lia|lia].
Qed.

(** The batch loop, entered at index [i], issues one attach call per piece
    of what is left of [toAttach], in order: all of them when it returns,
    the first ones when a call raises. *)
Lemma attachLoop_calls productId lbl toAttach :
  forall fuel i attached s out s',
    0 <= i ->
    attachLoop cfg world fuel productId lbl toAttach i attached s = (out, s') ->
    exists evs,
      trace s' = trace s ++ evs /\
      (exists n, attachCalls evs =
         firstn n (chunks (Z.to_nat (MEDIA_BATCH_SIZE cfg)) (skipn (Z.to_nat i) toAttach))) /\
      forall a, out = Return a ->
        attachCalls evs =
          chunks (Z.to_nat (MEDIA_BATCH_SIZE cfg)) (skipn (Z.to_nat i) toAttach) /\
        a = attached + Z.of_nat (length (skipn (Z.to_nat i) toAttach)).
Proof.
  set (b := Z.to_nat (MEDIA_BATCH_SIZE cfg)).
  assert (Hb : (1 <= b)%nat) by lia.
  induction fuel as [|fuel IH]; intros i attached s out s' Hi H.
  { inversion H; subst. exists []. rewrite app_nil_r.
    split; [reflexivity|]. split; [now exists 0%nat|discriminate]. }
  cbn [attachLoop] in H.
  destruct (Z.ltb_spec i (Z.of_nat (length toAttach))) as [Hlt|Hge].
  - rewrite slice_chunk in H by lia. fold b in H.
    remember (skipn (Z.to_nat i) toAttach) as rest eqn:Erest.
    assert (Hlen : length rest = (length toAttach - Z.to_nat i)%nat)
      by (subst rest; apply length_skipn).
    destruct rest as [|x rest']; [simpl in Hlen; lia|].
    set (chunk := firstn b (x :: rest')) in *.
    assert (Hchunk : chunk <> []).
    { subst chunk. destruct b; [lia|discriminate]. }
    assert (Hnext : skipn (Z.to_nat (i + MEDIA_BATCH_SIZE cfg)) toAttach
                    = skipn b (x :: rest')).
    { rewrite Erest, skipn_skipn. f_equal. lia. }
    rewrite chunks_cons by exact Hb. fold chunk.
    destruct (bind_inv _ _ _ _ _ H) as [([] & s1 & H1 & H2) | [(e & H1 & ->) | (H1 & ->)]].
    + destruct (attachMediaBatch_calls _ _ _ _ _ Hchunk H1) as (evs1 & T1 & C1).
      unfold bind at 1, console, emit in H2.
      apply IH in H2; [|lia]. destruct H2 as (evs3 & T3 & [n Hn] & Hret). cbn [trace] in T3.
      rewrite Hnext in Hn, Hret.
      exists (evs1 ++ [Console (Attached (Z.of_nat (length chunk))
                                         (Z.of_nat (length toAttach)) lbl)] ++ evs3).
      split; [rewrite T3, T1, <- !app_assoc; reflexivity|].
      rewrite !attachCalls_app, C1. cbn [attachCalls calls flat_map callOf app].
      split; [exists (S n); now rewrite Hn|].
      intros a Ha. destruct (Hret a Ha) as [C3 Hsum].
      rewrite C3. split; [reflexivity|].
      rewrite Hsum. subst chunk.
      rewrite <- (firstn_skipn b (x :: rest')) at 3.
      rewrite length_app. lia.
    + destruct (attachMediaBatch_calls _ _ _ _ _ Hchunk H1) as (evs1 & T1 & C1).
      exists evs1. split; [exact T1|]. split; [exists 1%nat; now rewrite C1|discriminate].
    + destruct (attachMediaBatch_calls _ _ _ _ _ Hchunk H1) as (evs1 & T1 & C1).
      exists evs1. split; [exact T1|]. split; [exists 1%nat; now rewrite C1|discriminate].
  - inversion H; subst. exists []. rewrite app_nil_r. split; [reflexivity|].
    split; [now exists 0%nat|].
    intros a Ha. inversion Ha; subst.
    rewrite skipn_all2 by lia. rewrite chunks_nil. cbn [length]. split; [reflexivity|lia].
Qed.

End Calls.

(** ** Batch slicing *)

Section Batches.

Variable cfg : Config.
Variable world : World.

Lemma read_has_no_batch (e : Event) :
  isRetryNoise e = true \/ (exists q a, e = GqlPost q a /\ batchOf q = []) \/
  (exists l, e = Console l) ->
  flat_map batchOf (callOf e) = [].
Proof.
  intros [H | [(q & a & -> & Hq) | (l & ->)]].
  - destruct e as [| | |[]]; try discriminate; reflexivity.
  - cbn [callOf]. destruct (a =? 1); cbn [flat_map]; [now rewrite Hq|reflexivity].
  - reflexivity.
Qed.

(** C5: when a group with a resolved product is processed outside dry-run
    mode with a positive batch size [B] and every attach call succeeds, the
    attach calls issued for the group are the consecutive pieces of the diff
    result, in its order: there are [ceil(M/B)] of them, each of at most [B]
    media and all but the last of exactly [B], and together they are the
    diff result.  When an attach call raises, the calls issued up to then
    are the first of those pieces.  With as many loop iterations allowed as
    the diff result has media, and one more for the exit test, the loop does
    not run out of fuel. *)
Theorem batch_slicing fuel totals code allMedias s productId s1
        (S : gset string) s2 out s' :
  DRY_RUN cfg = false ->
  1 <= MEDIA_BATCH_SIZE cfg ->
  findProductIdByHandleOrSku cfg world (deriveHandleFromCode cfg code) code s
    = (Return productId, s1) ->
  Json.truthy productId = true ->
  getExistingMediaAlts cfg world productId s1 = (Return S, s2) ->
  (length (toAttachOf S allMedias) < fuel)%nat ->
  processGroup cfg world fuel totals (code, allMedias) s = (out, s') ->
  out <> OutOfFuel /\
  (exists evs n,
     trace s' = trace s ++ evs /\
     attachCalls evs =
       firstn n (chunks (Z.to_nat (MEDIA_BATCH_SIZE cfg)) (toAttachOf S allMedias))) /\
  forall totals', out = Return totals' ->
    exists evs,
      trace s' = trace s ++ evs /\
      attachCalls evs = chunks (Z.to_nat (MEDIA_BATCH_SIZE cfg)) (toAttachOf S allMedias) /\
      Z.of_nat (length (attachCalls evs)) =
        ceilDiv (Z.of_nat (length (toAttachOf S allMedias))) (MEDIA_BATCH_SIZE cfg) /\
      List.Forall (fun batch => Z.of_nat (length batch) <= MEDIA_BATCH_SIZE cfg)
                  (attachCalls evs) /\
      List.Forall (fun batch => Z.of_nat (length batch) = MEDIA_BATCH_SIZE cfg)
                  (removelast (attachCalls evs)) /\
      concat (attachCalls evs) = toAttachOf S allMedias /\
      fst totals' = fst totals + Z.of_nat (length (toAttachOf S allMedias)).
Proof.
  intros Hdry Hb Hfind Htruthy Halts Hfuel Hrun.
  set (P := fun e => flat_map batchOf (callOf e) = []).
  assert (Pnoise : forall e, isRetryNoise e = true -> P e)
    by (intros; apply read_has_no_batch; auto).
  assert (Preads : forall q a, batchOf q = [] -> P (GqlPost q a))
    by (intros; apply read_has_no_batch; eauto 6).
  destruct (findProductIdByHandleOrSku_emits cfg world P Pnoise Preads _ _ _ _ _ Hfind)
    as (evs1 & T1 & F1 & _).
  destruct (getExistingMediaAlts_emits cfg world P Pnoise Preads _ _ _ _ Halts)
    as (evs2 & T2 & F2 & _).
  apply attachCalls_none in F1, F2.
  unfold processGroup in Hrun. destruct totals as [attached skipped].
  rewrite (bind_return _ _ _ _ _ Hfind) in Hrun.
  rewrite Htruthy in Hrun. cbn [negb] in Hrun.
  rewrite (bind_return _ _ _ _ _ Halts) in Hrun.
  rewrite Hdry in Hrun.
  set (toAttach := toAttachOf S allMedias) in *.
  set (b := Z.to_nat (MEDIA_BATCH_SIZE cfg)).
  assert (Hbpos : (1 <= b)%nat) by lia.
  destruct (chunks_spec b Hbpos (length toAttach) toAttach (Nat.le_refl _))
    as (Hcat & Hle & Heq & Hcount).
  (* what follows the two reads: [evs3], with its attach calls *)
  assert (Hwhole : forall evs3 cs,
            trace s' = trace s2 ++ evs3 -> attachCalls evs3 = cs ->
            trace s' = trace s ++ (evs1 ++ evs2 ++ evs3) /\
            attachCalls (evs1 ++ evs2 ++ evs3) = cs).
  { intros evs3 cs T3 C3. split.
    - rewrite T3, T2, T1, <- !app_assoc. reflexivity.
    - now rewrite !attachCalls_app, F1, F2, C3. }
  assert (Hshape :
    forall evs3 attached',
      trace s' = trace s2 ++ evs3 ->
      attachCalls evs3 = chunks b toAttach ->
      attached' = attached + Z.of_nat (length toAttach) ->
      exists evs,
        trace s' = trace s ++ evs /\
        attachCalls evs = chunks b toAttach /\
        Z.of_nat (length (attachCalls evs)) =
          ceilDiv (Z.of_nat (length toAttach)) (MEDIA_BATCH_SIZE cfg) /\
        List.Forall (fun batch => Z.of_nat (length batch) <= MEDIA_BATCH_SIZE cfg)
                    (attachCalls evs) /\
        List.Forall (fun batch => Z.of_nat (length batch) = MEDIA_BATCH_SIZE cfg)
                    (removelast (attachCalls evs)) /\
        concat (attachCalls evs) = toAttach /\
        attached' = attached + Z.of_nat (length toAttach)).
  { intros evs3 attached' T3 C3 Hsum. exists (evs1 ++ evs2 ++ evs3).
    destruct (Hwhole _ _ T3 C3) as [T C]. rewrite C.
    split; [exact T|].
    split; [reflexivity|]. split; [rewrite Hcount; f_equal; lia|].
    split; [|split; [|split; [exact Hcat|exact Hsum]]].
    - eapply List.Forall_impl; [|exact Hle]. cbn beta. intros c Hc. lia.
    - eapply List.Forall_impl; [|exact Heq]. cbn beta. intros c Hc. lia. }
  destruct (length toAttach =? 0)%nat eqn:Hempty.
  - apply Nat.eqb_eq in Hempty.
    unfold bind, console, emit, ret in Hrun. inversion Hrun; subst out s'.
    assert (Hnil : chunks b toAttach = [])
      by (destruct toAttach; [reflexivity|discriminate]).
    split; [discriminate|]. split.
    + destruct (Hwhole [Console (NothingNew (label (deriveHandleFromCode cfg code) code))] [])
        as [T C]; [reflexivity|reflexivity|].
      eexists _, 0%nat. split; [exact T|exact C].
    + intros totals' Ht. inversion Ht; subst totals'.
      apply (Hshape [Console (NothingNew (label (deriveHandleFromCode cfg code) code))]);
        [reflexivity|now rewrite Hnil|cbn [fst]; lia].
  - assert (Hloop : exists o, attachLoop cfg world fuel productId
                       (label (deriveHandleFromCode cfg code) code) toAttach 0 attached s2
                     = (o, s') /\
                     (forall a, o = Return a ->
                        out = Return (a, skipped + (Z.of_nat (length allMedias)
                                                    - Z.of_nat (length toAttach)))) /\
                     (o = OutOfFuel <-> out = OutOfFuel) /\
                     (forall t, out = Return t -> exists a, o = Return a)).
    { destruct (bind_inv _ _ _ _ _ Hrun) as [(a & s3 & H1 & H2) | [(e & H1 & ->) | (H1 & ->)]].
      - inversion H2; subst out s'. exists (Return a).
        split; [exact H1|]. split; [intros a' E; now inversion E|].
        split; [split; discriminate|eauto].
      - exists (Throw e). split; [exact H1|]. split; [discriminate|].
        split; [split; discriminate|discriminate].
      - exists OutOfFuel. split; [exact H1|]. split; [discriminate|].
        split; [tauto|discriminate]. }
    destruct Hloop as (o & H1 & Hret & Hfuel' & Hback).
    destruct (attachLoop_calls cfg world Hb _ _ _ _ _ _ _ _ _ (Z.le_refl 0) H1)
      as (evs3 & T3 & [n Hn] & Hcalls).
    cbn [Z.to_nat skipn] in Hn, Hcalls. fold b in Hn, Hcalls.
    split; [|split].
    + intros E. apply Hfuel' in E.
      assert (Hleft : (length toAttach - Z.to_nat 0 < fuel)%nat) by lia.
      pose proof (attachLoop_total cfg world productId
                    (label (deriveHandleFromCode cfg code) code)
                    toAttach Hb fuel 0 attached (Z.le_refl 0) Hleft s2) as Htot.
      rewrite H1 in Htot. now apply Htot.
    + destruct (Hwhole _ _ T3 Hn) as [T C]. eexists _, n. split; [exact T|exact C].
    + intros totals' Ht. destruct (Hback _ Ht) as [a ->].
      rewrite (Hret a eq_refl) in Ht. inversion Ht; subst totals'.
      destruct (Hcalls a eq_refl) as [C3 Hsum]. now apply (Hshape evs3).
Qed.

(** With a batch size of 0 the index never moves: the loop makes no attach
    call and does not end, whatever the number of iterations allowed. *)
Remark attachLoop_zero_batch productId lbl toAttach :
  MEDIA_BATCH_SIZE cfg = 0 ->
  forall fuel i attached s,
    i < Z.of_nat (length toAttach) ->
    fst (attachLoop cfg world fuel productId lbl toAttach i attached s) = OutOfFuel.
Proof.
  intros Hzero. induction fuel as [|fuel IH]; intros i attached s Hi; [reflexivity|].
  cbn [attachLoop]. rewrite Hzero, Z.add_0_r.
  destruct (Z.ltb_spec i (Z.of_nat (length toAttach))) as [_|?]; [|lia].
  assert (Hnil : Js.slice toAttach i i = []).
  { unfold Js.slice. now rewrite Z.sub_diag. }
  rewrite Hnil. unfold attachMediaBatch. cbn [length Nat.eqb].
  unfold bind at 1. unfold ret. unfold bind at 1. unfold console, emit.
  now apply IH.
Qed.

End Batches.

Lemma batch_slicing_witness :
  exists evs,
    trace (snd (processGroup (withBatchSize 2 defaultConfig) emptyCatalog 6 (0, 0)
                             groupCS2 initial)) = evs /\
    attachCalls evs =
      [[mediaNamed "CS2_a.jpg"; mediaNamed "CS2_b.jpg"];
       [mediaNamed "CS2_c.jpg"; mediaNamed "CS2_d.jpg"];
       [mediaNamed "CS2_e.jpg"]] /\
    Z.of_nat (length (attachCalls evs)) = ceilDiv 5 2 /\
    fst (processGroup (withBatchSize 2 defaultConfig) emptyCatalog 6 (0, 0)
                      groupCS2 initial) = Return (5, 0).
Proof.
  destruct (batch_slicing (withBatchSize 2 defaultConfig) emptyCatalog 6 (0, 0) "CS2"
              (snd groupCS2) initial product1 afterLookup2 ∅ afterListing2
              (fst (processGroup (withBatchSize 2 defaultConfig) emptyCatalog 6 (0, 0)
                                 groupCS2 initial))
              (snd (processGroup (withBatchSize 2 defaultConfig) emptyCatalog 6 (0, 0)
                                 groupCS2 initial)))
    as (_ & _ & H).
  - reflexivity.
  - cbn. lia.
  - vm_compute. reflexivity.
  - reflexivity.
  - vm_compute. reflexivity.
  - vm_compute. lia.
  - apply surjective_pairing.
  - destruct (H (5, 0)) as (evs & T & C & N & _); [vm_compute; reflexivity|].
    exists evs. split; [exact T|]. split; [exact C|]. split; [exact N|].
    vm_compute. reflexivity.
Defined.

(** ** Simulate-only mode *)

Section DryRun.

Variable host : Host.
Variable cfg : Config.
Variable world : World.
Hypothesis dry : DRY_RUN cfg = true.

Lemma attachesNothing_noise e : isRetryNoise e = true -> attachesNothing e.
Proof.
  destruct e as [| | |[]]; try discriminate; intros _; split;
    try reflexivity; intros a k [].
Qed.

Lemma attachesNothing_read q a : batchOf q = [] -> attachesNothing (GqlPost q a).
Proof. intros Hq. split; [exact Hq|]. intros ? ? []. Qed.

Lemma attachesNothing_line l :
  (forall a k, l = Summary a k -> a = 0) -> attachesNothing (Console l).
Proof.
  intros Hl. split; [reflexivity|]. intros a k Hin.
  destruct l; cbn [summaryOf In] in Hin; try contradiction.
  destruct Hin as [Hin|[]]. inversion Hin; subst. now apply (Hl a k).
Qed.

Ltac not_a_summary := apply attachesNothing_line; intros ? ? E; discriminate E.

(** In dry-run mode the processing of a group sends no mutation and leaves
    the attached total as it was. *)
Lemma processGroup_dry fuel totals g :
  emits (processGroup cfg world fuel totals g) attachesNothing
        (fun totals' => fst totals' = fst totals).
Proof.
  unfold processGroup. destruct totals as [attached skipped], g as [code allMedias].
  apply emits_then.
  { apply findProductIdByHandleOrSku_emits;
      [apply attachesNothing_noise|apply attachesNothing_read]. }
  intros productId. destruct (negb (Json.truthy productId)).
  { apply emits_then; [apply emits_event; not_a_summary|]. intros _. now apply emits_ret. }
  eapply emits_bind.
  { apply getExistingMediaAlts_emits;
      [apply attachesNothing_noise|apply attachesNothing_read]. }
  intros existingAlts _. cbn beta zeta. rewrite dry.
  destruct (Nat.eqb _ 0).
  - apply emits_then; [apply emits_event; not_a_summary|]. intros _. now apply emits_ret.
  - apply emits_then; [apply emits_event; not_a_summary|]. intros _. now apply emits_ret.
Qed.

Lemma forGroups_dry fuel gs :
  forall totals,
    emits (forGroups cfg world fuel totals gs) attachesNothing
          (fun totals' => fst totals' = fst totals).
Proof.
  induction gs as [|g gs IH]; intros totals; cbn [forGroups]; [now apply emits_ret|].
  eapply emits_bind; [apply processGroup_dry|]. cbn beta. intros totals' E.
  eapply emits_weaken; [apply IH|auto|]. cbn beta. intros t Ht. congruence.
Qed.

Lemma fetchGhlFiles_emits P :
  P GhlGet -> emits (fetchGhlFiles host world) P (fun _ => True).
Proof.
  intros Hp. unfold fetchGhlFiles.
  apply emits_then; [now apply emits_event|]. intros _.
  destruct (ghlAnswer world) as [res|]; [|apply emits_throw].
  destruct (negb (g_ok res)); [apply emits_throw|].
  destruct (g_json res) as [[]|]; try apply emits_throw; now apply emits_ret.
Qed.

Lemma main_dry fuel : emits (main host cfg world fuel) attachesNothing (fun _ => True).
Proof.
  unfold main.
  apply emits_then.
  { apply fetchGhlFiles_emits. split; [reflexivity|intros ? ? []]. }
  intros files. destruct (Nat.eqb _ 0); [apply emits_event; not_a_summary|].
  destruct (Nat.eqb _ 0); [apply emits_event; not_a_summary|].
  eapply emits_bind; [apply forGroups_dry|]. cbn [fst]. intros totals Hzero.
  apply emits_then; [apply emits_event; not_a_summary|]. intros _.
  apply emits_then.
  { apply emits_event, attachesNothing_line. intros a k E. inversion E. congruence. }
  intros _. apply emits_event. not_a_summary.
Qed.

Lemma processGroup_dry_total fuel totals g : total (processGroup cfg world fuel totals g).
Proof.
  unfold processGroup. destruct totals as [attached skipped], g as [code allMedias].
  apply total_bind; [apply findProductIdByHandleOrSku_total|]. intros productId.
  destruct (negb _).
  { apply total_bind; [apply total_emit|]. intros _. apply total_ret. }
  apply total_bind; [apply getExistingMediaAlts_total|]. intros existingAlts.
  cbn beta zeta. rewrite dry.
  destruct (Nat.eqb _ 0);
    (apply total_bind; [apply total_emit|]; intros _; apply total_ret).
Qed.

Lemma main_dry_total fuel : total (main host cfg world fuel).
Proof.
  unfold main. apply total_bind.
  { unfold fetchGhlFiles. apply total_bind; [apply total_emit|]. intros _.
    destruct (ghlAnswer world) as [res|]; [|apply total_throw].
    destruct (negb (g_ok res)); [apply total_throw|].
    destruct (g_json res) as [[]|]; try apply total_throw; apply total_ret. }
  intros files. destruct (Nat.eqb _ 0); [apply total_emit|].
  destruct (Nat.eqb _ 0); [apply total_emit|].
  apply total_bind.
  { generalize (0, 0). induction (groupFiles host cfg files) as [|g gs IH];
      intros totals; cbn [forGroups]; [apply total_ret|].
    apply total_bind; [apply processGroup_dry_total|]. intros totals'. apply IH. }
  intros totals.
  apply total_bind; [apply total_emit|]. intros _.
  apply total_bind; [apply total_emit|]. intros _. apply total_emit.
Qed.

Lemma sentBatches_none (t : list Event) :
  Forall attachesNothing t -> sentBatches t = [].
Proof.
  induction 1 as [|e t [He _] _ IH]; [reflexivity|].
  unfold sentBatches in *. cbn [flat_map]. now rewrite He, IH.
Qed.

Lemma sentBatches_app (t1 t2 : list Event) :
  sentBatches (t1 ++ t2) = sentBatches t1 ++ sentBatches t2.
Proof. apply flat_map_app. Qed.

Lemma summaries_zero (t : list Event) :
  Forall attachesNothing t -> forall a k, In (a, k) (summaries t) -> a = 0.
Proof.
  intros F a k Hin. unfold summaries in Hin.
  apply List.in_flat_map in Hin as (e & He & Hin).
  rewrite List.Forall_forall in F. destruct (F e He) as [_ Hz]. now apply (Hz a k).
Qed.

(** C7: in simulate-only mode the run ends, on any input, without having
    sent a single create-media mutation; every summary line it prints has an
    attached total of 0; and a group whose product resolved and whose diff
    is not empty prints the number of media that would have been attached,
    counts the others as skipped and leaves the attached total alone. *)
Theorem dry_run_attaches_nothing fuel :
  fst (run host cfg world fuel) <> None /\
  sentBatches (trace (snd (run host cfg world fuel))) = [] /\
  (forall a k, In (a, k) (summaries (trace (snd (run host cfg world fuel)))) -> a = 0) /\
  (forall totals code allMedias s productId s1 (S : gset string) s2,
     findProductIdByHandleOrSku cfg world (deriveHandleFromCode cfg code) code s
       = (Return productId, s1) ->
     Json.truthy productId = true ->
     getExistingMediaAlts cfg world productId s1 = (Return S, s2) ->
     toAttachOf S allMedias <> [] ->
     processGroup cfg world fuel totals (code, allMedias) s =
       (Return (fst totals,
                snd totals +
                  Z.of_nat (length (List.filter (fun m => has S (Js.trim (alt m))) allMedias))),
        {| sent := sent s2;
           trace := trace s2 ++
             [Console (DryRunWouldAttach
                         (Z.of_nat (length (toAttachOf S allMedias)))
                         (label (deriveHandleFromCode cfg code) code))] |})).
Proof.
  assert (Hrun : exists evs, Forall attachesNothing evs /\
            (trace (snd (run host cfg world fuel)) = evs \/
             exists e, trace (snd (run host cfg world fuel)) = evs ++ [Console (SyncFailed e)])).
  { unfold run. destruct (main host cfg world fuel initial) as [out s'] eqn:Hmain.
    destruct (main_dry fuel _ _ _ Hmain) as (evs & T & F & _). cbn [initial trace app] in T.
    exists evs. split; [exact F|].
    destruct out as [[]|e|]; cbn [snd trace]; rewrite T; eauto. }
  destruct Hrun as (evs & F & Hcases).
  assert (Hall : Forall attachesNothing (trace (snd (run host cfg world fuel)))).
  { destruct Hcases as [-> | (e & ->)]; [exact F|].
    apply Forall_app_2; [exact F|]. repeat constructor. intros ? ? []. }
  split; [|split; [|split]].
  - unfold run. pose proof (main_dry_total fuel initial) as Htot.
    destruct (main host cfg world fuel initial) as [[[]|e|] s']; cbn [fst] in *;
      congruence.
  - now apply sentBatches_none.
  - now apply summaries_zero.
  - intros [attached skipped] code allMedias s productId s1 S s2 Hfind Htruthy Halts Hne.
    unfold processGroup.
    rewrite (bind_return _ _ _ _ _ Hfind). rewrite Htruthy. cbn [negb].
    rewrite (bind_return _ _ _ _ _ Halts). rewrite dry, skipped_count.
    destruct (toAttachOf S allMedias) as [|m l]; [congruence|]. reflexivity.
Qed.

End DryRun.

Lemma dry_run_attaches_nothing_witness :
  run plainHost (withDryRun defaultConfig) twoFilesOneKnown 0 =
    (Some 0,
     {| sent := 2;
        trace := [GhlGet; GqlPost (ProductByHandle "cs1") 1;
                  GqlPost (ProductMedia product1) 1;
                  Console (DryRunWouldAttach 1 "cs1");
                  Console Rule; Console (Summary 0 1); Console DoneLine] |}) /\
  sentBatches (trace (snd (run plainHost (withDryRun defaultConfig) twoFilesOneKnown 0))) = [] /\
  processGroup (withDryRun defaultConfig) catalogWithBack 0 (0, 0) groupCS1 initial =
    (Return (0, 1),
     {| sent := 2;
        trace := [GqlPost (ProductByHandle "cs1") 1; GqlPost (ProductMedia product1) 1;
                  Console (DryRunWouldAttach 2 "cs1")] |}).
Proof.
  destruct (dry_run_attaches_nothing plainHost (withDryRun defaultConfig)
              twoFilesOneKnown eq_refl 0) as (_ & Hnone & _ & _).
  destruct (dry_run_attaches_nothing plainHost (withDryRun defaultConfig)
              catalogWithBack eq_refl 0) as (_ & _ & _ & Hgroup).
  split; [vm_compute; reflexivity|]. split; [exact Hnone|].
  pose proof (Hgroup (0, 0) "CS1" (snd groupCS1) initial product1 afterLookup
                     (list_to_set ["CS1_back.jpg"]) afterListing) as H.
  change groupCS1 with ("CS1", snd groupCS1).
  rewrite H.
  - vm_compute. reflexivity.
  - vm_compute. reflexivity.
  - reflexivity.
  - vm_compute. reflexivity.
  - vm_compute. discriminate.
Defined.

(** ** Failure of a Catalog Operation *)

Section Abort.

Variable host : Host.
Variable cfg : Config.
Variable world : World.

Lemma forGroups_app fuel (pre rest : Groups) :
  forall totals s,
    forGroups cfg world fuel totals (pre ++ rest) s =
    bind (forGroups cfg world fuel totals pre)
         (fun totals' => forGroups cfg world fuel totals' rest) s.
Proof.
  induction pre as [|g pre IH]; intros totals s; cbn [app forGroups]; [reflexivity|].
  rewrite bind_assoc. apply bind_ext. intros totals' s1. apply IH.
Qed.

(** A failing Catalog Operation call fails the processing of its group. *)
Lemma processGroup_fails fuel totals g s e s' :
  catalogCallFails cfg world fuel (fst totals) g s e s' ->
  processGroup cfg world fuel totals g s = (Throw e, s').
Proof.
  destruct totals as [attached skipped], g as [code allMedias].
  unfold catalogCallFails, processGroup. cbn [fst snd].
  intros [Hfind | [(productId & s1 & Hfind & Ht & Halts)
                  | (productId & s1 & S & s2 & Hfind & Ht & Halts & Hne & Hdry & Hloop)]].
  - now apply bind_throw.
  - rewrite (bind_return _ _ _ _ _ Hfind), Ht. cbn [negb]. now apply bind_throw.
  - rewrite (bind_return _ _ _ _ _ Hfind), Ht. cbn [negb].
    rewrite (bind_return _ _ _ _ _ Halts), Hdry.
    destruct (toAttachOf S allMedias) as [|m l] eqn:E; [congruence|].
    cbn [length Nat.eqb]. now apply bind_throw.
Qed.

(** C8: when a Catalog Operation call (product lookup, media listing or
    attach) raises during the processing of a group, the processing of that
    group, the loop over the groups and the run all end with that error, in
    the state the failing call left: nothing is done for the groups that
    follow, and the exit status is 1. *)
Theorem whole_run_abort fuel files s1 pre g post totals s2 e s3 :
  fetchGhlFiles host world initial = (Return files, s1) ->
  groupFiles host cfg files = pre ++ g :: post ->
  forGroups cfg world fuel (0, 0) pre s1 = (Return totals, s2) ->
  catalogCallFails cfg world fuel (fst totals) g s2 e s3 ->
  processGroup cfg world fuel totals g s2 = (Throw e, s3) /\
  forGroups cfg world fuel (0, 0) (pre ++ g :: post) s1 = (Throw e, s3) /\
  main host cfg world fuel initial = (Throw e, s3) /\
  run host cfg world fuel =
    (Some 1, {| sent := sent s3; trace := trace s3 ++ [Console (SyncFailed e)] |}).
Proof.
  intros Hfetch Hgroups Hpre Hfail.
  pose proof (processGroup_fails _ _ _ _ _ _ Hfail) as Hg.
  assert (Hloop : forGroups cfg world fuel (0, 0) (pre ++ g :: post) s1 = (Throw e, s3)).
  { rewrite forGroups_app, (bind_return _ _ _ _ _ Hpre). cbn [forGroups].
    now apply bind_throw. }
  assert (Hmain : main host cfg world fuel initial = (Throw e, s3)).
  { unfold main. rewrite (bind_return _ _ _ _ _ Hfetch).
    assert (Hfiles : (length files =? 0)%nat = false).
    { destruct files; [|reflexivity]. destruct pre; discriminate Hgroups. }
    rewrite Hfiles, Hgroups.
    assert (Hn : (length (pre ++ g :: post) =? 0)%nat = false).
    { destruct pre; reflexivity. }
    rewrite Hn. now apply bind_throw. }
  repeat split; [exact Hg|exact Hloop|exact Hmain|].
  unfold run. now rewrite Hmain.
Qed.

End Abort.

Lemma whole_run_abort_witness :
  run plainHost defaultConfig secondLookupDenied 2 =
    (Some 1,
     {| sent := 4;
        trace :=
          [GhlGet;
           GqlPost (ProductByHandle "cs1") 1;
           GqlPost (ProductMedia product1) 1;
           GqlPost (ProductCreateMedia product1 [mediaNamed "CS1_front.jpg"]) 1;
           Console (Attached 1 1 "cs1");
           GqlPost (ProductByHandle "cs2") 1;
           Console (SyncFailed (GraphQLHttpError 401 "unavailable"))] |}).
Proof.
  epose proof (whole_run_abort plainHost defaultConfig secondLookupDenied 2
                 _ _ [groupOf "CS1" "CS1_front.jpg"] (groupOf "CS2" "CS2_a.jpg")
                 [groupOf "CS3" "CS3_a.jpg"] _ _ _ _) as H.
  destruct H as (_ & _ & _ & Hrun).
  - vm_compute. reflexivity.
  - vm_compute. reflexivity.
  - vm_compute. reflexivity.
  - left. vm_compute. reflexivity.
  - rewrite Hrun. reflexivity.
Defined.

(** * Further properties of the script *)

(** ** Strings *)

Lemma str_chars (s : string) : Js.str (Js.chars s) = s.
Proof. apply string_of_list_ascii_of_string. Qed.

Lemma chars_str (l : list ascii) : Js.chars (Js.str l) = l.
Proof. apply list_ascii_of_string_of_list_ascii. Qed.

Lemma str_app (a b : list ascii) : Js.str (a ++ b) = (Js.str a ++ Js.str b)%string.
Proof. unfold Js.str. induction a as [|c a IH]; simpl; [reflexivity|now rewrite IH]. Qed.

Lemma str_length (l : list ascii) : String.length (Js.str l) = length l.
Proof. unfold Js.str. induction l as [|c l IH]; simpl; [reflexivity|now rewrite IH]. Qed.

Lemma isEmpty_str (l : list ascii) : Js.isEmpty (Js.str l) = true <-> l = [].
Proof. destruct l; simpl; split; congruence. Qed.

Lemma isEmpty_true (s : string) : Js.isEmpty s = true <-> s = "".
Proof. destruct s; simpl; split; congruence. Qed.

Lemma isEmpty_false (s : string) : Js.isEmpty s = false <-> s <> "".
Proof. destruct s; simpl; split; congruence. Qed.

Lemma lowerChar_idem (c : ascii) : Js.lowerChar (Js.lowerChar c) = Js.lowerChar c.
Proof. destruct c as [[] [] [] [] [] [] [] []]; reflexivity. Qed.

Lemma toLowerCase_idem (s : string) : Js.toLowerCase (Js.toLowerCase s) = Js.toLowerCase s.
Proof.
  unfold Js.toLowerCase. rewrite chars_str, map_map. f_equal.
  apply map_ext. intros c. apply lowerChar_idem.
Qed.

Lemma toLowerCase_isEmpty (s : string) : Js.isEmpty (Js.toLowerCase s) = Js.isEmpty s.
Proof. destruct s; reflexivity. Qed.

(** What [trimStart] removes is white space, and what it leaves does not
    start with white space. *)
Lemma trimStartL_split (l : list ascii) :
  exists ws, l = ws ++ Js.trimStartL l /\ forallb Js.isWhiteSpace ws = true.
Proof.
  induction l as [|c l (ws & E & W)]; [now exists []|].
  cbn [Js.trimStartL]. destruct (Js.isWhiteSpace c) eqn:Hc.
  - exists (c :: ws). cbn [forallb app]. rewrite Hc, W. split; [now rewrite <- E|reflexivity].
  - now exists [].
Qed.

Lemma trimStartL_head (l : list ascii) c r :
  Js.trimStartL l = c :: r -> Js.isWhiteSpace c = false.
Proof.
  induction l as [|x l IH]; [discriminate|]. cbn [Js.trimStartL].
  destruct (Js.isWhiteSpace x) eqn:Hx; [exact IH|]. intros E. now inversion E; subst.
Qed.

Lemma trimStartL_fixed (l : list ascii) :
  (forall c r, l = c :: r -> Js.isWhiteSpace c = false) -> Js.trimStartL l = l.
Proof.
  destruct l as [|c r]; [reflexivity|]. intros H. cbn [Js.trimStartL].
  now rewrite (H c r eq_refl).
Qed.

Lemma trimStartL_idem (l : list ascii) : Js.trimStartL (Js.trimStartL l) = Js.trimStartL l.
Proof. apply trimStartL_fixed. intros c r E. now apply (trimStartL_head l c r). Qed.

(** What [trim] returns neither starts nor ends with white space. *)
Lemma trimL_fixed (l : list ascii) :
  let b := Js.trimEndL (Js.trimStartL l) in
  Js.trimStartL b = b /\ Js.trimEndL b = b.
Proof.
  cbn zeta. unfold Js.trimEndL. set (a := Js.trimStartL l).
  destruct (trimStartL_split (rev a)) as (ws & E & _).
  set (t := Js.trimStartL (rev a)) in *.
  split.
  - apply trimStartL_fixed. intros c r Hb.
    assert (Ha : a = (c :: r) ++ rev ws).
    { rewrite <- Hb, <- rev_app_distr, <- E. now rewrite rev_involutive. }
    apply (trimStartL_head l c (r ++ rev ws)). exact Ha.
  - rewrite rev_involutive. unfold t. now rewrite trimStartL_idem.
Qed.

Lemma trim_idem (s : string) : Js.trim (Js.trim s) = Js.trim s.
Proof.
  unfold Js.trim. rewrite chars_str.
  destruct (trimL_fixed (Js.chars s)) as [H1 H2]. now rewrite H1, H2.
Qed.

(** ** The masking function, again *)

Lemma mask_long (s : string) :
  6 < Js.strlen s ->
  mask s = (firstChars 3 s ++ "***" ++ lastChars 3 s)%string.
Proof.
  intros Hlen. unfold mask, Js.strlen in *.
  destruct s as [|c s]; [simpl in Hlen; lia|]. cbn [Js.isEmpty].
  destruct (Z.leb_spec (Z.of_nat (String.length (String c s))) 6) as [?|_]; [lia|].
  unfold Js.sliceFrom, Js.sliceStr, Js.strlen, firstChars, lastChars.
  rewrite !substring_firstn_skipn.
  rewrite <- (chars_length (String c s)) in *.
  rewrite slice_head by lia. rewrite (slice_tail _ 3) by lia. reflexivity.
Qed.

(** X1: the middle of a long secret never reaches the output of [mask]:
    two secrets of more than 6 characters with the same first 3 and the same
    last 3 characters are masked alike, whatever lies between and however
    long they are. *)
Theorem mask_hides_the_middle (s1 s2 : string) :
  6 < Js.strlen s1 -> 6 < Js.strlen s2 ->
  firstChars 3 s1 = firstChars 3 s2 ->
  lastChars 3 s1 = lastChars 3 s2 ->
  mask s1 = mask s2.
Proof.
  intros H1 H2 Hf Hl. rewrite (mask_long s1 H1), (mask_long s2 H2). now rewrite Hf, Hl.
Qed.

Lemma mask_hides_the_middle_witness :
  mask "shpat_0123456789abcdef" = mask "shpXXXXdef".
Proof.
  apply mask_hides_the_middle; vm_compute; reflexivity.
Defined.

(** ** File extensions *)

Lemma matchExt_shape (l m : list ascii) :
  matchExt l = Some m ->
  exists pre r, l = pre ++ m /\ m = "."%char :: r /\ r <> [] /\
                forallb isExtChar r = true.
Proof.
  induction l as [|c l IH]; [discriminate|]. cbn [matchExt].
  destruct (Ascii.eqb c "." && negb (length l =? 0)%nat && forallb isExtChar l) eqn:Hc.
  - intros E. inversion E; subst m. exists [], l.
    apply andb_true_iff in Hc as [Hc Hall]. apply andb_true_iff in Hc as [Hdot Hne].
    apply Ascii.eqb_eq in Hdot. subst c.
    repeat split; [|exact Hall]. intros ->. discriminate Hne.
  - intros E. destruct (IH E) as (pre & r & -> & Hm & Hr & Hall).
    exists (c :: pre), r. now repeat split.
Qed.

(** X2: [extOf] returns the empty string or a lower-case extension: a dot
    followed by one or more characters of [a-z0-9], which is how the name,
    put in lower case, ends. *)
Theorem extOf_shape (n : string) :
  extOf n = "" \/
  exists pre r,
    Js.toLowerCase n = (pre ++ extOf n)%string /\
    extOf n = String "." r /\ r <> "" /\
    forallb isExtChar (Js.chars r) = true.
Proof.
  unfold extOf. destruct (matchExt (Js.chars (Js.toLowerCase n))) as [m|] eqn:E; [|now left].
  right. destruct (matchExt_shape _ _ E) as (pre & r & Hl & -> & Hr & Hall).
  exists (Js.str pre), (Js.str r). repeat split.
  - rewrite <- str_app, <- Hl. symmetry. apply str_chars.
  - intros H. apply isEmpty_true in H. apply isEmpty_str in H. contradiction.
  - now rewrite chars_str.
Qed.

Lemma extOf_toLowerCase (n : string) : extOf (Js.toLowerCase n) = extOf n.
Proof. unfold extOf. now rewrite toLowerCase_idem. Qed.

Lemma orStr_lower (a : option string) (b : string) :
  Js.toLowerCase (Js.orStr a b) =
  Js.orStr (option_map Js.toLowerCase a) (Js.toLowerCase b).
Proof.
  destruct a as [s|]; [|reflexivity]. cbn [option_map Js.orStr].
  rewrite toLowerCase_isEmpty. now destruct (Js.isEmpty s).
Qed.

Lemma orElse_lower (a b : option string) :
  option_map Js.toLowerCase (Js.orElse a b) =
  Js.orElse (option_map Js.toLowerCase a) (option_map Js.toLowerCase b).
Proof.
  unfold Js.orElse, Js.truthyStr. destruct a as [s|]; [|reflexivity].
  cbn [option_map]. rewrite toLowerCase_isEmpty. now destruct (Js.isEmpty s).
Qed.

Lemma guessMediaType_unfold (host : Host) (f : FileObj) :
  guessMediaType host f =
  if Js.startsWith (declaredMime f) "image/" || has IMAGE_EXT (extOf (nameOf host f))
  then IMAGE
  else if Js.startsWith (declaredMime f) "video/" || has VIDEO_EXT (extOf (nameOf host f))
       then VIDEO else EXTERNAL_VIDEO.
Proof. reflexivity. Qed.

Lemma declaredMime_lower (f : FileObj) : declaredMime (lowerNames f) = declaredMime f.
Proof.
  unfold declaredMime, lowerNames. cbn [f_mime f_type].
  rewrite <- orElse_lower.
  rewrite <- (toLowerCase_idem (Js.orStr (Js.orElse (f_mime f) (f_type f)) "")).
  rewrite (orStr_lower (Js.orElse (f_mime f) (f_type f)) "").
  reflexivity.
Qed.

Lemma extOf_nameOf_lower (host : Host) (f : FileObj) :
  extOf (nameOf host (lowerNames f)) = extOf (nameOf host f).
Proof.
  unfold nameOf, lowerNames. cbn [f_name f_url].
  destruct (f_name f) as [n|]; [|reflexivity]. cbn [option_map Js.orStr].
  rewrite toLowerCase_isEmpty. destruct (Js.isEmpty n); [reflexivity|].
  apply extOf_toLowerCase.
Qed.

(** X3: the classification does not depend on the letter case of the name
    or of the declared type: a file and the same file with its [name],
    [mime] and [type] in lower case are classified alike. *)
Theorem guessMediaType_ignores_case (host : Host) (f : FileObj) :
  guessMediaType host (lowerNames f) = guessMediaType host f.
Proof.
  rewrite !guessMediaType_unfold.
  now rewrite declaredMime_lower, extOf_nameOf_lower.
Qed.

(** ** The name taken from a URL *)

Lemma lastSegmentL_spec (l : list ascii) :
  forall acc,
    ~ In "/"%char acc ->
    ~ In "/"%char (Js.lastSegmentL acc l) /\
    exists pre, acc ++ l = pre ++ Js.lastSegmentL acc l.
Proof.
  induction l as [|c l IH]; intros acc Hacc; cbn [Js.lastSegmentL].
  - split; [exact Hacc|]. exists []. now rewrite app_nil_r.
  - destruct (Ascii.eqb_spec c "/") as [->|Hc].
    + destruct (IH [] (fun H => H)) as [Hno (pre & E)]. split; [exact Hno|].
      exists (acc ++ "/"%char :: pre). cbn [app] in E.
      rewrite <- app_assoc. cbn [app]. do 2 f_equal. exact E.
    + destruct (IH (acc ++ [c])) as [Hno (pre & E)].
      { rewrite in_app_iff. intros [H|[H|[]]]; [now apply Hacc|congruence]. }
      split; [exact Hno|]. exists pre. rewrite <- E, <- app_assoc. reflexivity.
Qed.

Lemma lastSegmentL_no_slash (l : list ascii) :
  forall acc, ~ In "/"%char l -> Js.lastSegmentL acc l = acc ++ l.
Proof.
  induction l as [|c l IH]; intros acc Hl; cbn [Js.lastSegmentL]; [now rewrite app_nil_r|].
  destruct (Ascii.eqb_spec c "/") as [->|Hc]; [exfalso; apply Hl; now left|].
  rewrite IH by (intros H; apply Hl; now right). now rewrite <- app_assoc.
Qed.

(** X4: when the host cannot parse the URL, [filenameFromUrl] returns what
    follows its last slash: a suffix of the URL that holds no slash, and the
    whole URL when the URL holds none. *)
Theorem filenameFromUrl_fallback (host : Host) (u : string) :
  urlPathname host u = None ->
  (exists pre, u = (pre ++ filenameFromUrl host (Some u))%string) /\
  ~ In "/"%char (Js.chars (filenameFromUrl host (Some u))) /\
  (~ In "/"%char (Js.chars u) -> filenameFromUrl host (Some u) = u).
Proof.
  intros Hu. unfold filenameFromUrl. rewrite Hu, orStr_some. unfold Js.lastSegment.
  destruct (lastSegmentL_spec (Js.chars u) [] (fun H => H)) as [Hno (pre & E)].
  cbn [app] in E. split; [|split].
  - exists (Js.str pre). rewrite <- str_app, <- E. symmetry. apply str_chars.
  - now rewrite chars_str.
  - intros Hu'. rewrite lastSegmentL_no_slash by exact Hu'. apply str_chars.
Qed.

Lemma filenameFromUrl_fallback_witness :
  (exists pre, "media/2024/CS4 side.png" =
               (pre ++ filenameFromUrl plainHost (Some "media/2024/CS4 side.png"))%string) /\
  filenameFromUrl plainHost (Some "media/2024/CS4 side.png") = "CS4 side.png".
Proof.
  destruct (filenameFromUrl_fallback plainHost "media/2024/CS4 side.png" eq_refl)
    as (Hpre & _ & _).
  split; [exact Hpre|reflexivity].
Defined.

(** ** The configuration resolver *)

Lemma falsy_or_blank (v : string) :
  negb (Js.isEmpty v) && negb (Js.isEmpty (Js.trim v)) = false -> Js.trim v = "".
Proof.
  destruct v as [|c v]; [reflexivity|]. cbn [Js.isEmpty negb andb].
  intros H. apply negb_false_iff in H. now apply isEmpty_true.
Qed.

Lemma resolveFirst_some env keys r :
  resolveFirst env keys = Some r ->
  exists pre post v,
    keys = pre ++ source r :: post /\
    List.Forall (blank env) pre /\
    env !! source r = Some v /\ value r = Js.trim v /\ value r <> "".
Proof.
  induction keys as [|k keys IH]; [discriminate|]. cbn [resolveFirst].
  destruct (env !! k) as [v|] eqn:Hk.
  - destruct (negb (Js.isEmpty v) && negb (Js.isEmpty (Js.trim v))) eqn:Hv.
    + intros E. inversion E; subst r. cbn [source value].
      exists [], keys, v. repeat split; [constructor|exact Hk|].
      apply andb_true_iff in Hv as [_ Hv]. apply negb_true_iff in Hv.
      now apply isEmpty_false.
    + intros E. destruct (IH E) as (pre & post & v' & -> & Hpre & Hv').
      exists (k :: pre), post, v'. repeat split; try apply Hv'.
      constructor; [|exact Hpre]. intros w Hw. rewrite Hk in Hw. inversion Hw; subst w.
      now apply falsy_or_blank.
  - intros E. destruct (IH E) as (pre & post & v' & -> & Hpre & Hv').
    exists (k :: pre), post, v'. repeat split; try apply Hv'.
    constructor; [|exact Hpre]. intros w Hw. congruence.
Qed.

Lemma resolveFirst_none env keys :
  resolveFirst env keys = None <-> List.Forall (blank env) keys.
Proof.
  induction keys as [|k keys IH]; cbn [resolveFirst]; [split; [constructor|reflexivity]|].
  destruct (env !! k) as [v|] eqn:Hk.
  - destruct (negb (Js.isEmpty v) && negb (Js.isEmpty (Js.trim v))) eqn:Hv.
    + split; [discriminate|]. intros H. inversion H as [|? ? Hb _]; subst.
      specialize (Hb v Hk). apply andb_true_iff in Hv as [_ Hv].
      apply negb_true_iff, isEmpty_false in Hv. contradiction.
    + rewrite IH. split.
      * intros H. constructor; [|exact H]. intros w Hw. rewrite Hk in Hw.
        inversion Hw; subst w. now apply falsy_or_blank.
      * intros H. now inversion H.
  - rewrite IH. split.
    + intros H. constructor; [|exact H]. intros w Hw. congruence.
    + intros H. now inversion H.
Qed.

(** X5: a non-empty value returned by [resolveEnv] is the trimmed value of
    the key named as its source; that key is the first of the accepted keys
    that is set to something not blank, every key before it being unset,
    empty or blank; and the value is already trimmed. *)
Theorem resolveEnv_first_match env keys required name r :
  resolveEnv env keys required name = inr r ->
  value r <> "" ->
  exists pre post v,
    keys = pre ++ source r :: post /\
    List.Forall (blank env) pre /\
    env !! source r = Some v /\
    value r = Js.trim v /\
    Js.trim (value r) = value r.
Proof.
  unfold resolveEnv. destruct (resolveFirst env keys) as [r'|] eqn:E.
  - intros H Hne. inversion H; subst r'.
    destruct (resolveFirst_some _ _ _ E) as (pre & post & v & Hk & Hpre & Hv & Hval & _).
    exists pre, post, v. repeat split; try assumption.
    rewrite Hval. apply trim_idem.
  - destruct required; [discriminate|]. intros H Hne. inversion H; subst r.
    now contradiction Hne.
Qed.

Lemma resolveEnv_first_match_witness :
  exists pre post v,
    SHOP_KEYS = pre ++ "SHOPIFY_SHOP_DOMAIN" :: post /\
    List.Forall (blank sampleEnv) pre /\
    sampleEnv !! "SHOPIFY_SHOP_DOMAIN" = Some v /\
    "canyonite.myshopify.com" = Js.trim v.
Proof.
  destruct (resolveEnv_first_match sampleEnv SHOP_KEYS true "Shopify domain"
              {| value := "canyonite.myshopify.com"; source := "SHOPIFY_SHOP_DOMAIN" |})
    as (pre & post & v & H1 & H2 & H3 & H4 & _).
  - vm_compute. reflexivity.
  - discriminate.
  - exists pre, post, v. repeat split; assumption.
Defined.

Lemma resolveEnv_optional env keys name msg :
  resolveEnv env keys false name <> inl msg.
Proof. unfold resolveEnv. destruct (resolveFirst env keys); discriminate. Qed.

(** X6: a required setting either resolves to a non-empty value whose
    source is one of the accepted keys, or fails with a message that lists
    all the accepted keys, and it fails exactly when every accepted key is
    unset, empty or blank; an optional setting never fails and resolves to
    the empty value and the empty source in that case. *)
Theorem resolveEnv_missing env keys name :
  (forall r, resolveEnv env keys true name = inr r ->
             value r <> "" /\ In (source r) keys) /\
  (forall msg, resolveEnv env keys true name = inl msg ->
               List.Forall (blank env) keys /\
               msg = ("Missing required env " ++ name ++ ": set " ++ join " or " keys)%string) /\
  (List.Forall (blank env) keys ->
   (exists msg, resolveEnv env keys true name = inl msg) /\
   resolveEnv env keys false name = inr {| value := ""; source := "" |}) /\
  (forall msg, resolveEnv env keys false name <> inl msg).
Proof.
  unfold resolveEnv. destruct (resolveFirst env keys) as [r'|] eqn:E.
  - destruct (resolveFirst_some _ _ _ E) as (pre & post & v & Hk & _ & _ & _ & Hne).
    split; [|split; [|split]].
    + intros r H. inversion H; subst r'. split; [exact Hne|].
      rewrite Hk. apply in_or_app. right. now left.
    + discriminate.
    + intros Hall. apply resolveFirst_none in Hall. congruence.
    + discriminate.
  - apply resolveFirst_none in E. split; [|split; [|split]].
    + discriminate.
    + intros msg H. inversion H. now split.
    + intros _. split; [eauto|reflexivity].
    + discriminate.
Qed.

Lemma provided_not_blank env keys :
  provided env keys <-> ~ List.Forall (blank env) keys.
Proof.
  split.
  - intros (k & v & Hin & Hk & Hv) Hall.
    rewrite List.Forall_forall in Hall. now apply Hv, (Hall k Hin).
  - intros Hnot. destruct (resolveFirst env keys) as [r|] eqn:E.
    + destruct (resolveFirst_some _ _ _ E) as (pre & post & v & Hk & _ & Hv & Hval & Hne).
      exists (source r), v. split; [|split; [exact Hv|congruence]].
      rewrite Hk. apply in_or_app. right. now left.
    + apply resolveFirst_none in E. contradiction.
Qed.

Lemma resolveEnv_required_ok env keys name :
  provided env keys <-> exists r, resolveEnv env keys true name = inr r.
Proof.
  rewrite provided_not_blank, <- resolveFirst_none. unfold resolveEnv.
  destruct (resolveFirst env keys) as [r|]; split.
  - eauto.
  - discriminate.
  - congruence.
  - intros [r H]. discriminate.
Qed.

(** X7: start-up succeeds exactly when the domain, the admin token and the
    files endpoint are each set to a value that is not blank, under one of
    their accepted names; the API key is optional. *)
Theorem resolveSettings_succeeds_iff env :
  (exists st, resolveSettings env = inr st) <->
  provided env SHOP_KEYS /\ provided env TOKEN_KEYS /\ provided env ["GHL_FILES_ENDPOINT"].
Proof.
  rewrite (resolveEnv_required_ok env SHOP_KEYS "Shopify domain").
  rewrite (resolveEnv_required_ok env TOKEN_KEYS "Shopify admin token").
  rewrite (resolveEnv_required_ok env ["GHL_FILES_ENDPOINT"] "GHL files endpoint").
  unfold resolveSettings.
  destruct (resolveEnv env SHOP_KEYS true _) as [m1|shop].
  { split; [intros [st H]; discriminate|intros ([r H] & _); discriminate]. }
  destruct (resolveEnv env TOKEN_KEYS true _) as [m2|token].
  { split; [intros [st H]; discriminate|intros (_ & [r H] & _); discriminate]. }
  destruct (resolveEnv env ["GHL_FILES_ENDPOINT"] true _) as [m3|endpoint].
  { split; [intros [st H]; discriminate|intros (_ & _ & [r H]); discriminate]. }
  destruct (resolveEnv env ["GHL_API_KEY"] false "value") as [m4|key] eqn:Hkey.
  { exfalso. now apply (resolveEnv_optional env ["GHL_API_KEY"] "value" m4). }
  split; [intros _; repeat split; eauto|intros _; eauto].
Qed.

(** ** The RPC client, in general *)

Section GqlMore.

Variable cfg : Config.
Variable world : World.

(** The two ways [onResponse] can go: it ends the call in the state it was
    entered in, or, below [MAX_RETRIES], it logs a warning, waits
    [backoff attempt] and retries. *)
Lemma onResponse_cases retry a res s1 out s' :
  onResponse cfg retry a res s1 = (out, s') ->
  (s' = s1 /\ out <> OutOfFuel) \/
  (a < MAX_RETRIES cfg /\
   exists l, isRetryNoise (Console l) = true /\
     retry {| sent := sent s1;
              trace := trace s1 ++ [Console l; Sleep (backoff a)] |} = (out, s')).
Proof.
  unfold onResponse.
  assert (Hagain : forall l,
            isRetryNoise (Console l) = true ->
            a < MAX_RETRIES cfg ->
            bind (console l) (fun _ => bind (sleep (backoff a)) (fun _ => retry)) s1 = (out, s') ->
            a < MAX_RETRIES cfg /\
            exists l, isRetryNoise (Console l) = true /\
              retry {| sent := sent s1;
                       trace := trace s1 ++ [Console l; Sleep (backoff a)] |} = (out, s')).
  { intros l Hl Hlt H. split; [exact Hlt|]. exists l.
    split; [exact Hl|]. unfold bind, console, sleep, emit in H. cbn [sent trace] in H.
    now rewrite <- app_assoc in H. }
  destruct (negb (ok res)).
  - destruct (includes RETRYABLE (status res)); cbn [andb].
    + destruct (Z.ltb_spec a (MAX_RETRIES cfg)) as [Hlt|_].
      * intros H. right. exact (Hagain (WarnHttpRetry _ _ _) eq_refl Hlt H).
      * intros H. inversion H; subst. left. split; [reflexivity|discriminate].
    + intros H. inversion H; subst. left. split; [reflexivity|discriminate].
  - destruct (json res) as [j|].
    + unfold bind at 1. destruct (Json.getProp (Some j) "errors") as [e|errors]; cbn [lift].
      * intros H. inversion H; subst. left. split; [reflexivity|discriminate].
      * unfold ret at 1. destruct (Json.truthy errors).
        -- destruct (Z.ltb_spec a (MAX_RETRIES cfg)) as [Hlt|_].
           ++ intros H. right. exact (Hagain (WarnErrorsRetry _ _) eq_refl Hlt H).
           ++ intros H. inversion H; subst. left. split; [reflexivity|discriminate].
        -- destruct (Json.getProp (Some j) "data") as [e|d]; cbn [lift];
             intros H; inversion H; subst; left; (split; [reflexivity|discriminate]).
    + intros H. inversion H; subst. left. split; [reflexivity|discriminate].
Qed.

Lemma post_state q a s r s1 :
  post world q a s = (r, s1) ->
  s1 = {| sent := S (sent s); trace := trace s ++ [GqlPost q a] |} /\ r <> OutOfFuel.
Proof.
  unfold post. destruct (shopifyAnswer world (sent s)); intros H; inversion H;
    (split; [reflexivity|discriminate]).
Qed.

(** Whatever the Catalog Service answers, a call entered at attempt [a]
    issues attempts [a, a+1, ...], at most up to [MAX_RETRIES], and waits
    [backoff k] after each attempt [k] but the last. *)
Lemma gqlFrom_bounded q :
  forall fuel a s out s',
    (Z.to_nat (MAX_RETRIES cfg - a) < fuel)%nat ->
    gqlFrom cfg world fuel q a s = (out, s') ->
    out <> OutOfFuel /\
    exists n evs,
      (n <= Z.to_nat (MAX_RETRIES cfg - a))%nat /\
      sent s' = (sent s + S n)%nat /\
      trace s' = trace s ++ evs /\
      posts evs = map (pair q) (attemptsFrom a (S n)) /\
      delays evs = map backoff (attemptsFrom a n).
Proof.
  induction fuel as [|fuel IH]; intros a s out s' Hfuel H; [lia|].
  cbn [gqlFrom] in H.
  destruct (bind_inv _ _ _ _ _ H) as [(res & s1 & H1 & H2) | [(e & H1 & ->) | (H1 & ->)]].
  - destruct (post_state _ _ _ _ _ H1) as [-> _].
    destruct (onResponse_cases _ _ _ _ _ _ H2) as [[-> Hout] | (Hlt & l & Hl & Hretry)].
    + split; [exact Hout|]. exists 0%nat, [GqlPost q a]. cbn [sent trace].
      split; [lia|]. split; [lia|]. split; [reflexivity|].
      split; [|reflexivity]. unfold attemptsFrom. cbn. now rewrite Z.add_0_r.
    + apply IH in Hretry; [|lia].
      destruct Hretry as (Hout & n & evs & Hn & Hsent & Htrace & Hposts & Hdelays).
      cbn [sent trace] in Hsent, Htrace.
      split; [exact Hout|].
      exists (S n), ([GqlPost q a; Console l; Sleep (backoff a)] ++ evs).
      split; [lia|]. split; [lia|].
      split; [rewrite Htrace, <- !app_assoc; reflexivity|]. split.
      * unfold posts in *. destruct l; try discriminate Hl; cbn [app flat_map postOf];
          rewrite Hposts; now rewrite (attemptsFrom_S a (S n)).
      * unfold delays in *. destruct l; try discriminate Hl; cbn [app flat_map delayOf];
          rewrite Hdelays; now rewrite (attemptsFrom_S a n).
  - destruct (post_state _ _ _ _ _ H1) as [-> _].
    split; [discriminate|]. exists 0%nat, [GqlPost q a]. cbn [sent trace].
    split; [lia|]. split; [lia|]. split; [reflexivity|].
    split; [|reflexivity]. unfold attemptsFrom. cbn. now rewrite Z.add_0_r.
  - now destruct (post_state _ _ _ _ _ H1) as [_ Hne].
Qed.

(** X8: whatever the Catalog Service answers, one call of [gql] ends (it
    returns or raises), after at least one and at most [max(1, MAX_RETRIES)]
    POSTs of its query numbered 1, 2, ...; between two consecutive
    attempts, and only there, it waits, and the wait after attempt [k] is
    [BASE_DELAY * 2^(k-1)]. *)
Theorem gql_attempts_bounded q s out s' :
  gql cfg world q s = (out, s') ->
  out <> OutOfFuel /\
  exists n evs,
    (1 <= n <= attemptsAllowed cfg)%nat /\
    sent s' = (sent s + n)%nat /\
    trace s' = trace s ++ evs /\
    posts evs = map (pair q) (attemptsFrom 1 n) /\
    delays evs = map backoff (attemptsFrom 1 (n - 1)).
Proof.
  unfold gql, attemptsAllowed. intros H.
  apply gqlFrom_bounded in H; [|lia].
  destruct H as (Hout & n & evs & Hn & Hsent & Htrace & Hposts & Hdelays).
  split; [exact Hout|]. exists (S n), evs.
  replace (S n - 1)%nat with n by lia. repeat split; try assumption; lia.
Qed.

(** X9: a failure that is not transient is not retried, whatever
    [MAX_RETRIES] is: an HTTP status outside 200..299 that is not one of
    429, 500, 502, 503, 504, a rejected fetch, and a 2xx body that is not
    JSON each end the call after its first POST, without any delay. *)
Theorem gql_gives_up_at_once q s :
  (forall r, shopifyAnswer world (sent s) = Answered r ->
             ok r = false -> includes RETRYABLE (status r) = false ->
             gql cfg world q s =
               (Throw (GraphQLHttpError (status r) (text r)),
                {| sent := S (sent s); trace := trace s ++ [GqlPost q 1] |})) /\
  (shopifyAnswer world (sent s) = Rejected ->
   gql cfg world q s =
     (Throw FetchError, {| sent := S (sent s); trace := trace s ++ [GqlPost q 1] |})) /\
  (forall r, shopifyAnswer world (sent s) = Answered r ->
             ok r = true -> json r = None ->
             gql cfg world q s =
               (Throw SyntaxError,
                {| sent := S (sent s); trace := trace s ++ [GqlPost q 1] |})).
Proof.
  unfold gql. cbn [gqlFrom]. unfold bind, post, onResponse. repeat split.
  - intros r -> Hok Hre. now rewrite Hok, Hre.
  - now intros ->.
  - intros r -> Hok Hj. now rewrite Hok, Hj.
Qed.

(** One attempt that ends in an [errors] payload and is retried. *)
Lemma gqlFrom_retry_errors fuel q a s r e :
  shopifyAnswer world (sent s) = Answered r ->
  reportsErrors r e ->
  a < MAX_RETRIES cfg ->
  gqlFrom cfg world (S fuel) q a s =
  gqlFrom cfg world fuel q (a + 1)
    {| sent := S (sent s);
       trace := trace s ++ [GqlPost q a; Console (WarnErrorsRetry a (backoff a));
                            Sleep (backoff a)] |}.
Proof.
  intros Hans (Hok & j & Hj & He & Ht) Hlt.
  cbn [gqlFrom]. unfold bind at 1. unfold post, onResponse. rewrite Hans, Hok, Hj.
  cbn [negb]. unfold bind at 1. rewrite He. cbn [lift ret]. rewrite Ht.
  destruct (Z.ltb_spec a (MAX_RETRIES cfg)) as [_|?]; [|lia].
  unfold bind, console, sleep, emit. cbn [sent trace].
  rewrite <- !app_assoc. reflexivity.
Qed.

Lemma gqlFrom_exhausted_errors fuel q a s r e :
  shopifyAnswer world (sent s) = Answered r ->
  reportsErrors r e ->
  MAX_RETRIES cfg <= a ->
  gqlFrom cfg world (S fuel) q a s =
  (Throw (GraphQLErrors e),
   {| sent := S (sent s); trace := trace s ++ [GqlPost q a] |}).
Proof.
  intros Hans (Hok & j & Hj & He & Ht) Hge.
  cbn [gqlFrom]. unfold bind at 1. unfold post, onResponse. rewrite Hans, Hok, Hj.
  cbn [negb]. unfold bind at 1. rewrite He. cbn [lift ret]. rewrite Ht.
  destruct (Z.ltb_spec a (MAX_RETRIES cfg)) as [?|_]; [lia|]. reflexivity.
Qed.

Lemma gqlFrom_all_retried q :
  forall n a fuel s,
    n = Z.to_nat (MAX_RETRIES cfg - a) ->
    (n < fuel)%nat ->
    (forall k, (k <= n)%nat ->
       exists r, shopifyAnswer world (sent s + k) = Answered r /\ retriedFailure r) ->
    exists r err evs,
      shopifyAnswer world (sent s + n) = Answered r /\ lastError r err /\
      gqlFrom cfg world fuel q a s =
        (Throw err, {| sent := sent s + S n; trace := trace s ++ evs |}) /\
      posts evs = map (pair q) (attemptsFrom a (S n)) /\
      delays evs = map backoff (attemptsFrom a n).
Proof.
  induction n as [|n IH]; intros a fuel s Hn Hfuel Hall.
  - destruct fuel as [|fuel]; [lia|].
    destruct (Hall 0%nat) as (r & Hans & err & Herr); [lia|].
    rewrite Nat.add_0_r in *.
    exists r, err, [GqlPost q a]. split; [exact Hans|]. split; [exact Herr|].
    split; [|split].
    + destruct Herr as [[Hfail ->] | (e & He & ->)].
      * rewrite (gqlFrom_exhausted cfg world fuel q a s r Hans); [| |lia].
        -- f_equal. f_equal. lia.
        -- unfold transientFailure in Hfail. apply andb_true_iff in Hfail as [H _].
           now apply negb_true_iff in H.
      * rewrite (gqlFrom_exhausted_errors fuel q a s r e Hans He) by lia.
        f_equal. f_equal. lia.
    + unfold attemptsFrom. simpl. now rewrite Z.add_0_r.
    + reflexivity.
  - destruct fuel as [|fuel]; [lia|].
    destruct (Hall 0%nat) as (r & Hans & err0 & Herr0); [lia|].
    rewrite Nat.add_0_r in Hans.
    assert (Hstep : exists l, isRetryNoise (Console l) = true /\
              gqlFrom cfg world (S fuel) q a s =
              gqlFrom cfg world fuel q (a + 1)
                {| sent := S (sent s);
                   trace := trace s ++ [GqlPost q a; Console l; Sleep (backoff a)] |}).
    { destruct Herr0 as [[Hfail _] | (e & He & _)].
      - eexists. split; [|apply (gqlFrom_retry cfg world fuel q a s r Hans Hfail); lia].
        reflexivity.
      - eexists. split; [|apply (gqlFrom_retry_errors fuel q a s r e Hans He); lia].
        reflexivity. }
    destruct Hstep as (l & Hl & ->).
    set (s1 := {| sent := S (sent s); trace := _ |}).
    destruct (IH (a + 1) fuel s1) as (r' & err & evs & Hans' & Herr & Hrun & Hposts & Hdelays).
    + lia.
    + lia.
    + intros k Hk. destruct (Hall (S k)) as (rk & Hk1 & Hk2); [lia|].
      exists rk. split; [|exact Hk2]. subst s1. cbn [sent].
      now replace (S (sent s) + k)%nat with (sent s + S k)%nat by lia.
    + exists r', err, ([GqlPost q a; Console l; Sleep (backoff a)] ++ evs).
      subst s1. cbn [sent trace] in *.
      split; [now replace (sent s + S n)%nat with (S (sent s) + n)%nat by lia|].
      split; [exact Herr|]. split; [|split].
      * rewrite Hrun. f_equal. f_equal; [lia|]. now rewrite <- app_assoc.
      * unfold posts in *. destruct l; try discriminate Hl; cbn [app flat_map postOf];
          rewrite Hposts; now rewrite (attemptsFrom_S a (S n)).
      * unfold delays in *. destruct l; try discriminate Hl; cbn [app flat_map delayOf];
          rewrite Hdelays; now rewrite (attemptsFrom_S a n).
Qed.

(** X10: an [errors] payload in a 2xx answer is retried like a transient
    HTTP failure.  When every one of the configured attempts ends in one or
    the other, in any mix, [gql] makes exactly that many POSTs with the
    same delays, and raises the error of the last answer: its HTTP status
    and body, or its [errors]. *)
Theorem gql_retries_errors_payload q s :
  (forall k, (k < attemptsAllowed cfg)%nat ->
     exists r, shopifyAnswer world (sent s + k) = Answered r /\ retriedFailure r) ->
  exists r err evs,
    shopifyAnswer world (sent s + (attemptsAllowed cfg - 1)) = Answered r /\
    lastError r err /\
    gql cfg world q s =
      (Throw err, {| sent := sent s + attemptsAllowed cfg; trace := trace s ++ evs |}) /\
    posts evs = map (pair q) (attemptsFrom 1 (attemptsAllowed cfg)) /\
    delays evs = map backoff (attemptsFrom 1 (attemptsAllowed cfg - 1)).
Proof.
  intros Hall. unfold gql, attemptsAllowed in *.
  set (n := Z.to_nat (MAX_RETRIES cfg - 1)) in *.
  replace (S n - 1)%nat with n by lia.
  apply (gqlFrom_all_retried q n 1 (S n) s); [reflexivity | lia |].
  intros k Hk. apply Hall. lia.
Qed.

End GqlMore.

Lemma gql_attempts_bounded_witness :
  exists n evs,
    (1 <= n <= attemptsAllowed defaultConfig)%nat /\
    trace (snd (gql defaultConfig throttled (ProductByHandle "cs1") initial)) = evs /\
    delays evs = map backoff (attemptsFrom 1 (n - 1)).
Proof.
  destruct (gql_attempts_bounded defaultConfig throttled (ProductByHandle "cs1") initial
              _ _ (surjective_pairing _))
    as (_ & n & evs & Hn & _ & Ht & _ & Hd).
  exists n, evs. split; [exact Hn|]. split; [exact Ht|exact Hd].
Defined.

Lemma gql_gives_up_at_once_witness :
  gql defaultConfig denied (ProductByHandle "cs1") initial =
    (Throw (GraphQLHttpError 401 "unavailable"),
     {| sent := 1; trace := [GqlPost (ProductByHandle "cs1") 1] |}).
Proof.
  destruct (gql_gives_up_at_once defaultConfig denied (ProductByHandle "cs1") initial)
    as (H & _ & _).
  apply (H {| status := 401; text := "unavailable"; json := None |}); reflexivity.
Defined.

Lemma gql_retries_errors_payload_witness :
  exists err evs,
    gql defaultConfig throttled (ProductByHandle "cs1") initial =
      (Throw err, {| sent := 3; trace := evs |}) /\
    delays evs = [600; 1200].
Proof.
  destruct (gql_retries_errors_payload defaultConfig throttled (ProductByHandle "cs1") initial)
    as (r & err & evs & _ & _ & Hrun & _ & Hd).
  - change (attemptsAllowed defaultConfig) with 3%nat. intros k Hk.
    destruct k as [|[|[|k]]]; [| | |lia]; cbn [initial sent Nat.add];
      (eexists; split; [reflexivity|]); eexists.
    + right. eexists. split; [|reflexivity]. split; [reflexivity|].
      eexists. repeat split; reflexivity.
    + left. split; reflexivity.
    + right. eexists. split; [|reflexivity]. split; [reflexivity|].
      eexists. repeat split; reflexivity.
  - exists err, evs. split; [exact Hrun|exact Hd].
Defined.

(** ** The three Catalog Operations *)

Lemma emits_mapM_Forall {A B} (f : A -> M B) P (Q : B -> Prop) (l : list A) :
  (forall x, emits (f x) P Q) -> emits (mapM f l) P (List.Forall Q).
Proof.
  intros Hf. induction l as [|x l IH]; cbn [mapM]; [apply emits_ret; constructor|].
  eapply emits_bind; [apply Hf|]. intros y Hy.
  eapply emits_bind; [apply IH|]. intros ys Hys. apply emits_ret. now constructor.
Qed.

Lemma trace_same_events (s s' : State) (evs evs' : list Event) :
  trace s' = trace s ++ evs -> trace s' = trace s ++ evs' -> evs = evs'.
Proof. intros H1 H2. rewrite H1 in H2. now apply app_inv_head in H2. Qed.

Section Operations.

Variable cfg : Config.
Variable world : World.

Lemma findBySku_calls code s out s' :
  findBySku cfg world code s = (out, s') ->
  exists evs,
    trace s' = trace s ++ evs /\
    calls evs = (if Js.isEmpty code then [] else [skuQuery code]) /\
    forall v, out = Return v -> Json.truthy v = true \/ v = Some JNull.
Proof.
  unfold findBySku. destruct (Js.isEmpty code); cbn [negb].
  - intros H. inversion H; subst. exists []. rewrite app_nil_r.
    repeat split. intros v E. inversion E. now right.
  - intros H.
    destruct (bind_inv _ _ _ _ _ H) as [(d & s1 & H1 & H2) | [(e & H1 & ->) | (H1 & ->)]].
    + destruct (gql_calls _ _ _ _ _ _ H1) as (evs & T & C).
      exists evs. split; [|split; [exact C|]].
      * rewrite <- T. revert H2. apply emits_nothing with (Q := fun _ => True).
        apply emits_then; [apply emits_lift_any|]. intros products.
        destruct (Json.truthy _); now apply emits_ret.
      * intros v ->. revert H2. unfold bind.
        destruct (Json.getProp d "products") as [e|products]; cbn [lift throw ret];
          [discriminate|].
        destruct (Json.truthy _) eqn:Ht; intros E; inversion E; subst; auto.
    + destruct (gql_calls _ _ _ _ _ _ H1) as (evs & T & C).
      exists evs. split; [exact T|]. split; [exact C|discriminate].
    + destruct (gql_calls _ _ _ _ _ _ H1) as (evs & T & C).
      exists evs. split; [exact T|]. split; [exact C|discriminate].
Qed.

(** X11: the product lookup is a read of at most two calls, in a fixed
    order: the lookup by handle, made when the handle is not empty, and then
    at most the lookup by [sku:<code>], which is made only after the handle
    lookup and only for a non-empty code.  It ends, sends no mutation, and
    what it returns is a truthy id or [null]. *)
Theorem findProduct_reads_in_order handle code s out s' :
  findProductIdByHandleOrSku cfg world handle code s = (out, s') ->
  out <> OutOfFuel /\
  exists evs,
    trace s' = trace s ++ evs /\
    sentBatches evs = [] /\
    (exists viaSku : bool,
       calls evs =
         (if Js.isEmpty handle then [] else [ProductByHandle handle]) ++
         (if viaSku && negb (Js.isEmpty code) then [skuQuery code] else [])) /\
    forall v, out = Return v -> Json.truthy v = true \/ v = Some JNull.
Proof.
  intros H.
  split.
  { pose proof (findProductIdByHandleOrSku_total cfg world handle code s) as Ht.
    rewrite H in Ht. exact Ht. }
  destruct (findProductIdByHandleOrSku_emits cfg world (fun e => sentOf e = [])
              (fun e He => match e, He with
                           | Sleep _, _ | Console _, _ => eq_refl
                           | GhlGet, He | GqlPost _ _, He =>
                               match Bool.diff_false_true He with end
                           end)
              (fun q a Hq => Hq) _ _ _ _ _ H) as (evs0 & T0 & F0 & _).
  assert (Hsent : sentBatches evs0 = []).
  { clear -F0. induction F0 as [|e t He _ IH]; [reflexivity|].
    unfold sentBatches in *. cbn [flat_map]. now rewrite He, IH. }
  assert (Hmain : exists evs,
            trace s' = trace s ++ evs /\
            (exists viaSku : bool,
               calls evs =
                 (if Js.isEmpty handle then [] else [ProductByHandle handle]) ++
                 (if viaSku && negb (Js.isEmpty code) then [skuQuery code] else [])) /\
            forall v, out = Return v -> Json.truthy v = true \/ v = Some JNull).
  { revert H. unfold findProductIdByHandleOrSku.
    destruct (Js.isEmpty handle); cbn [negb app].
    - intros H. destruct (findBySku_calls _ _ _ _ H) as (evs & T & C & R).
      exists evs. split; [exact T|]. split; [|exact R].
      exists true. rewrite C. now destruct (Js.isEmpty code).
    - intros H.
      destruct (bind_inv _ _ _ _ _ H) as [(d & s1 & H1 & H2) | [(e & H1 & ->) | (H1 & ->)]].
      + destruct (gql_calls _ _ _ _ _ _ H1) as (evs1 & T1 & C1).
        revert H2. unfold bind at 1.
        destruct (Json.getProp d "product") as [e|product]; cbn [lift throw ret].
        { intros E. inversion E; subst. exists evs1. split; [exact T1|].
          split; [|discriminate]. exists false. now rewrite C1. }
        destruct (Json.truthy (Json.optProp product "id")) eqn:Hid.
        * intros E. inversion E; subst. exists evs1. split; [exact T1|].
          split; [exists false; now rewrite C1|].
          intros v Ev. inversion Ev; subst. now left.
        * intros H2. destruct (findBySku_calls _ _ _ _ H2) as (evs2 & T2 & C2 & R).
          exists (evs1 ++ evs2). split; [now rewrite T2, T1, <- app_assoc|].
          split; [|exact R]. exists true. rewrite calls_app, C1, C2.
          now destruct (Js.isEmpty code).
      + destruct (gql_calls _ _ _ _ _ _ H1) as (evs1 & T1 & C1).
        exists evs1. split; [exact T1|]. split; [|discriminate].
        exists false. now rewrite C1.
      + destruct (gql_calls _ _ _ _ _ _ H1) as (evs1 & T1 & C1).
        exists evs1. split; [exact T1|]. split; [|discriminate].
        exists false. now rewrite C1. }
  destruct Hmain as (evs & T & C & R). exists evs.
  rewrite (trace_same_events _ _ _ _ T T0). rewrite (trace_same_events _ _ _ _ T T0) in C.
  repeat split; assumption.
Qed.


Lemma altOfEdge_trimmed e x : altOfEdge e = inr x -> Js.trim x = x.
Proof.
  unfold altOfEdge. destruct (Json.getProp (Some e) "node") as [err|node]; [discriminate|].
  destruct (Json.truthy _).
  - destruct (Json.optProp node "alt") as [[]|]; try discriminate.
    intros E. inversion E. apply trim_idem.
  - intros E. inversion E. reflexivity.
Qed.

(** X12: the listing of the existing media is one read call.  It ends,
    sends no mutation, and every alt in the set it returns is non-empty and
    already trimmed. *)
Theorem getExistingMediaAlts_trimmed productId s out s' :
  getExistingMediaAlts cfg world productId s = (out, s') ->
  out <> OutOfFuel /\
  exists evs,
    trace s' = trace s ++ evs /\
    calls evs = [ProductMedia productId] /\
    sentBatches evs = [] /\
    forall (S : gset string), out = Return S ->
      forall x, x ∈ S -> x <> "" /\ Js.trim x = x.
Proof.
  intros H. split.
  { pose proof (getExistingMediaAlts_total cfg world productId s) as Ht.
    rewrite H in Ht. exact Ht. }
  assert (Hv : emits (getExistingMediaAlts cfg world productId) (fun e => sentOf e = [])
                     (fun S : gset string => forall x, x ∈ S -> x <> "" /\ Js.trim x = x)).
  { unfold getExistingMediaAlts.
    apply emits_then.
    { apply gql_emits; [|reflexivity].
      intros [| | |[]]; try discriminate; reflexivity. }
    intros d. apply emits_then; [apply emits_lift_any|]. intros product.
    eapply emits_bind with (Q := List.Forall (fun x => Js.trim x = x)).
    - unfold altsOfEdges. destruct (Json.truthy _); [|apply emits_ret; constructor].
      destruct (Json.optProp _ "edges") as [[]|]; try apply emits_throw.
      apply emits_mapM_Forall. intros e. apply emits_lift. apply altOfEdge_trimmed.
    - intros alts Halts. apply emits_ret. intros x.
      rewrite elem_of_list_to_set, list_elem_of_In, List.filter_In.
      intros [Hin Hne]. apply negb_true_iff, isEmpty_false in Hne.
      split; [exact Hne|]. rewrite List.Forall_forall in Halts. now apply Halts. }
  destruct (Hv _ _ _ H) as (evs & T & F & R).
  exists evs. split; [exact T|]. split; [|split; [|exact R]].
  - revert H. unfold getExistingMediaAlts. intros H.
    destruct (bind_inv _ _ _ _ _ H) as [(d & s1 & H1 & H2) | [(e & H1 & ->) | (H1 & ->)]];
      destruct (gql_calls _ _ _ _ _ _ H1) as (evs1 & T1 & C1).
    + assert (T2 : trace s' = trace s1).
      { revert H2. apply emits_nothing with (Q := fun _ => True).
        apply emits_then; [apply emits_lift_any|]. intros product.
        apply emits_then; [|intros; now apply emits_ret].
        unfold altsOfEdges. destruct (Json.truthy _); [|now apply emits_ret].
        destruct (Json.optProp _ "edges") as [[]|]; try apply emits_throw.
        apply emits_mapM. intros e. apply emits_lift_any. }
      rewrite T2 in T. now rewrite (trace_same_events _ _ _ _ T T1).
    + now rewrite (trace_same_events _ _ _ _ T T1).
    + now rewrite (trace_same_events _ _ _ _ T T1).
  - clear -F. induction F as [|e t He _ IH]; [reflexivity|].
    unfold sentBatches in *. cbn [flat_map]. now rewrite He, IH.
Qed.


(** X13: [attachMediaBatch] sends nothing for an empty batch; for a
    non-empty batch whose mutation is answered with a non-empty
    [mediaUserErrors] array it raises with those errors after that single
    POST, whatever [MAX_RETRIES] is: a validation failure is not retried;
    and it returns when the array is empty. *)
Theorem attachMediaBatch_user_errors productId s :
  attachMediaBatch cfg world productId [] s = (Return tt, s) /\
  (forall medias r d pcm errs,
     medias <> [] ->
     shopifyAnswer world (sent s) = Answered r ->
     succeedsWith r d ->
     Json.getProp d "productCreateMedia" = inr pcm ->
     Json.optProp pcm "mediaUserErrors" = Some (JArr errs) ->
     attachMediaBatch cfg world productId medias s =
       (match errs with
        | [] => Return tt
        | _ :: _ => Throw (MediaUserErrors (Some (JArr errs)))
        end,
        {| sent := S (sent s);
           trace := trace s ++ [GqlPost (ProductCreateMedia productId medias) 1] |})).
Proof.
  split; [reflexivity|].
  intros medias r d pcm errs Hne Hans Hok Hpcm Herrs.
  unfold attachMediaBatch. destruct medias as [|m medias]; [congruence|].
  cbn [length Nat.eqb]. unfold gql.
  rewrite (bind_return _ _ _ _ _ (gqlFrom_success cfg world _ _ 1 s r d Hans Hok)).
  unfold bind. rewrite Hpcm. cbn [lift ret]. rewrite Herrs.
  destruct errs as [|e errs]; reflexivity.
Qed.

End Operations.

Lemma findProduct_reads_in_order_witness :
  findProductIdByHandleOrSku defaultConfig foundBySku "cs9" "CS9" initial =
    (Return (Some (JStr "gid://shopify/Product/9")),
     {| sent := 2;
        trace := [GqlPost (ProductByHandle "cs9") 1; GqlPost (skuQuery "CS9") 1] |}) /\
  exists evs,
    trace (snd (findProductIdByHandleOrSku defaultConfig foundBySku "cs9" "CS9" initial))
      = evs /\
    sentBatches evs = [].
Proof.
  split; [vm_compute; reflexivity|].
  destruct (findProduct_reads_in_order defaultConfig foundBySku "cs9" "CS9" initial
              _ _ (surjective_pairing _)) as (_ & evs & T & Hs & _).
  exists evs. split; [exact T|exact Hs].
Defined.

Lemma getExistingMediaAlts_trimmed_witness :
  getExistingMediaAlts defaultConfig catalogWithBack product1 afterLookup =
    (Return (list_to_set ["CS1_back.jpg"]), afterListing) /\
  forall x, x ∈ (list_to_set ["CS1_back.jpg"] : gset string) -> x <> "" /\ Js.trim x = x.
Proof.
  assert (H : getExistingMediaAlts defaultConfig catalogWithBack product1 afterLookup =
              (Return (list_to_set ["CS1_back.jpg"]), afterListing))
    by (vm_compute; reflexivity).
  split; [exact H|].
  destruct (getExistingMediaAlts_trimmed defaultConfig catalogWithBack product1 afterLookup
              _ _ H) as (_ & evs & _ & _ & _ & R).
  now apply R.
Defined.

Lemma attachMediaBatch_user_errors_witness :
  attachMediaBatch defaultConfig rejectingCatalog product1 [mediaNamed "CS1_front.jpg"]
                   afterListing =
    (Throw (MediaUserErrors
              (Some (JArr [JObj [("code", JStr "INVALID");
                                 ("message", JStr "Invalid image URL")]]))),
     {| sent := 3;
        trace := trace afterListing ++
                 [GqlPost (ProductCreateMedia product1 [mediaNamed "CS1_front.jpg"]) 1] |}).
Proof.
  destruct (attachMediaBatch_user_errors defaultConfig rejectingCatalog product1 afterListing)
    as [_ H].
  apply (H [mediaNamed "CS1_front.jpg"]
           {| status := 200; text := "";
              json := Some (JObj [("data",
                JObj [("productCreateMedia",
                       JObj [("media", JArr []);
                             ("mediaUserErrors",
                              JArr [JObj [("code", JStr "INVALID");
                                          ("message", JStr "Invalid image URL")]])])])]) |}
           (Some (JObj [("productCreateMedia",
                         JObj [("media", JArr []);
                               ("mediaUserErrors",
                                JArr [JObj [("code", JStr "INVALID");
                                            ("message", JStr "Invalid image URL")]])])]))
           (Some (JObj [("media", JArr []);
                        ("mediaUserErrors",
                         JArr [JObj [("code", JStr "INVALID");
                                     ("message", JStr "Invalid image URL")]])]))
           [JObj [("code", JStr "INVALID"); ("message", JStr "Invalid image URL")]]).
  - discriminate.
  - reflexivity.
  - split; [reflexivity|]. eexists _, _. repeat split; reflexivity.
  - reflexivity.
  - reflexivity.
Defined.

(** ** The listing, normalised *)

Lemma orElse_truthy (a b : option string) :
  Js.truthyStr (Js.orElse a b) = true ->
  exists u, Js.orElse a b = Some u /\ u <> "".
Proof.
  destruct (Js.orElse a b) as [u|]; [|discriminate]. cbn [Js.truthyStr].
  intros H. apply negb_true_iff, isEmpty_false in H. eauto.
Qed.

Lemma keepLocated_normalised host (l : list (option FileObj)) :
  List.Forall normalised (keepLocated host l) /\
  (length (keepLocated host l) <= length l)%nat.
Proof.
  induction l as [|[f|] l [IH1 IH2]]; cbn [keepLocated length].
  - split; [constructor|lia].
  - cbn [hasLocation]. destruct (Js.truthyStr _) eqn:Ht; [|split; [exact IH1|lia]].
    split; [|cbn [length]; lia]. constructor; [|exact IH1].
    unfold normalised, normalize. cbn [f_url f_name f_mime f_link f_path f_type].
    split; [now apply orElse_truthy|]. repeat split; eauto.
  - split; [exact IH1|lia].
Qed.

(** X14: when the listing succeeds it has cost exactly one GET and no
    request to the Catalog Service, and every file it returns is normalised:
    a non-empty [url], a [name] and a [mime], and no other field; there are
    at most as many files as the answer has elements. *)
Theorem fetchGhlFiles_normalised host world s files s' :
  fetchGhlFiles host world s = (Return files, s') ->
  s' = {| sent := sent s; trace := trace s ++ [GhlGet] |} /\
  List.Forall normalised files /\
  exists res l,
    ghlAnswer world = Some res /\
    (g_json res = Some (GhlArray l) \/ g_json res = Some (GhlFiles l)) /\
    (length files <= length l)%nat.
Proof.
  unfold fetchGhlFiles, bind, emit, throw, ret.
  destruct (ghlAnswer world) as [res|]; [|discriminate].
  destruct (negb (g_ok res)); [discriminate|].
  destruct (g_json res) as [[l|l| |]|] eqn:Hj; try discriminate;
    intros H; inversion H; subst;
    destruct (keepLocated_normalised host l) as [Hn Hl];
    (split; [reflexivity|]; split; [exact Hn|]; exists res, l; auto).
Qed.

Lemma fetchGhlFiles_normalised_witness :
  List.Forall normalised [normalize plainHost (fileAt "CS1_back.jpg")].
Proof.
  destruct (fetchGhlFiles_normalised plainHost oneUnlocated initial
              [normalize plainHost (fileAt "CS1_back.jpg")]
              {| sent := 0; trace := [GhlGet] |}) as (_ & H & _).
  - vm_compute. reflexivity.
  - exact H.
Defined.

(** ** The grouping *)

Section Grouping.

Variable host : Host.
Variable cfg : Config.

Lemma groupFile_mediaOfFile g f :
  groupFile host cfg g f =
  match mediaOfFile host cfg f with
  | Some (c, m) => pushMedia c m g
  | None => g
  end.
Proof.
  unfold groupFile, mediaOfFile.
  destruct (extractCode cfg _) as [code|]; [|reflexivity].
  now destruct (Js.isEmpty code).
Qed.

Lemma groupOfCode_push_same c m g :
  groupOfCode c (pushMedia c m g) = groupOfCode c g ++ [m].
Proof.
  induction g as [|[c' ms] g IH]; cbn [pushMedia groupOfCode].
  - now rewrite String.eqb_refl.
  - destruct (String.eqb c' c) eqn:E; cbn [groupOfCode]; rewrite E; [reflexivity|exact IH].
Qed.

Lemma groupOfCode_push_other c c' m g :
  c' <> c -> groupOfCode c' (pushMedia c m g) = groupOfCode c' g.
Proof.
  intros Hne. induction g as [|[k ms] g IH]; cbn [pushMedia groupOfCode].
  - destruct (String.eqb_spec c c'); [congruence|reflexivity].
  - destruct (String.eqb_spec k c) as [->|Hk]; cbn [groupOfCode].
    + destruct (String.eqb_spec c c'); [congruence|reflexivity].
    + now rewrite IH.
Qed.

Lemma keys_push c m g :
  map fst (pushMedia c m g) =
  if existsb (String.eqb c) (map fst g) then map fst g else map fst g ++ [c].
Proof.
  induction g as [|[k ms] g IH]; cbn [pushMedia map fst existsb]; [reflexivity|].
  rewrite (String.eqb_sym c k).
  destruct (String.eqb k c) eqn:E; cbn [map fst orb]; [reflexivity|].
  rewrite IH. now destruct (existsb (String.eqb c) (map fst g)).
Qed.

Lemma existsb_eqb_In c (l : list string) : existsb (String.eqb c) l = true <-> In c l.
Proof.
  rewrite existsb_exists. split.
  - intros (x & Hx & E). apply String.eqb_eq in E. now subst.
  - intros H. exists c. split; [exact H|apply String.eqb_refl].
Qed.

(** X15: [pushMedia] is an insert that [groupOfCode] reads back: the media
    is appended to the group of its code, every other group is untouched,
    the keys keep their order, and a new key goes last. *)
Theorem pushMedia_lookup c m g :
  groupOfCode c (pushMedia c m g) = groupOfCode c g ++ [m] /\
  (forall c', c' <> c -> groupOfCode c' (pushMedia c m g) = groupOfCode c' g) /\
  (In c (map fst g) -> map fst (pushMedia c m g) = map fst g) /\
  (~ In c (map fst g) -> map fst (pushMedia c m g) = map fst g ++ [c]).
Proof.
  split; [apply groupOfCode_push_same|]. split; [intros; now apply groupOfCode_push_other|].
  rewrite keys_push. split; intros H.
  - apply existsb_eqb_In in H. now rewrite H.
  - destruct (existsb (String.eqb c) (map fst g)) eqn:E; [|reflexivity].
    apply existsb_eqb_In in E. contradiction.
Qed.

Lemma mediaFor_app c cm1 cm2 : mediaFor c (cm1 ++ cm2) = mediaFor c cm1 ++ mediaFor c cm2.
Proof. unfold mediaFor. now rewrite List.filter_app, map_app. Qed.

Lemma mediaCount_push c m g : mediaCount (pushMedia c m g) = mediaCount g + 1.
Proof.
  unfold mediaCount. induction g as [|[k ms] g IH]; cbn [pushMedia map snd concat].
  - cbn. lia.
  - destruct (String.eqb k c); cbn [map snd concat].
    + rewrite !length_app. cbn [length]. lia.
    + rewrite !length_app, !Nat2Z.inj_add in *. lia.
Qed.

Lemma NoDup_snoc {A} (l : list A) (x : A) :
  List.NoDup l -> ~ In x l -> List.NoDup (l ++ [x]).
Proof.
  induction 1 as [|y l Hy Hl IH]; intros Hx; cbn [app].
  - constructor; [intros []|constructor].
  - constructor.
    + rewrite in_app_iff. intros [H|[->|[]]]; [contradiction|]. apply Hx. now left.
    + apply IH. intros H. apply Hx. now right.
Qed.

Lemma groupsOf_push cm g c m :
  groupsOf cm g -> groupsOf (cm ++ [(c, m)]) (pushMedia c m g).
Proof.
  intros (Hnd & Hget & Hkeys & Hcount).
  assert (Hone : forall c', mediaFor c' [(c, m)] = if String.eqb c c' then [m] else []).
  { intros c'. unfold mediaFor. cbn. now destruct (String.eqb c c'). }
  split; [|split; [|split]].
  - rewrite keys_push. destruct (existsb (String.eqb c) (map fst g)) eqn:E; [exact Hnd|].
    apply NoDup_snoc; [exact Hnd|].
    intros Hx. apply existsb_eqb_In in Hx. congruence.
  - intros c'. rewrite mediaFor_app, Hone.
    destruct (String.eqb_spec c c') as [<-|Hne].
    + now rewrite groupOfCode_push_same, Hget.
    + rewrite groupOfCode_push_other by congruence. now rewrite Hget, app_nil_r.
  - intros c'. rewrite mediaFor_app, Hone, keys_push.
    destruct (String.eqb_spec c c') as [<-|Hne].
    + split; [intros _ H; now apply app_eq_nil in H as [_ H]|intros _].
      destruct (existsb (String.eqb c) (map fst g)) eqn:E.
      * now apply existsb_eqb_In.
      * apply in_or_app. right. now left.
    + rewrite app_nil_r, <- Hkeys.
      destruct (existsb (String.eqb c) (map fst g)); [reflexivity|].
      rewrite in_app_iff. cbn [In]. intuition congruence.
  - rewrite mediaCount_push, Hcount, length_app. cbn [length]. lia.
Qed.

Lemma groupFiles_from files :
  forall cm g, groupsOf cm g ->
               groupsOf (cm ++ coded host cfg files) (fold_left (groupFile host cfg) files g).
Proof.
  induction files as [|f files IH]; intros cm g Hg; cbn [fold_left coded].
  - now rewrite app_nil_r.
  - rewrite groupFile_mediaOfFile.
    destruct (mediaOfFile host cfg f) as [[c m]|]; [|now apply IH].
    replace (cm ++ (c, m) :: coded host cfg files)
      with ((cm ++ [(c, m)]) ++ coded host cfg files) by now rewrite <- app_assoc.
    apply IH. now apply groupsOf_push.
Qed.

(** X16: the grouping keeps every coded file exactly once and in source
    order.  The keys of [mediaByCode] are distinct; a code is a key exactly
    when some file carries it; the group of a code is the media of the
    files that carry it, in the order of the listing; and the groups
    together hold as many media as there are coded files. *)
Theorem groupFiles_by_code (files : list FileObj) :
  List.NoDup (map fst (groupFiles host cfg files)) /\
  (forall c, groupOfCode c (groupFiles host cfg files) = mediaFor c (coded host cfg files)) /\
  (forall c, In c (map fst (groupFiles host cfg files)) <->
             mediaFor c (coded host cfg files) <> []) /\
  mediaCount (groupFiles host cfg files) = Z.of_nat (length (coded host cfg files)).
Proof.
  unfold groupFiles. apply (groupFiles_from files [] []).
  split; [constructor|]. split; [reflexivity|]. split; [|reflexivity].
  intros c. cbn. split; [intros []|congruence].
Qed.

End Grouping.

Example groupFiles_interleaved :
  map fst (groupFiles plainHost defaultConfig interleaved) = ["CS2"; "CS1"; "CS10"] /\
  map alt (groupOfCode "CS2" (groupFiles plainHost defaultConfig interleaved))
    = ["CS2_a.jpg"; "cs2_b.mp4"].
Proof. split; vm_compute; reflexivity. Qed.

Lemma pushMedia_lookup_witness :
  groupOfCode "CS2" (pushMedia "CS1" (mediaNamed "CS1_b.jpg")
                       [groupOf "CS1" "CS1_a.jpg"; groupOf "CS2" "CS2_a.jpg"])
    = [mediaNamed "CS2_a.jpg"] /\
  map fst (pushMedia "CS3" (mediaNamed "CS3_a.jpg")
             [groupOf "CS1" "CS1_a.jpg"; groupOf "CS2" "CS2_a.jpg"])
    = ["CS1"; "CS2"; "CS3"].
Proof.
  destruct (pushMedia_lookup "CS1" (mediaNamed "CS1_b.jpg")
              [groupOf "CS1" "CS1_a.jpg"; groupOf "CS2" "CS2_a.jpg"]) as (_ & H1 & _ & _).
  destruct (pushMedia_lookup "CS3" (mediaNamed "CS3_a.jpg")
              [groupOf "CS1" "CS1_a.jpg"; groupOf "CS2" "CS2_a.jpg"]) as (_ & _ & _ & H2).
  split.
  - apply (H1 "CS2"). discriminate.
  - apply H2. cbn. intros [H|[H|[]]]; discriminate.
Defined.

(** ** The run, around the groups *)

Section RunFacts.

Variable host : Host.
Variable cfg : Config.
Variable world : World.

Lemma fetchGhlFiles_state s out s' :
  fetchGhlFiles host world s = (out, s') ->
  s' = {| sent := sent s; trace := trace s ++ [GhlGet] |}.
Proof.
  unfold fetchGhlFiles, bind, emit, throw, ret.
  destruct (ghlAnswer world) as [res|]; [|intros H; now inversion H].
  destruct (negb (g_ok res)); [intros H; now inversion H|].
  destruct (g_json res) as [[]|]; intros H; now inversion H.
Qed.

(** X17: when the listing is empty, or none of its files carries a code,
    the run ends with status 0 after the single GET: it prints the
    informational line and sends nothing to the Catalog Service. *)
Theorem run_nothing_to_do fuel files s1 :
  fetchGhlFiles host world initial = (Return files, s1) ->
  groupFiles host cfg files = [] ->
  run host cfg world fuel =
    (Some 0,
     {| sent := 0;
        trace := [GhlGet;
                  Console (match files with [] => InfoNoFiles | _ :: _ => InfoNoMatch end)] |}).
Proof.
  intros Hfetch Hgroups. pose proof (fetchGhlFiles_state _ _ _ Hfetch) as ->.
  unfold run, main. rewrite (bind_return _ _ _ _ _ Hfetch).
  destruct files as [|f files]; [reflexivity|].
  cbn [length Nat.eqb]. now rewrite Hgroups.
Qed.

(** X18: a code without a product is not an error.  When the lookup
    returns no id, the group costs nothing more than the lookup and a
    warning: no listing, no attach call, the totals are unchanged, and the
    loop goes on with the groups that follow. *)
Theorem missing_product_is_skipped fuel totals code allMedias rest s v s1 :
  findProductIdByHandleOrSku cfg world (deriveHandleFromCode cfg code) code s
    = (Return v, s1) ->
  Json.truthy v = false ->
  forGroups cfg world fuel totals ((code, allMedias) :: rest) s =
  forGroups cfg world fuel totals rest
    {| sent := sent s1;
       trace := trace s1 ++ [Console (WarnNoProduct code (deriveHandleFromCode cfg code))] |}.
Proof.
  intros Hfind Hv. cbn [forGroups]. unfold bind at 1. unfold processGroup.
  destruct totals as [attached skipped].
  rewrite (bind_return _ _ _ _ _ Hfind), Hv. reflexivity.
Qed.

(** X19: nothing new.  When every media of a resolved group has its
    trimmed alt among the existing alts, the group is done after the lookup
    and the listing: no attach call in any mode, the line "Nothing new",
    and all its media added to the skipped total. *)
Theorem nothing_new_attaches_nothing fuel totals code allMedias s productId s1
        (S : gset string) s2 :
  findProductIdByHandleOrSku cfg world (deriveHandleFromCode cfg code) code s
    = (Return productId, s1) ->
  Json.truthy productId = true ->
  getExistingMediaAlts cfg world productId s1 = (Return S, s2) ->
  (forall m, In m allMedias -> Js.trim (alt m) ∈ S) ->
  processGroup cfg world fuel totals (code, allMedias) s =
    (Return (fst totals, snd totals + Z.of_nat (length allMedias)),
     {| sent := sent s2;
        trace := trace s2 ++
                 [Console (NothingNew (label (deriveHandleFromCode cfg code) code))] |}).
Proof.
  intros Hfind Htruthy Halts Hall. unfold processGroup.
  destruct totals as [attached skipped].
  rewrite (bind_return _ _ _ _ _ Hfind), Htruthy. cbn [negb].
  rewrite (bind_return _ _ _ _ _ Halts).
  assert (Hnil : toAttachOf S allMedias = []).
  { destruct (toAttachOf S allMedias) as [|m l] eqn:E; [reflexivity|].
    assert (Hm : In m (toAttachOf S allMedias)) by (rewrite E; now left).
    apply in_toAttachOf in Hm as [Hin Hnot]. now specialize (Hall m Hin). }
  rewrite Hnil. cbn [length Nat.eqb fst snd]. unfold bind, console, emit, ret.
  do 3 f_equal. lia.
Qed.

(** With a batch size of 0 or less the index never reaches the end of a
    non-empty diff. *)
Lemma attachLoop_never_returns productId lbl toAttach :
  MEDIA_BATCH_SIZE cfg <= 0 ->
  forall fuel i attached s a,
    i < Z.of_nat (length toAttach) ->
    fst (attachLoop cfg world fuel productId lbl toAttach i attached s) <> Return a.
Proof.
  intros Hb. induction fuel as [|fuel IH]; intros i attached s a Hi; [discriminate|].
  cbn [attachLoop].
  destruct (Z.ltb_spec i (Z.of_nat (length toAttach))) as [_|?]; [|lia].
  unfold bind at 1.
  destruct (attachMediaBatch cfg world productId _ s) as [[[]|e|] s1]; [|discriminate..].
  unfold bind at 1, console, emit. apply IH. lia.
Qed.

(** X20: a batch size of 0 or less is not rejected and not clamped: in a
    real run (not a dry run) a resolved group with something new is never
    completed, whatever budget of loop iterations it is given: its
    processing either raises or does not end. *)
Theorem nonpositive_batch_never_completes fuel totals code allMedias s productId s1
        (S : gset string) s2 totals' :
  MEDIA_BATCH_SIZE cfg <= 0 ->
  DRY_RUN cfg = false ->
  findProductIdByHandleOrSku cfg world (deriveHandleFromCode cfg code) code s
    = (Return productId, s1) ->
  Json.truthy productId = true ->
  getExistingMediaAlts cfg world productId s1 = (Return S, s2) ->
  toAttachOf S allMedias <> [] ->
  fst (processGroup cfg world fuel totals (code, allMedias) s) <> Return totals'.
Proof.
  intros Hb Hdry Hfind Htruthy Halts Hne. unfold processGroup.
  destruct totals as [attached skipped].
  rewrite (bind_return _ _ _ _ _ Hfind), Htruthy. cbn [negb].
  rewrite (bind_return _ _ _ _ _ Halts), Hdry.
  destruct (toAttachOf S allMedias) as [|m l] eqn:E; [congruence|].
  cbn [length Nat.eqb]. unfold bind.
  pose proof (attachLoop_never_returns productId
                (label (deriveHandleFromCode cfg code) code) (m :: l) Hb fuel 0
                attached s2) as Hloop.
  destruct (attachLoop cfg world fuel productId _ (m :: l) 0 attached s2) as [[a|e|] s3];
    cbn [fst] in *; [|discriminate..].
  exfalso. apply (Hloop a); [cbn [length]; lia|reflexivity].
Qed.

(** What one group adds to the two totals. *)
Lemma processGroup_counts fuel totals g :
  emits (processGroup cfg world fuel totals g) (fun _ => True)
        (fun totals' =>
           fst totals <= fst totals' /\ snd totals <= snd totals' /\
           (fst totals' - fst totals) + (snd totals' - snd totals)
             <= Z.of_nat (length (snd g))).
Proof.
  intros s out s' H.
  assert (Htrace : exists evs, trace s' = trace s ++ evs /\ Forall (fun _ => True) evs).
  { assert (Hp : emits (processGroup cfg world fuel totals g) (fun _ => True) (fun _ => True)).
    { unfold processGroup. destruct totals as [attached skipped], g as [code allMedias].
      apply emits_then; [apply findProductIdByHandleOrSku_emits; auto|]. intros productId.
      destruct (negb _).
      { apply emits_then; [now apply emits_event|]. intros _. now apply emits_ret. }
      apply emits_then; [eapply emits_weaken;
                          [apply getExistingMediaAlts_emits with (P := fun _ => True)|..];
                          auto|].
      intros existingAlts. cbn beta zeta.
      destruct (Nat.eqb _ 0).
      { apply emits_then; [now apply emits_event|]. intros _. now apply emits_ret. }
      destruct (DRY_RUN cfg).
      { apply emits_then; [now apply emits_event|]. intros _. now apply emits_ret. }
      apply emits_then; [apply attachLoop_emits; auto|]. intros a. now apply emits_ret. }
    destruct (Hp _ _ _ H) as (evs & T & F & _). eauto. }
  destruct Htrace as (evs & T & F). exists evs. split; [exact T|]. split; [exact F|].
  intros totals' ->. revert H. unfold processGroup.
  destruct totals as [attached skipped], g as [code allMedias]. cbn [fst snd].
  intros H.
  destruct (bind_inv _ _ _ _ _ H) as [(productId & s1 & H1 & H2) | [(e & _ & E) | (_ & E)]];
    [|discriminate..].
  destruct (negb (Json.truthy productId)).
  { unfold bind, console, emit, ret in H2. inversion H2; subst. cbn [fst snd]. lia. }
  destruct (bind_inv _ _ _ _ _ H2) as [(S & s2 & H3 & H4) | [(e & _ & E) | (_ & E)]];
    [|discriminate..].
  cbn beta zeta in H4.
  pose proof (List.filter_length_le
                (fun m : MediaInput => negb (has S (Js.trim (Js.orStr (Some (alt m)) ""))))
                allMedias) as Hle.
  fold (toAttachOf S allMedias) in Hle.
  destruct (Nat.eqb (length (toAttachOf S allMedias)) 0) eqn:Hempty.
  { unfold bind, console, emit, ret in H4. inversion H4; subst. cbn [fst snd]. lia. }
  destruct (DRY_RUN cfg).
  { unfold bind, console, emit, ret in H4. inversion H4; subst. cbn [fst snd]. lia. }
  destruct (bind_inv _ _ _ _ _ H4) as [(a & s3 & H5 & H6) | [(e & _ & E) | (_ & E)]];
    [|discriminate..].
  inversion H6; subst. cbn [fst snd].
  destruct (Z.le_gt_cases 1 (MEDIA_BATCH_SIZE cfg)) as [Hb|Hb].
  - destruct (attachLoop_calls cfg world Hb _ _ _ _ _ _ _ _ _ (Z.le_refl 0) H5)
      as (evs' & _ & _ & Hret).
    destruct (Hret a eq_refl) as [_ Ha].
    change (skipn (Z.to_nat 0) (toAttachOf S allMedias)) with (toAttachOf S allMedias) in Ha.
    lia.
  - exfalso. apply Nat.eqb_neq in Hempty.
    apply (attachLoop_never_returns productId
             (label (deriveHandleFromCode cfg code) code) (toAttachOf S allMedias)
             ltac:(lia) fuel 0 attached s2 a); [lia|].
    now rewrite H5.
Qed.

(** The same for the loop over the groups. *)
Lemma forGroups_counts fuel gs :
  forall totals s totals' s',
    forGroups cfg world fuel totals gs s = (Return totals', s') ->
    fst totals <= fst totals' /\ snd totals <= snd totals' /\
    (fst totals' - fst totals) + (snd totals' - snd totals) <= mediaCount gs.
Proof.
  unfold mediaCount.
  induction gs as [|g gs IH]; intros totals s totals' s' H; cbn [forGroups] in H.
  - inversion H; subst. cbn. lia.
  - destruct (bind_inv _ _ _ _ _ H) as [(t1 & s1 & H1 & H2) | [(e & _ & E) | (_ & E)]];
      [|discriminate..].
    destruct (processGroup_counts _ _ _ _ _ _ H1) as (_ & _ & _ & Hg).
    specialize (Hg t1 eq_refl). specialize (IH _ _ _ _ H2).
    cbn [map concat]. rewrite length_app, Nat2Z.inj_add. lia.
Qed.

(** X21: the two totals only grow, and together they never count more
    media than the processed groups hold: when the loop over the groups
    returns, what it added to [attachedTotal] and to [skippedTotal] sums to
    at most the number of media of those groups. *)
Theorem totals_bounded_by_media fuel gs :
  forall totals s totals' s',
    forGroups cfg world fuel totals gs s = (Return totals', s') ->
    fst totals <= fst totals' /\ snd totals <= snd totals' /\
    (fst totals' - fst totals) + (snd totals' - snd totals) <= mediaCount gs.
Proof. apply forGroups_counts. Qed.

Lemma coded_length (files : list FileObj) :
  (length (coded host cfg files) <= length files)%nat.
Proof.
  induction files as [|f files IH]; cbn [coded length]; [lia|].
  destruct (mediaOfFile host cfg f); cbn [length]; lia.
Qed.

Lemma groupFiles_count (files : list FileObj) :
  mediaCount (groupFiles host cfg files) = Z.of_nat (length (coded host cfg files)).
Proof.
  unfold groupFiles.
  assert (H0 : groupsOf [] []).
  { split; [constructor|]. split; [reflexivity|]. split; [|reflexivity].
    intros c. cbn. split; [intros []|congruence]. }
  destruct (groupFiles_from host cfg files [] [] H0) as (_ & _ & _ & H). exact H.
Qed.

(** X26: a run that goes through the groups and ends with status 0 ends
    its output with the rule, the summary and the line "Done"; the two
    counts of the summary are not negative, and together they are at most
    the number of coded files of the listing, hence at most the number of
    files. *)
Theorem summary_bounded_by_files fuel files s1 s :
  fetchGhlFiles host world initial = (Return files, s1) ->
  groupFiles host cfg files <> [] ->
  run host cfg world fuel = (Some 0, s) ->
  exists front attached skipped,
    trace s = front ++ [Console Rule; Console (Summary attached skipped); Console DoneLine] /\
    0 <= attached /\ 0 <= skipped /\
    attached + skipped <= Z.of_nat (length (coded host cfg files)) /\
    (length (coded host cfg files) <= length files)%nat.
Proof.
  intros Hfetch Hgroups. unfold run, main. rewrite (bind_return _ _ _ _ _ Hfetch).
  destruct files as [|f files]; [now contradiction Hgroups|].
  cbn [length Nat.eqb]. cbv zeta.
  destruct (groupFiles host cfg (f :: files)) as [|g gs] eqn:Eg; [congruence|].
  cbn [length Nat.eqb]. unfold bind at 1.
  destruct (forGroups cfg world fuel (0, 0) (g :: gs) s1) as [[[a k]|e|] s2] eqn:E;
    [|discriminate..].
  unfold bind, console, emit, ret. cbn [fst snd sent trace]. intros H. inversion H; subst s.
  cbn [trace]. exists (trace s2), a, k.
  destruct (forGroups_counts _ _ _ _ _ _ E) as (Ha & Hk & Hsum). cbn [fst snd] in *.
  rewrite <- Eg, groupFiles_count in Hsum.
  split; [now rewrite <- !app_assoc|]. split; [lia|]. split; [lia|].
  split; [lia|apply coded_length].
Qed.

End RunFacts.

Lemma run_nothing_to_do_witness :
  run plainHost defaultConfig noCodes 1 =
    (Some 0, {| sent := 0; trace := [GhlGet; Console InfoNoMatch] |}).
Proof.
  apply (run_nothing_to_do plainHost defaultConfig noCodes 1
           [normalize plainHost (fileAt "widget.png");
            normalize plainHost (fileAt "banner.jpg")]
           {| sent := 0; trace := [GhlGet] |}); vm_compute; reflexivity.
Defined.

Lemma missing_product_is_skipped_witness :
  forGroups defaultConfig firstProductMissing 2 (0, 0)
            [groupOf "CS1" "CS1_a.jpg"; groupOf "CS2" "CS2_a.jpg"]
            {| sent := 0; trace := [GhlGet] |} =
    (Return (0, 1),
     {| sent := 4;
        trace := [GhlGet;
                  GqlPost (ProductByHandle "cs1") 1; GqlPost (skuQuery "CS1") 1;
                  Console (WarnNoProduct "CS1" "cs1");
                  GqlPost (ProductByHandle "cs2") 1;
                  GqlPost (ProductMedia (Some (JStr "gid://shopify/Product/2"))) 1;
                  Console (NothingNew "cs2")] |}).
Proof.
  change (groupOf "CS1" "CS1_a.jpg") with ("CS1", [mediaNamed "CS1_a.jpg"]).
  rewrite (missing_product_is_skipped defaultConfig firstProductMissing 2 (0, 0) "CS1"
             [mediaNamed "CS1_a.jpg"] [groupOf "CS2" "CS2_a.jpg"]
             {| sent := 0; trace := [GhlGet] |} (Some JNull)
             {| sent := 2;
                trace := [GhlGet; GqlPost (ProductByHandle "cs1") 1;
                          GqlPost (skuQuery "CS1") 1] |}).
  - vm_compute. reflexivity.
  - vm_compute. reflexivity.
  - reflexivity.
Defined.

Lemma nothing_new_attaches_nothing_witness :
  processGroup defaultConfig bothKnown 1 (0, 0) groupBoth initial =
    (Return (0, 2),
     {| sent := 2;
        trace := [GqlPost (ProductByHandle "cs1") 1; GqlPost (ProductMedia product1) 1;
                  Console (NothingNew "cs1")] |}).
Proof.
  change groupBoth with ("CS1", snd groupBoth).
  rewrite (nothing_new_attaches_nothing defaultConfig bothKnown 1 (0, 0) "CS1"
             (snd groupBoth) initial product1 afterLookup
             (list_to_set ["CS1_back.jpg"; "CS1_front.jpg"]) afterListing).
  - reflexivity.
  - vm_compute. reflexivity.
  - reflexivity.
  - vm_compute. reflexivity.
  - intros m [<-|[<-|[]]]; vm_compute; reflexivity.
Defined.

Lemma nonpositive_batch_never_completes_witness :
  fst (processGroup (withBatchSize 0 defaultConfig) emptyCatalog 50 (0, 0) groupCS2 initial)
    <> Return (5, 0).
Proof.
  change groupCS2 with ("CS2", snd groupCS2).
  apply (nonpositive_batch_never_completes (withBatchSize 0 defaultConfig) emptyCatalog
           50 (0, 0) "CS2" (snd groupCS2) initial product1 afterLookup2 ∅ afterListing2).
  - cbn. lia.
  - reflexivity.
  - vm_compute. reflexivity.
  - reflexivity.
  - vm_compute. reflexivity.
  - vm_compute. discriminate.
Defined.

Lemma totals_bounded_by_media_witness :
  0 <= 2 /\ 0 <= 1 /\ (2 - 0) + (1 - 0) <= mediaCount [groupCS1].
Proof.
  apply (totals_bounded_by_media defaultConfig catalogWithBack 2 [groupCS1] (0, 0) initial
           (2, 1)
           (snd (forGroups defaultConfig catalogWithBack 2 (0, 0) [groupCS1] initial))).
  vm_compute. reflexivity.
Defined.

Lemma resolveEnv_missing_witness :
  (exists msg, resolveEnv sampleEnv ["GHL_API_KEY"] true "GHL API key" = inl msg) /\
  resolveEnv sampleEnv ["GHL_API_KEY"] false "GHL API key" = inr {| value := ""; source := "" |}.
Proof.
  destruct (resolveEnv_missing sampleEnv ["GHL_API_KEY"] "GHL API key") as (_ & _ & H & _).
  apply H. constructor; [|constructor].
  intros v Hv. vm_compute in Hv. discriminate.
Defined.

Lemma resolveSettings_succeeds_iff_witness :
  exists st, resolveSettings sampleEnv = inr st.
Proof.
  apply (resolveSettings_succeeds_iff sampleEnv). split; [|split].
  - exists "SHOPIFY_SHOP_DOMAIN", " canyonite.myshopify.com ".
    split; [cbn; auto|]. split; [reflexivity|vm_compute; discriminate].
  - exists "SHOPIFY_ADMIN_API_TOKEN", "shpat_12345".
    split; [cbn; auto|]. split; [reflexivity|vm_compute; discriminate].
  - exists "GHL_FILES_ENDPOINT", "https://ghl.example/files".
    split; [cbn; auto|]. split; [reflexivity|vm_compute; discriminate].
Defined.

(** ** Codes and handles *)

Lemma chars_app (a b : string) : Js.chars (a ++ b)%string = Js.chars a ++ Js.chars b.
Proof.
  rewrite <- (chars_str (Js.chars a ++ Js.chars b)), str_app.
  now rewrite !str_chars.
Qed.

Lemma append_empty_r (s : string) : (s ++ "")%string = s.
Proof.
  induction s as [|c s IH]; [reflexivity|].
  change (String c (s ++ "")%string = String c s). now rewrite IH.
Qed.

Lemma lowerChar_c (x : ascii) :
  Ascii.eqb (Js.lowerChar x) "c" = true <-> x = "c"%char \/ x = "C"%char.
Proof.
  destruct x as [[] [] [] [] [] [] [] []]; vm_compute;
    (split; [try discriminate; auto|intros [H|H]; try discriminate; reflexivity]).
Qed.

Lemma lowerChar_s (x : ascii) :
  Ascii.eqb (Js.lowerChar x) "s" = true <-> x = "s"%char \/ x = "S"%char.
Proof.
  destruct x as [[] [] [] [] [] [] [] []]; vm_compute;
    (split; [try discriminate; auto|intros [H|H]; try discriminate; reflexivity]).
Qed.

Lemma leadingDigits_split (l : list ascii) :
  exists rest, l = leadingDigits l ++ rest /\ digitAhead rest = false.
Proof.
  induction l as [|c l (rest & IH & Hrest)]; [now exists []|]. cbn [leadingDigits].
  destruct (isDigit c) eqn:Hc.
  - exists rest. cbn [app]. split; [now rewrite <- IH|exact Hrest].
  - exists (c :: l). split; [reflexivity|exact Hc].
Qed.

Lemma leadingDigits_digits (l : list ascii) : forallb isDigit (leadingDigits l) = true.
Proof.
  induction l as [|c l IH]; [reflexivity|]. cbn [leadingDigits].
  destruct (isDigit c) eqn:Hc; [cbn [forallb]; now rewrite Hc|reflexivity].
Qed.

Lemma leadingDigits_greedy (ds rest : list ascii) :
  forallb isDigit ds = true -> digitAhead rest = false ->
  leadingDigits (ds ++ rest) = ds.
Proof.
  intros Hds Hrest. induction ds as [|d ds IH]; cbn [app].
  - destruct rest as [|c rest]; [reflexivity|]. cbn in *. now rewrite Hrest.
  - cbn [forallb] in Hds. apply andb_true_iff in Hds as [Hd Hds].
    cbn [leadingDigits]. rewrite Hd. now rewrite IH.
Qed.

(** The default pattern, read as a language: the code of [s] is [c] exactly
    when [s] is a [c] or [C], an [s] or [S], and at least one digit, the
    digits taken as far as they go. *)
Lemma extractCodeDefault_iff (s c : string) :
  extractCodeDefault s = Some c <->
  exists c1 c2 ds rest,
    Js.chars s = c1 :: c2 :: ds ++ rest /\
    (c1 = "c"%char \/ c1 = "C"%char) /\ (c2 = "s"%char \/ c2 = "S"%char) /\
    ds <> [] /\ forallb isDigit ds = true /\ digitAhead rest = false /\
    c = Js.str ("C"%char :: "S"%char :: ds).
Proof.
  unfold extractCodeDefault. split.
  - destruct (Js.chars s) as [|c1 [|c2 r]]; [discriminate..|].
    destruct (Ascii.eqb (Js.lowerChar c1) "c") eqn:E1; [|discriminate].
    destruct (Ascii.eqb (Js.lowerChar c2) "s") eqn:E2; [|discriminate].
    cbn [andb]. destruct (leadingDigits_split r) as (rest & Hr & Hrest).
    pose proof (leadingDigits_digits r) as Hds.
    destruct (leadingDigits r) as [|d ds] eqn:E; [discriminate|].
    intros H. inversion H; subst c. exists c1, c2, (d :: ds), rest.
    split; [now rewrite Hr at 1|].
    split; [now apply lowerChar_c|]. split; [now apply lowerChar_s|].
    split; [discriminate|]. now split.
  - intros (c1 & c2 & ds & rest & -> & H1 & H2 & Hne & Hds & Hrest & ->).
    apply lowerChar_c in H1. apply lowerChar_s in H2. rewrite H1, H2. cbn [andb].
    rewrite (leadingDigits_greedy _ _ Hds Hrest).
    destruct ds; [congruence|reflexivity].
Qed.

(** X22: with the default pattern, every extracted code is "CS" followed
    by the digits that follow the two letters in the name, whatever the
    case of the letters; it is never empty, and it is its own code. *)
Theorem extractCodeDefault_code (s c : string) :
  extractCodeDefault s = Some c ->
  (exists c1 c2 ds rest,
     Js.chars s = c1 :: c2 :: ds ++ rest /\
     (c1 = "c"%char \/ c1 = "C"%char) /\ (c2 = "s"%char \/ c2 = "S"%char) /\
     ds <> [] /\ forallb isDigit ds = true /\ digitAhead rest = false /\
     c = Js.str ("C"%char :: "S"%char :: ds)) /\
  Js.isEmpty c = false /\
  extractCodeDefault c = Some c /\
  extractCodeDefault (Js.toLowerCase s) = Some c.
Proof.
  intros H. apply extractCodeDefault_iff in H as Hshape. split; [exact Hshape|].
  destruct Hshape as (c1 & c2 & ds & rest & Hs & H1 & H2 & Hne & Hds & Hrest & ->).
  split; [reflexivity|]. split.
  - apply extractCodeDefault_iff. exists "C"%char, "S"%char, ds, [].
    rewrite chars_str, app_nil_r. repeat (split; auto).
  - unfold extractCodeDefault in *. unfold Js.toLowerCase. rewrite chars_str, Hs.
    cbn [map]. rewrite !lowerChar_idem.
    apply lowerChar_c in H1. apply lowerChar_s in H2. rewrite H1, H2. cbn [andb].
    rewrite List.map_app.
    assert (Hmap : forall l, forallb isDigit l = true -> map Js.lowerChar l = l).
    { induction l as [|d l IH]; [reflexivity|]. cbn [forallb map]. intros Hd.
      apply andb_true_iff in Hd as [Hd Hl]. rewrite (IH Hl). f_equal.
      destruct d as [[] [] [] [] [] [] [] []]; try reflexivity; discriminate. }
    rewrite (Hmap _ Hds).
    assert (Hahead : digitAhead (map Js.lowerChar rest) = false).
    { destruct rest as [|x rest]; [reflexivity|]. cbn in *.
      destruct x as [[] [] [] [] [] [] [] []]; try reflexivity; discriminate. }
    rewrite (leadingDigits_greedy _ _ Hds Hahead).
    destruct ds; [congruence|reflexivity].
Qed.

Lemma extractCodeDefault_code_witness :
  Js.isEmpty "CS12" = false /\ extractCodeDefault "CS12" = Some "CS12" /\
  extractCodeDefault (Js.toLowerCase "cS12_front.jpg") = Some "CS12".
Proof.
  destruct (extractCodeDefault_code "cS12_front.jpg" "CS12") as (_ & H).
  - reflexivity.
  - exact H.
Defined.

Section Replace.

Variable srest : list ascii.
Variable repl : list ascii.

Lemma getSubstitution_plain m pre post tpl :
  plainL tpl -> Template.getSubstitution m pre post tpl = tpl.
Proof.
  induction 1 as [|c r Hc _ IH]; [reflexivity|]. cbn [Template.getSubstitution].
  apply Ascii.eqb_neq in Hc. rewrite Hc. now rewrite IH.
Qed.

Lemma replaceAllFrom_plain l :
  plainL l -> forall pre, Template.replaceAllFrom ("$"%char :: srest) repl 0 pre l = l.
Proof.
  induction 1 as [|c r Hc _ IH]; intros pre; [reflexivity|].
  cbn [Template.replaceAllFrom Template.startsWithL].
  assert (E : Ascii.eqb "$" c = false) by (apply Ascii.eqb_neq; congruence).
  rewrite E. cbn [andb]. now rewrite IH.
Qed.

Lemma replaceAllFrom_skip a :
  forall pre l,
    Template.replaceAllFrom ("$"%char :: srest) repl (length a) pre (a ++ l) =
    Template.replaceAllFrom ("$"%char :: srest) repl 0 (pre ++ a) l.
Proof.
  induction a as [|c a IH]; intros pre l.
  - now rewrite app_nil_r.
  - cbn [length app Template.replaceAllFrom]. rewrite IH.
    now rewrite <- app_assoc.
Qed.

Lemma startsWithL_app p l : Template.startsWithL p (p ++ l) = true.
Proof.
  induction p as [|c p IH]; [reflexivity|]. cbn. now rewrite Ascii.eqb_refl, IH.
Qed.

Lemma replaceAllFrom_one a post :
  plainL a -> plainL post -> plainL repl ->
  forall pre,
    Template.replaceAllFrom ("$"%char :: srest) repl 0 pre (a ++ ("$"%char :: srest) ++ post)
      = a ++ repl ++ post.
Proof.
  intros Ha Hpost Hrepl. induction Ha as [|c r Hc _ IH]; intros pre.
  - cbn [app Template.replaceAllFrom].
    change ("$"%char :: srest ++ post) with (("$"%char :: srest) ++ post).
    rewrite startsWithL_app, (getSubstitution_plain _ _ _ _ Hrepl).
    replace (length ("$"%char :: srest) - 1)%nat with (length srest)
      by (cbn [length]; lia).
    apply (f_equal (app repl)).
    rewrite replaceAllFrom_skip. now apply replaceAllFrom_plain.
  - cbn [app Template.replaceAllFrom Template.startsWithL].
    assert (E : Ascii.eqb "$" c = false) by (apply Ascii.eqb_neq; congruence).
    rewrite E. cbn [andb]. now rewrite IH.
Qed.

Lemma replaceAllFrom_miss a tail :
  plainL a -> plainL tail ->
  Template.startsWithL ("$"%char :: srest) ("$"%char :: tail) = false ->
  forall pre,
    Template.replaceAllFrom ("$"%char :: srest) repl 0 pre (a ++ "$"%char :: tail)
      = a ++ "$"%char :: tail.
Proof.
  intros Ha Htail Hmiss. induction Ha as [|c r Hc _ IH]; intros pre.
  - cbn [app Template.replaceAllFrom]. rewrite Hmiss.
    now rewrite (replaceAllFrom_plain _ Htail).
  - cbn [app Template.replaceAllFrom Template.startsWithL].
    assert (E : Ascii.eqb "$" c = false) by (apply Ascii.eqb_neq; congruence).
    rewrite E. cbn [andb]. now rewrite IH.
Qed.

End Replace.

Lemma dollarFree_plain (s : string) : dollarFree s = true <-> plainL (Js.chars s).
Proof.
  unfold dollarFree, plainL. rewrite forallb_forall, List.Forall_forall.
  split; intros H c Hc; specialize (H c Hc).
  - apply negb_true_iff, Ascii.eqb_neq in H. exact H.
  - now apply negb_true_iff, Ascii.eqb_neq.
Qed.

Lemma plainL_app (a b : list ascii) : plainL a -> plainL b -> plainL (a ++ b).
Proof. unfold plainL. intros Ha Hb. apply List.Forall_app. now split. Qed.

Lemma plainL_lower (l : list ascii) : plainL l -> plainL (map Js.lowerChar l).
Proof.
  unfold plainL. induction 1 as [|c r Hc _ IH]; constructor; [|exact IH].
  intros E. apply Hc. clear - E.
  destruct c as [[] [] [] [] [] [] [] []]; try reflexivity; vm_compute in E; discriminate.
Qed.

Lemma plainL_digits (l : list ascii) : plainL (List.filter isDigit l).
Proof.
  unfold plainL. apply List.Forall_forall. intros c Hc.
  apply List.filter_In in Hc as [_ Hc]. intros ->. discriminate.
Qed.

Lemma plainL_all_digits (l : list ascii) : forallb isDigit l = true -> plainL l.
Proof.
  unfold plainL. rewrite forallb_forall, List.Forall_forall.
  intros H c Hc. specialize (H c Hc). intros ->. discriminate.
Qed.

Lemma replaceAll_plain (s srest repl : string) :
  plainL (Js.chars s) ->
  Template.replaceAll s (String "$" srest) repl = s.
Proof.
  intros Hs. unfold Template.replaceAll. cbn [Js.chars list_ascii_of_string].
  fold (Js.chars srest). rewrite (replaceAllFrom_plain _ _ _ Hs). apply str_chars.
Qed.

Lemma replaceAll_one (pre post srest repl : string) :
  plainL (Js.chars pre) -> plainL (Js.chars post) -> plainL (Js.chars repl) ->
  Template.replaceAll (pre ++ String "$" srest ++ post) (String "$" srest) repl
    = (pre ++ repl ++ post)%string.
Proof.
  intros Hpre Hpost Hrepl. unfold Template.replaceAll. rewrite !chars_app.
  cbn [Js.chars list_ascii_of_string]. fold (Js.chars srest).
  rewrite (replaceAllFrom_one _ _ _ _ Hpre Hpost Hrepl).
  now rewrite !str_app, !str_chars.
Qed.

Lemma replaceAll_miss (pre tail srest repl : string) :
  plainL (Js.chars pre) -> plainL (Js.chars tail) ->
  Template.startsWithL ("$"%char :: Js.chars srest) ("$"%char :: Js.chars tail) = false ->
  Template.replaceAll (pre ++ String "$" tail) (String "$" srest) repl
    = (pre ++ String "$" tail)%string.
Proof.
  intros Hpre Htail Hmiss. unfold Template.replaceAll. rewrite !chars_app.
  cbn [Js.chars list_ascii_of_string]. fold (Js.chars srest). fold (Js.chars tail).
  rewrite (replaceAllFrom_miss _ _ _ _ Hpre Htail Hmiss).
  rewrite str_app, str_chars. f_equal.
  change (Js.str ("$"%char :: Js.chars tail)) with (String "$" (Js.str (Js.chars tail))).
  now rewrite str_chars.
Qed.

Lemma deriveHandle_lower up (pre post code : string) :
  plainL (Js.chars pre) -> plainL (Js.chars post) -> plainL (Js.chars code) ->
  Template.deriveHandleFromCode up (pre ++ "${codeLower}" ++ post) code
    = (pre ++ Js.toLowerCase code ++ post)%string.
Proof.
  intros Hpre Hpost Hcode. unfold Template.deriveHandleFromCode.
  assert (Hlow : plainL (Js.chars (Js.toLowerCase code))).
  { unfold Js.toLowerCase. rewrite chars_str. now apply plainL_lower. }
  rewrite (replaceAll_one pre post "{codeLower}" _ Hpre Hpost Hlow).
  assert (Hall : plainL (Js.chars (pre ++ Js.toLowerCase code ++ post))).
  { rewrite !chars_app. auto using plainL_app. }
  now rewrite !(replaceAll_plain _ _ _ Hall).
Qed.

(** X23: a template made of plain text around one [${codeLower}] gives
    the text with the code in lower case in its place, for every code
    without a dollar sign; the default template is the case of no text
    around. *)
Theorem deriveHandleFromCode_lower up (pre post code : string) :
  dollarFree pre = true -> dollarFree post = true -> dollarFree code = true ->
  Template.deriveHandleFromCode up (pre ++ "${codeLower}" ++ post) code
    = (pre ++ Js.toLowerCase code ++ post)%string.
Proof.
  rewrite !dollarFree_plain. apply deriveHandle_lower.
Qed.

Lemma deriveHandleFromCode_lower_witness :
  Template.deriveHandleFromCode sameCase "canyonite-${codeLower}-media" "CS12"
    = "canyonite-cs12-media".
Proof.
  apply (deriveHandleFromCode_lower sameCase "canyonite-" "-media" "CS12"); reflexivity.
Defined.

(** X24: a template made of plain text around one [${codeNum}] gives the
    text with the digits of the code in its place, for every code. *)
Theorem deriveHandleFromCode_num up (pre post code : string) :
  dollarFree pre = true -> dollarFree post = true ->
  Template.deriveHandleFromCode up (pre ++ "${codeNum}" ++ post) code
    = (pre ++ Template.codeNum code ++ post)%string.
Proof.
  rewrite !dollarFree_plain. intros Hpre Hpost. unfold Template.deriveHandleFromCode.
  assert (Htail : plainL (Js.chars ("{codeNum}" ++ post))).
  { rewrite chars_app. apply plainL_app; [|exact Hpost].
    apply dollarFree_plain. reflexivity. }
  change (pre ++ "${codeNum}" ++ post)%string
    with (pre ++ String "$" ("{codeNum}" ++ post))%string.
  rewrite (replaceAll_miss pre _ "{codeLower}" _ Hpre Htail) by reflexivity.
  rewrite (replaceAll_miss pre _ "{codeUpper}" _ Hpre Htail) by reflexivity.
  change (pre ++ String "$" ("{codeNum}" ++ post))%string
    with (pre ++ String "$" "{codeNum}" ++ post)%string.
  apply replaceAll_one; [exact Hpre|exact Hpost|].
  unfold Template.codeNum. rewrite chars_str. apply plainL_digits.
Qed.

Lemma deriveHandleFromCode_num_witness :
  Template.deriveHandleFromCode sameCase "item-${codeNum}" "CS12" = "item-12".
Proof.
  apply (deriveHandleFromCode_num sameCase "item-" "" "CS12"); reflexivity.
Defined.

(** X25: with the default pattern and no handle template in the
    environment (unset or empty), the handle looked up for an extracted
    code is the code in lower case: the handle of the default
    configuration. *)
Theorem default_handle_of_code up (env : gmap string string) (s c : string) :
  env !! "PRODUCT_HANDLE_TEMPLATE" = None \/ env !! "PRODUCT_HANDLE_TEMPLATE" = Some "" ->
  extractCodeDefault s = Some c ->
  Template.deriveHandleFromCode up (Template.HANDLE_TEMPLATE env) c
    = deriveHandleFromCode defaultConfig c.
Proof.
  intros Henv Hc. unfold Template.HANDLE_TEMPLATE.
  assert (Ht : Js.orStr (env !! "PRODUCT_HANDLE_TEMPLATE") "${codeLower}" = "${codeLower}")
    by (destruct Henv as [-> | ->]; reflexivity).
  rewrite Ht. cbn [deriveHandleFromCode defaultConfig].
  apply extractCodeDefault_iff in Hc
    as (c1 & c2 & ds & rest & _ & _ & _ & _ & Hds & _ & ->).
  assert (Hplain : plainL (Js.chars (Js.str ("C"%char :: "S"%char :: ds)))).
  { rewrite chars_str. constructor; [discriminate|]. constructor; [discriminate|].
    now apply plainL_all_digits. }
  pose proof (deriveHandle_lower up "" "" _ (List.Forall_nil _) (List.Forall_nil _) Hplain)
    as H.
  rewrite <- (append_empty_r (Js.toLowerCase _)). exact H.
Qed.

Lemma default_handle_of_code_witness :
  Template.deriveHandleFromCode sameCase (Template.HANDLE_TEMPLATE sampleEnv) "CS12" = "cs12".
Proof.
  apply (default_handle_of_code sameCase sampleEnv "cs12_front.jpg" "CS12").
  - left. reflexivity.
  - reflexivity.
Defined.

Lemma summary_bounded_by_files_witness :
  exists front attached skipped,
    trace (snd (run plainHost defaultConfig firstProductMissing 2)) =
      front ++ [Console Rule; Console (Summary attached skipped); Console DoneLine] /\
    0 <= attached /\ 0 <= skipped /\
    attached + skipped <=
      Z.of_nat (length (coded plainHost defaultConfig
                          [normalize plainHost (fileAt "CS1_a.jpg");
                           normalize plainHost (fileAt "CS2_a.jpg")])) /\
    (length (coded plainHost defaultConfig
               [normalize plainHost (fileAt "CS1_a.jpg");
                normalize plainHost (fileAt "CS2_a.jpg")]) <= 2)%nat.
Proof.
  apply (summary_bounded_by_files plainHost defaultConfig firstProductMissing 2
           [normalize plainHost (fileAt "CS1_a.jpg");
            normalize plainHost (fileAt "CS2_a.jpg")]
           {| sent := 0; trace := [GhlGet] |}).
  - vm_compute. reflexivity.
  - vm_compute. discriminate.
  - vm_compute. reflexivity.
Defined.
